(** * oauth-batch-authorizer: the batch orchestrator, the artifact verifier,
      challenge detection and the rotation indexer

    A shallow embedding of [scripts/src/rotate.ts], of the per-account loop of
    [runAuthCommand] in [scripts/src/main.ts], of [waitForAuthFileByEmail]
    and [getStateFromAuthUrl] (module cpamc, the second half of
    [scripts/src/config.ts]) and of [detectChallenge] (login-flow.ts).

    Conventions.
    - A JavaScript string is a Rocq [string] holding the bytes of its UTF-8
      text. On well-formed text [startsWith], [endsWith], [includes] and the
      ASCII case folding of the [/i] patterns answer on these bytes as they
      do on code units; [slice(0, n)] counts UTF-16 code units ([sliceTo]).
    - A call that may throw returns an [outcome]: [Ok v] or [Throw msg], the
      thrown value being represented by the message the orchestrator's catch
      block extracts from it.
    - A file is represented by what [fs.readFileSync] followed by
      [JSON.parse] makes of it ([file_content]).
    - Calls into the browser are answers of the environment, given as record
      fields; the code of this repository around them is embedded as it is
      written. *)

From Stdlib Require Import String Ascii List ZArith Bool Lia.
From Equations Require Import Equations.
Import ListNotations.

Local Open Scope list_scope.
Local Open Scope string_scope.

Set Warnings "-register-all,-abstract-large-number".

(* ===================================================================== *)
(** ** Exceptions *)
(* ===================================================================== *)

Inductive outcome (A : Type) : Type :=
| Ok (value : A)
| Throw (message : string).

Arguments Ok {A} value.
Arguments Throw {A} message.

Definition bind {A B : Type} (m : outcome A) (k : A -> outcome B) : outcome B :=
  match m with
  | Ok a => k a
  | Throw msg => Throw msg
  end.

Notation "x <- m ;; k" := (bind m (fun x => k))
  (at level 61, m at next level, right associativity).

(** [try { body } catch { handler }] where the handler itself cannot throw. *)
Definition try_catch {A : Type} (body : outcome A) (handler : string -> A) : A :=
  match body with
  | Ok a => a
  | Throw msg => handler msg
  end.

(** [promise.catch(() => dflt)] *)
Definition catch_default {A : Type} (m : outcome A) (dflt : A) : A :=
  try_catch m (fun _ => dflt).

(* ===================================================================== *)
(** ** JSON values and property access *)
(* ===================================================================== *)

Inductive json : Type :=
| JNull
| JBool (b : bool)
| JNum (n : Z)
| JStr (s : string)
| JArr (items : list json)
| JObj (fields : list (string * json)).

Fixpoint assoc {A : Type} (k : string) (l : list (string * A)) : option A :=
  match l with
  | [] => None
  | (k', v) :: l' => if String.eqb k' k then Some v else assoc k l'
  end.

(** [field j k] is the own property [k] of a parsed value, [None] standing
    for [undefined]. Only the names the code reads are looked up (email,
    file, status, expired, disabled, accounts); none of them exists on a
    primitive or on an array. *)
Definition field (j : json) (k : string) : option json :=
  match j with
  | JObj fs => assoc k fs
  | _ => None
  end.

(** The expression [j.k]: reading a property of [null] throws a TypeError. *)
Definition getProp (j : json) (k : string) : outcome (option json) :=
  match j with
  | JNull => Throw ("Cannot read properties of null (reading '" ++ k ++ "')")
  | _ => Ok (field j k)
  end.

(** [typeof v === "string"] for a property that may be undefined. *)
Definition isString (v : option json) : bool :=
  match v with
  | Some (JStr _) => true
  | _ => false
  end.

(* ===================================================================== *)
(** ** String primitives *)
(* ===================================================================== *)

Definition startsWith (s p : string) : bool := String.prefix p s.

Fixpoint includes (s p : string) : bool :=
  String.prefix p s ||
  match s with
  | EmptyString => false
  | String _ s' => includes s' p
  end.

Definition endsWith (s p : string) : bool :=
  let n := String.length s in
  let m := String.length p in
  Nat.leb m n && String.eqb (substring (n - m) m s) p.

Definition lower_ascii (c : ascii) : ascii :=
  let n := nat_of_ascii c in
  if Nat.leb 65 n && Nat.leb n 90 then ascii_of_nat (n + 32) else c.

Fixpoint ascii_toLowerCase (s : string) : string :=
  match s with
  | EmptyString => EmptyString
  | String c s' => String (lower_ascii c) (ascii_toLowerCase s')
  end.

(** [re.test(s)] for a regular expression [/lit/i] whose literal has ASCII
    letters only: without the [u] flag a character outside ASCII never
    matches an ASCII letter, so the test is an ASCII case-blind search. *)
Definition test_ci (lit s : string) : bool :=
  includes (ascii_toLowerCase s) (ascii_toLowerCase lit).

(** *** UTF-16 code units

    The code measures a string in UTF-16 code units. A character of one, two
    or three bytes of UTF-8 is one code unit, a character of four bytes is
    two, a surrogate pair. A surrogate left alone is held as the three bytes
    ED A0..BF 80..BF that generalized UTF-8 gives it. *)

(** The bytes 80..BF go on with the character before them. *)
Definition isContinuation (c : ascii) : bool :=
  Nat.leb 128 (nat_of_ascii c) && Nat.ltb (nat_of_ascii c) 192.

(** The code units of the character that starts with the byte [c]. *)
Definition unitsOf (c : ascii) : nat :=
  if isContinuation c then 0
  else if Nat.ltb (nat_of_ascii c) 240 then 1 else 2.

(** [s.length] *)
Fixpoint units (s : string) : nat :=
  match s with
  | EmptyString => 0
  | String c s' => unitsOf c + units s'
  end.

(** The first half of the surrogate pair of the character whose first three
    bytes are [b0 b1 b2]: D800 + w, where w is the code point less 10000
    (hexadecimal) without its last ten bits. *)
Definition highSurrogate (b0 b1 b2 : ascii) : string :=
  let w := (nat_of_ascii b0 mod 8) * 256 + (nat_of_ascii b1 mod 64) * 4
           + (nat_of_ascii b2 mod 64) / 16 - 64 in
  String (ascii_of_nat 237)
    (String (ascii_of_nat (160 + w / 64))
       (String (ascii_of_nat (128 + w mod 64)) EmptyString)).

(** [s.slice(0, n)]: the first [n] code units of [s]. A cut inside a
    surrogate pair keeps its first half. *)
Fixpoint sliceTo (n : nat) (s : string) : string :=
  match s with
  | EmptyString => EmptyString
  | String c s' =>
      if isContinuation c then String c (sliceTo n s')
      else if Nat.leb (unitsOf c) n then String c (sliceTo (n - unitsOf c) s')
      else
        match n, s' with
        | 1, String b1 (String b2 _) => highSurrogate c b1 b2
        | _, _ => EmptyString
        end
  end.

(* ===================================================================== *)
(** ** What the host runtime provides *)
(* ===================================================================== *)

(** The library functions the code calls and whose result depends on the
    platform or on Unicode tables. The theorems hold for every runtime. *)
Class Runtime : Type := {
  (** [String.prototype.toLowerCase] *)
  toLowerCase : string -> string;
  (** [path.basename] *)
  basename : string -> string;
  (** [path.join] of a directory and a name *)
  join : string -> string -> string;
  (** [Date.parse], [None] standing for NaN *)
  Date_parse : string -> option Z;
  Date_parse_empty : Date_parse EmptyString = None;
  (** [new URL(u).searchParams.get(name)]; throws on an invalid URL *)
  URL_searchParam : string -> string -> outcome (option string)
}.

(* ===================================================================== *)
(** ** The file system as the code observes it *)
(* ===================================================================== *)

Record Dirent : Type := {
  name : string;
  isFile : bool
}.

(** [fs.readFileSync(file, "utf-8")] followed by [JSON.parse]. *)
Inductive file_content : Type :=
| Unreadable            (* readFileSync throws *)
| Malformed             (* JSON.parse throws *)
| Parsed (j : json).

Record FileSystem : Type := {
  readdirSync : string -> outcome (list Dirent);
  existsSync : string -> bool;
  readFileSync : string -> file_content
}.

Definition readJSON (fs : FileSystem) (file : string) : outcome json :=
  match readFileSync fs file with
  | Unreadable => Throw "ENOENT: no such file or directory"
  | Malformed => Throw "Unexpected token in JSON"
  | Parsed j => Ok j
  end.

(** The filter shared by the rotation scan and the artifact verifier. *)
Definition isArtifact (d : Dirent) : bool :=
  isFile d && startsWith (name d) "codex-" && endsWith (name d) ".json".

(* ===================================================================== *)
(** ** rotate.ts *)
(* ===================================================================== *)

Module Rotate.

(** A [RotateAccountEntry] is an object. After the TypeScript types are
    erased an entry read back from a previous index is whatever object the
    file held, so entries are JSON objects here. A property whose value is
    [undefined] is left out, as [JSON.stringify] does. *)
Definition RotateAccountEntry : Type := json.

Definition mkEntry (email file : string) (expired : option string)
    (status : string) : RotateAccountEntry :=
  JObj (("email", JStr email) :: ("file", JStr file) ::
        match expired with
        | Some e => [("expired", JStr e); ("status", JStr status)]
        | None => [("status", JStr status)]
        end).

Record RotateIndex : Type := {
  generated_at : string;
  total : nat;
  active : nat;
  expired : nat;
  disabled : nat;
  invalid : nat;
  accounts : list RotateAccountEntry
}.

(** [a.status === s] *)
Definition hasStatus (s : string) (a : RotateAccountEntry) : bool :=
  match field a "status" with
  | Some (JStr t) => String.eqb t s
  | _ => false
  end.

Definition countStatus (s : string) (l : list RotateAccountEntry) : nat :=
  length (filter (hasStatus s) l).

Section WithRuntime.
Context {R : Runtime}.

(** [classify(file)], with [now] the value of [Date.now()]. *)
Definition classify (now : Z) (fs : FileSystem) (file : string)
  : RotateAccountEntry :=
  try_catch
    (data <- readJSON fs file ;;
     em <- getProp data "email" ;;
     let email := match em with
                  | Some (JStr s) => s
                  | _ => basename file
                  end in
     dis <- getProp data "disabled" ;;
     let disabled := match dis with
                     | Some (JBool true) => true
                     | _ => false
                     end in
     ex <- getProp data "expired" ;;
     let expired := match ex with
                    | Some (JStr s) => Some s
                    | _ => None
                    end in
     if disabled then Ok (mkEntry email file expired "disabled")
     else
       let isExpired :=
         match expired with
         | Some e =>
             (* if (expired): the empty string is falsy *)
             negb (String.eqb e EmptyString) &&
             match Date_parse e with
             | Some exp => (exp <? now)%Z
             | None => false
             end
         | None => false
         end in
       if isExpired then Ok (mkEntry email file expired "expired")
       else Ok (mkEntry email file expired "active"))
    (fun _ => mkEntry (basename file) file None "invalid").

(** [buildRotationIndex(dir)]; [now file] is the clock when [file] is
    classified and [stamp] is [new Date().toISOString()]. *)
Definition scannedFiles (fs : FileSystem) (dir : string) : outcome (list string) :=
  entries <- readdirSync fs dir ;;
  Ok (map (fun d => join dir (name d)) (filter isArtifact entries)).

Definition mkIndex (stamp : string) (accs : list RotateAccountEntry) : RotateIndex :=
  {| generated_at := stamp;
     total := length accs;
     active := countStatus "active" accs;
     expired := countStatus "expired" accs;
     disabled := countStatus "disabled" accs;
     invalid := countStatus "invalid" accs;
     accounts := accs |}.

Definition buildRotationIndex (now : string -> Z) (stamp : string)
    (fs : FileSystem) (dir : string) : outcome RotateIndex :=
  files <- scannedFiles fs dir ;;
  Ok (mkIndex stamp (map (fun f => classify (now f) fs f) files)).

(** [accountKey(entry)]: [entry.email.toLowerCase()] throws when the
    property is not a string. *)
Definition stringProp (j : json) (k : string) : outcome string :=
  v <- getProp j k ;;
  match v with
  | Some (JStr s) => Ok s
  | _ => Throw ("entry." ++ k ++ " is not a string")
  end.

Definition accountKey (entry : RotateAccountEntry) : outcome string :=
  email <- stringProp entry "email" ;;
  file <- stringProp entry "file" ;;
  Ok (toLowerCase email ++ "|" ++ toLowerCase (basename file)).

(** A [Map<string, RotateAccountEntry>]: insertion ordered; [set] on a key
    that is present replaces the value where it stands. *)
Definition JsMap : Type := list (string * RotateAccountEntry).

Fixpoint map_set (k : string) (v : RotateAccountEntry) (m : JsMap) : JsMap :=
  match m with
  | [] => [(k, v)]
  | (k', v') :: m' =>
      if String.eqb k' k then (k, v) :: m' else (k', v') :: map_set k v m'
  end.

Definition map_values (m : JsMap) : list RotateAccountEntry := map snd m.

(** [for (const acc of l) merged.set(accountKey(acc), acc)] *)
Fixpoint setAll (l : list RotateAccountEntry) (merged : JsMap) : outcome JsMap :=
  match l with
  | [] => Ok merged
  | acc :: l' =>
      k <- accountKey acc ;;
      setAll l' (map_set k acc merged)
  end.

(** The predicate of the [filter] applied to [parsed.accounts]. *)
Definition wellFormed (x : json) : bool :=
  match x with
  | JObj _ => isString (field x "email") && isString (field x "file")
  | _ => false
  end.

(** The first part of [writeRotationIndex]: the entries kept from the
    index already at [outPath]. *)
Definition existingAccounts (fs : FileSystem) (outPath : string)
  : list RotateAccountEntry :=
  if existsSync fs outPath then
    try_catch
      (parsed <- readJSON fs outPath ;;
       accs <- getProp parsed "accounts" ;;
       match accs with
       | Some (JArr items) => Ok (filter wellFormed items)
       | _ => Ok []
       end)
      (fun _ => [])
  else [].

(** [writeRotationIndex(outPath, index)] up to its last line: the result is
    the index handed to [fs.writeFileSync]. The write itself, which may
    throw, is added in [RotateDisk.writeRotationIndex]; once it has returned
    [outPath] holds the JSON text of that index. *)
Definition writeRotationIndex (stamp : string) (fs : FileSystem)
    (outPath : string) (index : RotateIndex) : outcome RotateIndex :=
  merged <- setAll (existingAccounts fs outPath) [] ;;
  merged <- setAll (accounts index) merged ;;
  Ok (mkIndex stamp (map_values merged)).

(** What [JSON.parse] returns for the text of a written index. *)
Definition toJSON (index : RotateIndex) : json :=
  JObj [("generated_at", JStr (generated_at index));
        ("total", JNum (Z.of_nat (total index)));
        ("active", JNum (Z.of_nat (active index)));
        ("expired", JNum (Z.of_nat (expired index)));
        ("disabled", JNum (Z.of_nat (disabled index)));
        ("invalid", JNum (Z.of_nat (invalid index)));
        ("accounts", JArr (accounts index))].

End WithRuntime.

End Rotate.

(* ===================================================================== *)
(** ** cpamc: the artifact verifier and the correlation token *)
(* ===================================================================== *)

Module Cpamc.

(** The auth directory while [waitForAuthFileByEmail] runs: [snapshot k] is
    the file system during the [k]-th pass of the loop, and [lateness k] is
    the time that pass takes beyond the 1000 ms of its [setTimeout]
    (milliseconds; a timer never fires early). *)
Record Timeline : Type := {
  snapshot : nat -> FileSystem;
  lateness : nat -> N
}.

(** [Date.now() - started] at the test that opens the [k]-th pass. *)
Fixpoint elapsedAt (tl : Timeline) (k : nat) : Z :=
  match k with
  | O => 0
  | S k' => elapsedAt tl k' + 1000 + Z.of_N (lateness tl k')
  end.

Inductive ConsoleStatus : Set := success | error | waiting.

Module CpamcAuthStatus.
Record t : Type := {
  status : ConsoleStatus;
  raw : option string;
  message : option string
}.
End CpamcAuthStatus.

Section WithRuntime.
Context {R : Runtime}.

(** The body of the inner [try]: a file that cannot be read or parsed, or
    whose content has no fitting [email], is passed over. *)
Definition emailMatches (fs : FileSystem) (lowerEmail file : string) : bool :=
  try_catch
    (data <- readJSON fs file ;;
     em <- getProp data "email" ;;
     match em with
     | Some (JStr e) => Ok (String.eqb (toLowerCase e) lowerEmail)
     | _ => Ok false
     end)
    (fun _ => false).

(** One pass: list the directory (this may throw), keep the artifact
    names, return the first file whose email fits. *)
Definition scanOnce (fs : FileSystem) (authDir lowerEmail : string)
  : outcome (option string) :=
  entries <- readdirSync fs authDir ;;
  let files := map (fun d => join authDir (name d)) (filter isArtifact entries) in
  Ok (find (emailMatches fs lowerEmail) files).

(** The [while (Date.now() - started < timeoutMs)] loop, entered for the
    [k]-th time after [elapsed] milliseconds. *)
Equations? pollLoop (tl : Timeline) (authDir lowerEmail : string)
    (timeoutMs : Z) (k : nat) (elapsed : Z)
  : outcome (option string) by wf (Z.to_nat (timeoutMs - elapsed)) lt :=
  pollLoop tl authDir lowerEmail timeoutMs k elapsed
    with Z_lt_dec elapsed timeoutMs => {
    | right _ => Ok None
    | left _ with scanOnce (snapshot tl k) authDir lowerEmail => {
        | Throw msg => Throw msg
        | Ok (Some file) => Ok (Some file)
        | Ok None =>
            pollLoop tl authDir lowerEmail timeoutMs (S k)
                     (elapsed + 1000 + Z.of_N (lateness tl k)) } }.
Proof. lia. Qed.

Definition waitForAuthFileByEmail (tl : Timeline) (authDir email : string)
    (timeoutMs : Z) : outcome (option string) :=
  pollLoop tl authDir (toLowerCase email) timeoutMs 0 0.

(** [getStateFromAuthUrl(authUrl)] *)
Definition getStateFromAuthUrl (authUrl : string) : option string :=
  try_catch (URL_searchParam authUrl "state") (fun _ => None).

End WithRuntime.

End Cpamc.

(* ===================================================================== *)
(** ** login-flow.ts: challenge detection *)
(* ===================================================================== *)

Module LoginFlow.

(** The two fields of [FlowConfig] that [detectChallenge] reads. *)
Record FlowConfig : Type := {
  challengeSelectors : list string;
  challengeTextPatterns : list string
}.

Record Frame : Type := {
  (** [frame.locator("body").innerText()] *)
  body_innerText : outcome string
}.

Record Page : Type := {
  frames : list Frame;
  (** [page.locator(selector).first().count()] *)
  locator_count : string -> outcome nat;
  (** [page.locator(selector).first().isVisible()] *)
  locator_isVisible : string -> outcome bool;
  (** [page.content()] *)
  content : outcome string
}.

(** [/登录到 Codex|to Codex/i.test(bodyText)] *)
Definition consentPattern (bodyText : string) : bool :=
  test_ci "登录到 Codex" bodyText || test_ci "to Codex" bodyText.

Definition frameLooksLikeConsent (frame : Frame) : bool :=
  let bodyText := sliceTo 12000 (catch_default (body_innerText frame) EmptyString) in
  consentPattern bodyText.

Definition onCodexConsentPage (page : Page) : bool :=
  existsb frameLooksLikeConsent (frames page).

(** [new Set(["verification", "验证"]).has(t)] *)
Definition overlyBroad (t : string) : bool :=
  String.eqb t "verification" || String.eqb t "验证".

(** The [for] loop over [cfg.challengeSelectors]. *)
Fixpoint anySelectorVisible (page : Page) (selectors : list string) : outcome bool :=
  match selectors with
  | [] => Ok false
  | selector :: rest =>
      n <- locator_count page selector ;;
      if Nat.ltb 0 n && catch_default (locator_isVisible page selector) false
      then Ok true
      else anySelectorVisible page rest
  end.

Section WithRuntime.
Context {R : Runtime}.

Definition textChallenge (cfg : FlowConfig) (html : string) : bool :=
  existsb (fun t => includes html t)
    (filter (fun t => negb (overlyBroad t))
       (map toLowerCase (challengeTextPatterns cfg))).

Definition detectChallenge (page : Page) (cfg : FlowConfig) : outcome bool :=
  if onCodexConsentPage page then Ok false
  else
    visible <- anySelectorVisible page (challengeSelectors cfg) ;;
    if visible then Ok true
    else
      html <- content page ;;
      Ok (textChallenge cfg (toLowerCase html)).

End WithRuntime.

End LoginFlow.

(* ===================================================================== *)
(** ** main.ts: the per-account loop of runAuthCommand *)
(* ===================================================================== *)

Module Main.

Inductive FailureCode : Set :=
| INVALID_INPUT
| LOGIN_REJECTED
| CHALLENGE_REQUIRED
| TOKEN_NOT_FOUND
| WRITE_FAILED
| CPAMC_LOGIN_FAILED
| CPAMC_LINK_NOT_FOUND
| CPAMC_OAUTH_FAILED
| CALLBACK_URL_NOT_CAPTURED
| CALLBACK_SUBMIT_FAILED
| UNKNOWN.

Inductive AuthStatus : Set := success | failed | skipped.

Module AccountCredential.
Record t : Type := {
  email : string;
  password : string;
  plan : option string
}.
End AccountCredential.

Module AuthResult.
Record t : Type := {
  email : string;
  plan : string;
  status : AuthStatus;
  code : option FailureCode;
  message : option string;
  file : option string;
  started_at : string;
  ended_at : string
}.
End AuthResult.

(** The value [runLoginFlow] resolves to. *)
Module FlowResult.
Record t : Type := {
  finalUrl : string;
  challenge : bool;
  invalidCredentials : bool;
  callbackUrl : option string
}.
End FlowResult.

(** What the browser, the console and the clock answer while one account is
    processed, in the order the loop body asks. *)
Record AccountWorld : Type := {
  (** [new Date().toISOString()] at the top of the iteration *)
  startedAt : string;
  (** [new Date().toISOString()] when the result is pushed *)
  endedAt : string;
  (** [browser.newContext()] *)
  newContext : outcome unit;
  (** [context.newPage()] for the control page *)
  newControlPage : outcome unit;
  ensureCpamcLogin : outcome unit;
  gotoOauthPage : outcome unit;
  startCodexOauthAndGetUrl : outcome string;
  (** [context.newPage()] for the auth page *)
  newAuthPage : outcome unit;
  (** [runLoginFlow(authPage, account, flow, timeoutMs, authUrl)] *)
  runLoginFlow : string -> outcome FlowResult.t;
  (** the auth page as [detectChallenge] finds it once the flow is over *)
  authPage : LoginFlow.Page;
  (** [pollCpamcAuthStatus(controlPage, state, settleTimeoutMs, key)] *)
  pollCpamcAuthStatus : string -> Z -> outcome Cpamc.CpamcAuthStatus.t;
  (** the auth directory while the artifact is waited for *)
  authDirTimeline : Cpamc.Timeline
}.

Record RunOptions : Type := {
  timeoutMs : Z;
  defaultPlan : string;
  outDir : string;
  flow : LoginFlow.FlowConfig
}.

(** [a ?? b] *)
Definition orDefault {A : Type} (a : option A) (b : A) : A :=
  match a with
  | Some v => v
  | None => b
  end.

Section WithRuntime.
Context {R : Runtime}.

Variable opts : RunOptions.

(** The object literal every [results.push] builds. *)
Definition result (w : AccountWorld) (account : AccountCredential.t)
    (status : AuthStatus) (code : option FailureCode)
    (message : option string) (file : option string) : AuthResult.t :=
  {| AuthResult.email := AccountCredential.email account;
     AuthResult.plan := orDefault (AccountCredential.plan account) (defaultPlan opts);
     AuthResult.status := status;
     AuthResult.code := code;
     AuthResult.message := message;
     AuthResult.file := file;
     AuthResult.started_at := startedAt w;
     AuthResult.ended_at := endedAt w |}.

Definition failure (w : AccountWorld) (account : AccountCredential.t)
    (code : FailureCode) (message : string) : AuthResult.t :=
  result w account failed (Some code) (Some message) None.

(** [flowResult.challenge || (await detectChallenge(authPage, flow))] *)
Definition challengeAfterFlow (w : AccountWorld) (flowResult : FlowResult.t)
  : outcome bool :=
  if FlowResult.challenge flowResult then Ok true
  else LoginFlow.detectChallenge (authPage w) (flow opts).

(** Lines 166-239: what is pushed once the flow result, the challenge flag
    and the console status are known. *)
Definition reconcile (w : AccountWorld) (account : AccountCredential.t)
    (flowResult : FlowResult.t) (challenge : bool)
    (status : Cpamc.CpamcAuthStatus.t) : outcome AuthResult.t :=
  let statusMessage := Cpamc.CpamcAuthStatus.message status in
  if FlowResult.invalidCredentials flowResult then
    Ok (failure w account LOGIN_REJECTED
          (orDefault statusMessage "Incorrect email address or password."))
  else if challenge then
    Ok (failure w account CHALLENGE_REQUIRED
          (orDefault statusMessage
             "Challenge detected (captcha/2FA/verification). Skipped account."))
  else
    match Cpamc.CpamcAuthStatus.status status with
    | Cpamc.error =>
        Ok (failure w account CPAMC_OAUTH_FAILED
              (orDefault statusMessage "CPAMC OAuth reported failure."))
    | Cpamc.waiting =>
        Ok (failure w account CPAMC_OAUTH_FAILED
              "Timed out waiting CPAMC authentication result.")
    | Cpamc.success =>
        file <- Cpamc.waitForAuthFileByEmail (authDirTimeline w) (outDir opts)
                  (AccountCredential.email account) (timeoutMs opts) ;;
        match file with
        | None | Some EmptyString =>
            Ok (failure w account WRITE_FAILED
                  "OAuth completed but auth file not found.")
        | Some f => Ok (result w account success None None (Some f))
        end
    end.

(** The body of the inner [try]; every [continue] and the fall-through end
    with one result, an exception leaves with [Throw]. *)
Definition tryBlock (w : AccountWorld) (account : AccountCredential.t)
  : outcome AuthResult.t :=
  _ <- newControlPage w ;;
  _ <- ensureCpamcLogin w ;;
  _ <- gotoOauthPage w ;;
  authUrl <- startCodexOauthAndGetUrl w ;;
  match Cpamc.getStateFromAuthUrl authUrl with
  | None | Some EmptyString =>
      Ok (failure w account CPAMC_LINK_NOT_FOUND "Auth URL state not found.")
  | Some state =>
      _ <- newAuthPage w ;;
      flowResult <- runLoginFlow w authUrl ;;
      challenge <- challengeAfterFlow w flowResult ;;
      let settleTimeoutMs :=
        if FlowResult.invalidCredentials flowResult || challenge
        then Z.min (timeoutMs opts) 30000
        else timeoutMs opts in
      status <- pollCpamcAuthStatus w state settleTimeoutMs ;;
      reconcile w account flowResult challenge status
  end.

(** The [catch] block: the failure code read off the error message. *)
Definition errorCode (message : string) : FailureCode :=
  let lower := toLowerCase message in
  if includes lower "management key" then CPAMC_LOGIN_FAILED
  else if includes lower "auth url" then CPAMC_LINK_NOT_FOUND
  else if includes lower "timeout" then LOGIN_REJECTED
  else UNKNOWN.

(** One iteration of the [for] loop. [browser.newContext()] is awaited
    before the inner [try] is entered; the [finally] block swallows what
    closing the page and the context may throw. *)
Definition iteration (w : AccountWorld) (account : AccountCredential.t)
  : outcome AuthResult.t :=
  _ <- newContext w ;;
  Ok (try_catch (tryBlock w account)
        (fun message => failure w account (errorCode message) message)).

(** The [for] loop, from index [i] on, with the results pushed so far. An
    exception that leaves an iteration leaves the loop: the results pushed
    until then are returned with its message. The [sleep(delayMs)] between
    accounts changes no result and is left out. *)
Fixpoint loopFrom (worlds : nat -> AccountWorld) (i : nat)
    (accounts : list AccountCredential.t) (results : list AuthResult.t)
  : list AuthResult.t * option string :=
  match accounts with
  | [] => (results, None)
  | account :: rest =>
      match iteration (worlds i) account with
      | Ok r => loopFrom worlds (S i) rest (results ++ [r])%list
      | Throw msg => (results, Some msg)
      end
  end.

Record Summary : Type := {
  total : nat;
  n_success : nat;
  n_failed : nat;
  n_skipped : nat;
  results : list AuthResult.t
}.

Definition hasStatus (s : AuthStatus) (r : AuthResult.t) : bool :=
  match AuthResult.status r, s with
  | success, success | failed, failed | skipped, skipped => true
  | _, _ => false
  end.

(** [runAuthCommand] from the loop to the summary object (the run that is
    not a dry run); [browserClose] is the outcome of [browser.close()] in
    the outer [finally]. *)
Definition runAuthCommand (worlds : nat -> AccountWorld)
    (browserClose : outcome unit) (accounts : list AccountCredential.t)
  : outcome Summary :=
  let (rs, aborted) := loopFrom worlds 0 accounts [] in
  _ <- browserClose ;;
  match aborted with
  | Some msg => Throw msg
  | None =>
      Ok {| total := length rs;
            n_success := length (filter (hasStatus success) rs);
            n_failed := length (filter (hasStatus failed) rs);
            n_skipped := length (filter (hasStatus skipped) rs);
            results := rs |}
  end.

(** [runRotateIndexCommand]: scan [dir], merge into the index at [out].
    The result is the index written. *)
Definition runRotateIndexCommand (now : string -> Z) (stamp stamp' : string)
    (fs : FileSystem) (dir out : string) : outcome Rotate.RotateIndex :=
  index <- Rotate.buildRotationIndex now stamp fs dir ;;
  Rotate.writeRotationIndex stamp' fs out index.

End WithRuntime.

End Main.

From Stdlib Require Import Sorted.

(* ===================================================================== *)
(** ** Text as the string methods and regular expressions see it *)
(* ===================================================================== *)

(** A string is the UTF-8 text of the JavaScript string. The characters
    [String.prototype.trim] removes and [\s] matches are those of the
    ECMAScript classes WhiteSpace and LineTerminator; six of them are one
    byte long, the others two or three. The separators the code splits on
    and the characters it replaces are ASCII, and UTF-8 never uses an ASCII
    byte inside a longer character. *)
Module Text.

Definition isEmpty (s : string) : bool := String.eqb s EmptyString.

Definition bytes (l : list nat) : string :=
  fold_right (fun n s => String (ascii_of_nat n) s) EmptyString l.

(** The white-space characters, each by the bytes of its UTF-8 form. *)
Definition whiteSpace : list string :=
  map bytes
    [ [9]; [10]; [11]; [12]; [13]; [32];                (* TAB LF VT FF CR SP *)
      [194; 160];                                       (* U+00A0 *)
      [225; 154; 128];                                  (* U+1680 *)
      [226; 128; 128]; [226; 128; 129]; [226; 128; 130];
      [226; 128; 131]; [226; 128; 132]; [226; 128; 133];
      [226; 128; 134]; [226; 128; 135]; [226; 128; 136];
      [226; 128; 137]; [226; 128; 138];                 (* U+2000 .. U+200A *)
      [226; 128; 168]; [226; 128; 169];                 (* U+2028 U+2029 *)
      [226; 128; 175];                                  (* U+202F *)
      [226; 129; 159];                                  (* U+205F *)
      [227; 128; 128];                                  (* U+3000 *)
      [239; 187; 191] ].                                (* U+FEFF *)

Definition isWhiteSpace (c : string) : bool :=
  existsb (String.eqb c) whiteSpace.

(** The text cut into characters: a white-space character of two or three
    bytes is one item, every other byte is an item of its own (a character
    that is not white space may thus be several items; every class the code
    uses treats all of them alike). *)
Fixpoint chars (s : string) : list string :=
  match s with
  | EmptyString => []
  | String a r1 =>
      match r1 with
      | EmptyString => [String a EmptyString]
      | String b r2 =>
          match r2 with
          | EmptyString =>
              if isWhiteSpace (String a (String b EmptyString))
              then [String a (String b EmptyString)]
              else String a EmptyString :: chars r1
          | String c r3 =>
              if isWhiteSpace (String a (String b (String c EmptyString)))
              then String a (String b (String c EmptyString)) :: chars r3
              else if isWhiteSpace (String a (String b EmptyString))
              then String a (String b EmptyString) :: chars r2
              else String a EmptyString :: chars r1
          end
      end
  end.

Definition unchars (l : list string) : string :=
  fold_right String.append EmptyString l.

Fixpoint dropWhile {A : Type} (p : A -> bool) (l : list A) : list A :=
  match l with
  | [] => []
  | x :: l' => if p x then dropWhile p l' else l
  end.

(** [s.trim()] *)
Definition trim (s : string) : string :=
  unchars (rev (dropWhile isWhiteSpace (rev (dropWhile isWhiteSpace (chars s))))).

(** [cons c] onto the first field of a split. *)
Definition consHead (c : ascii) (fields : list string) : list string :=
  match fields with
  | [] => [String c EmptyString]
  | f :: fs => String c f :: fs
  end.

Definition isDash (c : ascii) : bool := Ascii.eqb c "-"%char.

(** [s.split("----")]: the fields between the occurrences of the separator,
    found from the left, an occurrence starting where the one before it
    ends at the earliest. *)
Fixpoint splitDashes (s : string) : list string :=
  match s with
  | EmptyString => [EmptyString]
  | String a r1 =>
      match r1 with
      | String b (String c (String d r4)) =>
          if isDash a && isDash b && isDash c && isDash d
          then EmptyString :: splitDashes r4
          else consHead a (splitDashes r1)
      | _ => consHead a (splitDashes r1)
      end
  end.

(** [s.split(/\r?\n/)] *)
Fixpoint splitLines (s : string) : list string :=
  match s with
  | EmptyString => [EmptyString]
  | String a r1 =>
      if Ascii.eqb a (ascii_of_nat 10) then EmptyString :: splitLines r1
      else if Ascii.eqb a (ascii_of_nat 13) then
        match r1 with
        | String b r2 =>
            if Ascii.eqb b (ascii_of_nat 10) then EmptyString :: splitLines r2
            else consHead a (splitLines r1)
        | EmptyString => consHead a (splitLines r1)
        end
      else consHead a (splitLines r1)
  end.

(** [fields.join(sep)] *)
Definition joinWith (sep : string) (fields : list string) : string :=
  String.concat sep fields.

(** [s.slice(n)] for [n] within the string or at its end. *)
Fixpoint sliceFrom (n : nat) (s : string) : string :=
  match n, s with
  | 0, _ => s
  | S n', String _ s' => sliceFrom n' s'
  | S _, EmptyString => EmptyString
  end.

(** Regular expressions over characters, matched on the whole text (the
    patterns so written are anchored with [^] and [$], without flags). *)
Inductive regex : Type :=
| Void                                   (* matches nothing *)
| Eps                                    (* matches the empty text *)
| Class (p : string -> bool)             (* one character of a class *)
| Seq (r1 r2 : regex)
| Alt (r1 r2 : regex)
| Star (r : regex).

Definition Plus (r : regex) : regex := Seq r (Star r).

Fixpoint nullable (r : regex) : bool :=
  match r with
  | Void => false
  | Eps => true
  | Class _ => false
  | Seq r1 r2 => nullable r1 && nullable r2
  | Alt r1 r2 => nullable r1 || nullable r2
  | Star _ => true
  end.

(** What is left of [r] to match once the character [c] has been read. *)
Fixpoint deriv (c : string) (r : regex) : regex :=
  match r with
  | Void => Void
  | Eps => Void
  | Class p => if p c then Eps else Void
  | Seq r1 r2 =>
      if nullable r1
      then Alt (Seq (deriv c r1) r2) (deriv c r2)
      else Seq (deriv c r1) r2
  | Alt r1 r2 => Alt (deriv c r1) (deriv c r2)
  | Star r1 => Seq (deriv c r1) (Star r1)
  end.

Fixpoint matches (r : regex) (cs : list string) : bool :=
  match cs with
  | [] => nullable r
  | c :: cs' => matches (deriv c r) cs'
  end.

(** [re.test(s)] *)
Definition test (r : regex) (s : string) : bool := matches r (chars s).

(** [re.test(s)] for a pattern without anchors: the pattern is looked for
    anywhere in the text. *)
Definition anyChar : regex := Class (fun _ => true).

Definition search (r : regex) (s : string) : bool :=
  matches (Seq (Star anyChar) (Seq r (Star anyChar))) (chars s).

(** The characters of a literal one after the other, under the flag [i]:
    letter case is ignored (the literals so written are ASCII). *)
Fixpoint literal_ci (lit : string) : regex :=
  match lit with
  | EmptyString => Eps
  | String c rest =>
      Seq (Class (fun t => String.eqb (ascii_toLowerCase t)
                             (String (lower_ascii c) EmptyString)))
          (literal_ci rest)
  end.

(** [\d] *)
Definition digit : regex :=
  Class (fun t => existsb (String.eqb t)
                    ["0"; "1"; "2"; "3"; "4"; "5"; "6"; "7"; "8"; "9"]).

(** [a || b] for two strings *)
Definition orElse (a b : string) : string := if isEmpty a then b else a.

End Text.

(* ===================================================================== *)
(** ** io.ts *)
(* ===================================================================== *)

Module Io.
Import Text.

Module AccountCredential := Main.AccountCredential.

(** [[^\s@]] *)
Definition notSpaceNorAt (c : string) : bool :=
  negb (isWhiteSpace c) && negb (String.eqb c "@").

(** [/^[^\s@]+@[^\s@]+\.[^\s@]+$/] *)
Definition EMAIL_RE : regex :=
  Seq (Plus (Class notSpaceNorAt))
   (Seq (Class (String.eqb "@"))
    (Seq (Plus (Class notSpaceNorAt))
     (Seq (Class (String.eqb "."))
      (Plus (Class notSpaceNorAt))))).

Inductive ExtractErrorCode : Set :=
| INVALID_EMAIL
| MISSING_DELIMITER
| EMPTY_PASSWORD.

Module ExtractError.
Record t : Type := {
  line : nat;
  code : ExtractErrorCode;
  message : string
}.
End ExtractError.

Module ExtractReport.
Record t : Type := {
  generated_at : string;
  total_lines : nat;
  valid_accounts : nat;
  invalid_lines : nat;
  duplicate_emails : Z;
  errors : list ExtractError.t
}.
End ExtractReport.

(** A [Map<string, V>]: insertion ordered; [set] on a key that is present
    replaces the value where it stands. *)
Fixpoint set {V : Type} (k : string) (v : V) (m : list (string * V))
  : list (string * V) :=
  match m with
  | [] => [(k, v)]
  | (k', v') :: m' =>
      if String.eqb k' k then (k, v) :: m' else (k', v') :: set k v m'
  end.

Section WithRuntime.
Context {R : Runtime}.

(** [loadAccountJson(inputPath, defaultPlan)]. The body of the [for] loop
    gives the account a row is pushed as, or nothing where it says
    [continue]. Reading a property of an array gives [undefined] here, as
    the names read are no indices. *)
Definition rowAccount (defaultPlan : string) (row : json)
  : option AccountCredential.t :=
  match row with
  | JObj _ | JArr _ =>
      let email := match field row "email" with
                   | Some (JStr s) => trim s
                   | _ => EmptyString
                   end in
      let password := match field row "password" with
                      | Some (JStr s) => s
                      | _ => EmptyString
                      end in
      let plan := match field row "plan" with
                  | Some (JStr s) =>
                      if negb (isEmpty (trim s)) then trim s else defaultPlan
                  | _ => defaultPlan
                  end in
      if isEmpty email || negb (test EMAIL_RE email) || isEmpty password
      then None
      else Some {| AccountCredential.email := email;
                   AccountCredential.password := password;
                   AccountCredential.plan := Some plan |}
  | _ => None
  end.

Fixpoint pushRows (defaultPlan : string) (rows : list json)
  : list AccountCredential.t :=
  match rows with
  | [] => []
  | row :: rows' =>
      match rowAccount defaultPlan row with
      | Some a => a :: pushRows defaultPlan rows'
      | None => pushRows defaultPlan rows'
      end
  end.

Definition loadAccountJson (fs : FileSystem) (inputPath defaultPlan : string)
  : outcome (list AccountCredential.t) :=
  parsed <- readJSON fs inputPath ;;
  match parsed with
  | JArr rows =>
      match pushRows defaultPlan rows with
      | [] => Throw "No valid accounts found in input JSON"
      | accounts => Ok accounts
      end
  | _ => Throw "Account input must be a JSON array"
  end.

(** The variables the callback of [lines.forEach] closes over. *)
Record Extraction : Type := {
  errors : list ExtractError.t;
  byEmail : list (string * AccountCredential.t);
  invalid : nat
}.

(** [invalid++; errors.push({...}); return] *)
Definition reject (st : Extraction) (idx : nat) (code : ExtractErrorCode)
    (message : string) : Extraction :=
  {| errors := (errors st ++ [ {| ExtractError.line := idx + 1;
                                  ExtractError.code := code;
                                  ExtractError.message := message |} ])%list;
     byEmail := byEmail st;
     invalid := invalid st + 1 |}.

(** The callback [(line, idx) => { ... }]. *)
Definition visit (defaultPlan : string) (st : Extraction) (line : string)
    (idx : nat) : Extraction :=
  let text := trim line in
  if isEmpty text then st
  else
    let split := splitDashes text in
    if Nat.ltb (length split) 2
    then reject st idx MISSING_DELIMITER "Line must contain delimiter ----"
    else
      let email := trim (hd EmptyString split) in
      let password := joinWith "----" (tl split) in
      if negb (test EMAIL_RE email)
      then reject st idx INVALID_EMAIL "Invalid email format"
      else if isEmpty password
      then reject st idx EMPTY_PASSWORD "Password cannot be empty"
      else
        {| errors := errors st;
           byEmail :=
             set (toLowerCase email)
               {| AccountCredential.email := email;
                  AccountCredential.password := password;
                  AccountCredential.plan := Some defaultPlan |}
               (byEmail st);
           invalid := invalid st |}.

(** [lines.forEach(callback)], from index [idx] on. *)
Fixpoint forEachLine (defaultPlan : string) (lines : list string) (idx : nat)
    (st : Extraction) : Extraction :=
  match lines with
  | [] => st
  | line :: lines' =>
      forEachLine defaultPlan lines' (S idx) (visit defaultPlan st line idx)
  end.

(** [parseMarkdownAccounts(inputPath, defaultPlan)]; [readText] is
    [fs.readFileSync(_, "utf-8")] and [stamp] is
    [new Date().toISOString()]. *)
Definition parseMarkdownAccounts (stamp : string)
    (readText : string -> outcome string) (inputPath defaultPlan : string)
  : outcome (list AccountCredential.t * ExtractReport.t) :=
  text <- readText inputPath ;;
  let lines := splitLines text in
  let st := forEachLine defaultPlan lines 0
              {| errors := []; byEmail := []; invalid := 0 |} in
  let accounts := map snd (byEmail st) in
  let nonblank :=
    length (filter (fun l => negb (isEmpty (trim l))) lines) in
  Ok (accounts,
      {| ExtractReport.generated_at := stamp;
         ExtractReport.total_lines := length lines;
         ExtractReport.valid_accounts := length accounts;
         ExtractReport.invalid_lines := invalid st;
         ExtractReport.duplicate_emails :=
           Z.max 0 (Z.of_nat nonblank - Z.of_nat (invalid st)
                    - Z.of_nat (length accounts));
         ExtractReport.errors := errors st |}).

(** What [JSON.parse] returns for the text [writeJsonFile] writes for a
    list of accounts; a [plan] that is [undefined] is left out. *)
Definition accountJSON (a : AccountCredential.t) : json :=
  JObj (("email", JStr (AccountCredential.email a)) ::
        ("password", JStr (AccountCredential.password a)) ::
        match AccountCredential.plan a with
        | Some p => [("plan", JStr p)]
        | None => []
        end).

Definition accountsJSON (accounts : list AccountCredential.t) : json :=
  JArr (map accountJSON accounts).

(** The characters [makeTokenOutputPath] replaces by an underscore: the
    class of its pattern holds the backslash, the slash, the colon, the
    star, the question mark, the double quote, the angle brackets and the
    bar. *)
Definition reserved : list ascii :=
  [ascii_of_nat 92; "/"%char; ":"%char; "*"%char; "?"%char; ascii_of_nat 34;
   "<"%char; ">"%char; "|"%char].

Definition isReserved (c : ascii) : bool := existsb (Ascii.eqb c) reserved.

Fixpoint safeEmail (email : string) : string :=
  match email with
  | EmptyString => EmptyString
  | String c s =>
      String (if isReserved c then "_"%char else c) (safeEmail s)
  end.

(** The template string of [makeTokenOutputPath]. *)
Definition tokenFileName (account : AccountCredential.t) : string :=
  "codex-" ++ safeEmail (AccountCredential.email account) ++ "-"
  ++ Main.orDefault (AccountCredential.plan account) "free" ++ ".json".

Definition makeTokenOutputPath (outDir : string)
    (account : AccountCredential.t) : string :=
  join outDir (tokenFileName account).

End WithRuntime.

End Io.

(* ===================================================================== *)
(** ** config.ts: the command line *)
(* ===================================================================== *)

Module Config.
Import Text.

(** [options] is a plain object and [flags] a [Set]. The option names the
    commands read (input, out, report, plan, dry-run, headful, timeout-ms,
    delay-ms, browser-channel, browser-path, management-key, cpamc-port,
    cpamc-base-url, out-dir, flow-config, dir) are no properties of
    [Object.prototype], so reading one of them finds an own property or
    [undefined]; [inherited] lists the names for which this is not so. *)
Record ParsedArgs : Type := {
  command : string;
  options : list (string * string);
  flags : list string
}.

Definition inherited : list string :=
  ["__proto__"; "constructor"; "hasOwnProperty"; "isPrototypeOf";
   "propertyIsEnumerable"; "toLocaleString"; "toString"; "valueOf";
   "__defineGetter__"; "__defineSetter__"; "__lookupGetter__";
   "__lookupSetter__"].

(** [options[key] = next]: assigning a string to [__proto__] leaves the
    object as it is. *)
Definition assign (key value : string) (opts : list (string * string))
  : list (string * string) :=
  if String.eqb key "__proto__" then opts else Io.set key value opts.

(** [flags.add(key)] *)
Definition add (key : string) (fl : list string) : list string :=
  if existsb (String.eqb key) fl then fl else (fl ++ [key])%list.

(** The [for] loop of [parseArgs] over the tokens from [argv[i]] on. *)
Fixpoint scan (tokens : list string) (opts : list (string * string))
    (fl : list string) : list (string * string) * list string :=
  match tokens with
  | [] => (opts, fl)
  | token :: rest =>
      if negb (startsWith token "--") then scan rest opts fl
      else
        let key := sliceFrom 2 token in
        match rest with
        | [] => scan rest opts (add key fl)
        | next :: rest' =>
            if isEmpty next || startsWith next "--"
            then scan rest opts (add key fl)
            else scan rest' (assign key next opts) fl
        end
  end.

Definition parseArgs (argv : list string) : ParsedArgs :=
  let (opts, fl) := scan (tl argv) [] [] in
  {| command := hd EmptyString argv; options := opts; flags := fl |}.

(** [parsed.options[key]], [None] standing for [undefined]. *)
Definition getOption (parsed : ParsedArgs) (key : string) : option string :=
  assoc key (options parsed).

Definition requireOption (parsed : ParsedArgs) (key : string) : outcome string :=
  match getOption parsed key with
  | Some value =>
      if isEmpty value then Throw ("Missing required option --" ++ key)
      else Ok value
  | None => Throw ("Missing required option --" ++ key)
  end.

Section WithRuntime.
Context {R : Runtime}.

Definition getBoolOption (parsed : ParsedArgs) (key : string)
    (defaultValue : bool) : bool :=
  if existsb (String.eqb key) (flags parsed) then true
  else
    match getOption parsed key with
    | None => defaultValue
    | Some value =>
        let normalized := toLowerCase value in
        String.eqb normalized "true" || String.eqb normalized "1"
        || String.eqb normalized "yes"
    end.

End WithRuntime.

End Config.

(* ===================================================================== *)
(** ** cpamc: the console status *)
(* ===================================================================== *)

Module CpamcStatus.
Import Text.

(** What [page.evaluate] resolves to in a pass of [pollCpamcAuthStatus]
    with a state: the text of the response and, where [JSON.parse] accepts
    it, its value (the HTTP status is not read). *)
Record Response : Type := {
  text : string;
  json_of_text : option json
}.

(** [result.parsed]: the value, or the raw text where parsing failed. *)
Definition parsed (r : Response) : json :=
  match json_of_text r with
  | Some j => j
  | None => JStr (text r)
  end.

(** The console while [pollCpamcAuthStatus] runs: in the [k]-th pass of the
    loop [response k state] is what the status request resolves to,
    [bodyText k] is [document.body.innerText] and [pause k] is what
    [page.waitForTimeout(1000)] does, the time the pass takes beyond its
    1000 ms (milliseconds; a timer never fires early) or an exception. *)
Record Console : Type := {
  response : nat -> string -> outcome Response;
  bodyText : nat -> outcome string;
  pause : nat -> outcome N
}.

Record StatusPayload : Type := {
  statusRaw : string;
  payloadMessage : string;
  payloadRaw : string
}.

Definition timedOut : Cpamc.CpamcAuthStatus.t :=
  {| Cpamc.CpamcAuthStatus.status := Cpamc.waiting;
     Cpamc.CpamcAuthStatus.raw := None;
     Cpamc.CpamcAuthStatus.message := Some "Timed out waiting auth status" |}.

(** [pickTextValue(...values)], [None] standing for [undefined]. *)
Fixpoint pickTextValue (values : list (option json)) : string :=
  match values with
  | [] => EmptyString
  | Some (JStr s) :: rest =>
      if negb (isEmpty (trim s)) then trim s else pickTextValue rest
  | _ :: rest => pickTextValue rest
  end.

(** The evaluation in the page when there is no state. *)
Definition fromPage (innerText : string) : option Cpamc.CpamcAuthStatus.t :=
  if existsb (fun lit => test_ci lit innerText)
       ["认证成功"; "Authentication successful"; "OAuth success"; "认证完成"]
  then Some {| Cpamc.CpamcAuthStatus.status := Cpamc.success;
               Cpamc.CpamcAuthStatus.raw := None;
               Cpamc.CpamcAuthStatus.message := Some (sliceTo 600 innerText) |}
  else if existsb (fun lit => test_ci lit innerText)
            ["认证失败"; "Authentication failed"; "OAuth failed"]
  then Some {| Cpamc.CpamcAuthStatus.status := Cpamc.error;
               Cpamc.CpamcAuthStatus.raw := None;
               Cpamc.CpamcAuthStatus.message := Some (sliceTo 600 innerText) |}
  else None.

Section WithRuntime.
Context {R : Runtime}.

(** [JSON.stringify] *)
Variable JSON_stringify : json -> string.

(** [normalizeStatus(statusRaw)]: the two patterns are alternatives of
    literals without anchors. *)
Definition normalizeStatus (raw : string) : Cpamc.ConsoleStatus :=
  let s := toLowerCase raw in
  if existsb (includes s)
       ["success"; "ok"; "done"; "completed"; "认证成功"; "已成功"]
  then Cpamc.success
  else if existsb (includes s)
            ["error"; "fail"; "failed"; "denied"; "invalid"; "认证失败"]
  then Cpamc.error
  else Cpamc.waiting.

(** [parseStatusPayload(payload)]. A payload that is falsy or no object is
    [null], a boolean, a number or a string. *)
Definition parseStatusPayload (payload : json) : StatusPayload :=
  match payload with
  | JObj _ | JArr _ =>
      let obj := payload in
      let data := match field obj "data" with
                  | Some (JObj fs) => Some (JObj fs)
                  | Some (JArr items) => Some (JArr items)
                  | _ => None
                  end in
      let ofData k := match data with
                      | Some d => field d k
                      | None => None
                      end in
      let status :=
        pickTextValue [field obj "status"; field obj "state"; ofData "status";
                       ofData "state"; field obj "result"; ofData "result"] in
      let message :=
        pickTextValue [field obj "message"; field obj "msg"; field obj "error";
                       ofData "message"; ofData "msg"; ofData "error";
                       Some (JStr status)] in
      let raw := JSON_stringify obj in
      {| statusRaw := orElse status raw;
         payloadMessage := message;
         payloadRaw := raw |}
  | JStr s => {| statusRaw := s; payloadMessage := s; payloadRaw := s |}
  | _ =>
      let raw := JSON_stringify payload in
      {| statusRaw := raw; payloadMessage := raw; payloadRaw := raw |}
  end.

(** What a pass with a state makes of the response: a status to return,
    or nothing. *)
Definition fromResponse (r : Response) : option Cpamc.CpamcAuthStatus.t :=
  let p := parseStatusPayload (parsed r) in
  match normalizeStatus (statusRaw p) with
  | Cpamc.waiting =>
      match normalizeStatus (text r) with
      | Cpamc.waiting => None
      | normalizedFromRaw =>
          Some {| Cpamc.CpamcAuthStatus.status := normalizedFromRaw;
                  Cpamc.CpamcAuthStatus.raw := Some (text r);
                  Cpamc.CpamcAuthStatus.message := Some (text r) |}
      end
  | normalizedFromPayload =>
      Some {| Cpamc.CpamcAuthStatus.status := normalizedFromPayload;
              Cpamc.CpamcAuthStatus.raw := Some (orElse (payloadRaw p) (text r));
              Cpamc.CpamcAuthStatus.message :=
                Some (orElse (payloadMessage p) (statusRaw p)) |}
  end.

(** The body of the loop up to its pause; [state] is [None] for
    [undefined]. *)
Definition onePass (c : Console) (state : option string) (k : nat)
  : outcome (option Cpamc.CpamcAuthStatus.t) :=
  match state with
  | Some (String a st) =>
      r <- response c k (String a st) ;;
      Ok (fromResponse r)
  | _ =>
      innerText <- bodyText c k ;;
      Ok (fromPage innerText)
  end.

(** The [while (Date.now() - started < timeoutMs)] loop, entered for the
    [k]-th time after [elapsed] milliseconds. *)
Equations? statusLoop (c : Console) (state : option string) (timeoutMs : Z)
    (k : nat) (elapsed : Z)
  : outcome Cpamc.CpamcAuthStatus.t by wf (Z.to_nat (timeoutMs - elapsed)) lt :=
  statusLoop c state timeoutMs k elapsed with Z_lt_dec elapsed timeoutMs => {
    | right _ => Ok timedOut
    | left _ with onePass c state k => {
        | Throw msg => Throw msg
        | Ok (Some status) => Ok status
        | Ok None with pause c k => {
            | Throw msg => Throw msg
            | Ok late =>
                statusLoop c state timeoutMs (S k)
                           (elapsed + 1000 + Z.of_N late) } } }.
Proof. lia. Qed.

Definition pollCpamcAuthStatus (c : Console) (state : option string)
    (timeoutMs : Z) : outcome Cpamc.CpamcAuthStatus.t :=
  statusLoop c state timeoutMs 0 0.

End WithRuntime.

End CpamcStatus.

(* ===================================================================== *)
(** ** cpamc: the authorization URL asked from the console *)
(* ===================================================================== *)

(** The function [startCodexOauthAndGetUrl] evaluates in the page when the
    card shows no fresh URL: it reads the response of the console (as
    [pollCpamcAuthStatus] does: the text, and its value where it parses)
    and returns the URL found in it, or the empty string. *)
Module OauthUrl.

Definition candidates : list string :=
  ["url"; "auth_url"; "authorize_url"; "authorization_url"].

(** [for (const key2 of candidates) { ... return value; }] over the keys
    that are left; [None] when the loop ends without [return]. *)
Fixpoint firstHttp (obj : json) (keys : list string) : option string :=
  match keys with
  | [] => None
  | key2 :: rest =>
      match field obj key2 with
      | Some (JStr value) =>
          if startsWith value "http" then Some value else firstHttp obj rest
      | _ => firstHttp obj rest
      end
  end.

Definition fallbackUrl (r : CpamcStatus.Response) : string :=
  match CpamcStatus.parsed r with
  | JStr data => if startsWith data "http" then data else EmptyString
  | (JObj _ | JArr _) as obj =>
      match firstHttp obj candidates with
      | Some value => value
      | None =>
          match field obj "data" with
          | Some ((JObj _ | JArr _) as nested) =>
              match firstHttp nested candidates with
              | Some value => value
              | None => EmptyString
              end
          | _ => EmptyString
          end
      end
  | _ => EmptyString
  end.

End OauthUrl.

(* ===================================================================== *)
(** ** login-flow.ts: the page the flow goes on with *)
(* ===================================================================== *)

Module ActivePage.
Import Text.

(** A page of the browser context, as [pickActiveAuthPage] reads it. *)
Record Page : Type := {
  id : nat;
  isClosed : bool;
  url : string
}.

(** [/auth\.openai\.com|chatgpt\.com|localhost:\d+\/auth\/callback/i] *)
Definition authUrlPattern : regex :=
  Alt (literal_ci "auth.openai.com")
   (Alt (literal_ci "chatgpt.com")
     (Seq (literal_ci "localhost:")
       (Seq (Plus digit) (literal_ci "/auth/callback")))).

(** The [for] loop from the last page down: the last page whose URL fits. *)
Definition lastAuthPage (pages : list Page) : option Page :=
  find (fun p => search authUrlPattern (url p)) (rev pages).

(** [pickActiveAuthPage(seedPage)]; [contextPages] is
    [seedPage.context().pages()]. *)
Definition pickActiveAuthPage (contextPages : list Page) (seedPage : Page)
  : Page :=
  let pages := filter (fun p => negb (isClosed p)) contextPages in
  match lastAuthPage pages with
  | Some p => p
  | None => last pages seedPage
  end.

End ActivePage.

(* ===================================================================== *)
(** ** rotate.ts: the index on disk *)
(* ===================================================================== *)

(** [writeRotationIndex] down to its last line. [writeFileSync path value]
    is what [fs.writeFileSync(path, text, "utf-8")] does with the text
    [JSON.stringify] gives for [value]: it returns, or it throws (ENOENT
    when the directory of [path] is missing, EISDIR when [path] is a
    directory, EACCES when it may not be written). *)
Module RotateDisk.
Section WithRuntime.
Context {R : Runtime}.

Variable writeFileSync : string -> json -> outcome unit.

Definition writeRotationIndex (stamp : string) (fs : FileSystem)
    (outPath : string) (index : Rotate.RotateIndex) : outcome unit :=
  finalIndex <- Rotate.writeRotationIndex stamp fs outPath index ;;
  writeFileSync outPath (Rotate.toJSON finalIndex).

End WithRuntime.
End RotateDisk.

(* ===================================================================== *)
(** ** A runtime to run the model on concrete inputs *)
(* ===================================================================== *)

(** ASCII case mapping, POSIX paths, a table of [Date.parse] values and a
    query-string reader; enough for the examples below, which use ASCII
    text, relative POSIX paths and these dates. *)
Module Sample.

Fixpoint afterLastSlash (s acc : string) : string :=
  match s with
  | EmptyString => acc
  | String c s' =>
      if Ascii.eqb c "/"%char then afterLastSlash s' EmptyString
      else afterLastSlash s' (acc ++ String c EmptyString)
  end.

Definition posix_basename (p : string) : string := afterLastSlash p EmptyString.

Definition posix_join (dir file : string) : string := dir ++ "/" ++ file.

Definition date_table : list (string * Z) :=
  [("1970-01-01T00:00:00.000Z", 0%Z);
   ("2000-01-01T00:00:00.000Z", 946684800000%Z);
   ("2030-01-01T00:00:00.000Z", 1893456000000%Z)].

Definition date_parse (s : string) : option Z := assoc s date_table.

(** The text that follows the first [name=], up to the next [&]; no
    percent decoding. *)
Fixpoint upTo (stop : ascii) (s : string) : string :=
  match s with
  | EmptyString => EmptyString
  | String c s' => if Ascii.eqb c stop then EmptyString else String c (upTo stop s')
  end.

Fixpoint paramIn (key query : string) : option string :=
  if String.prefix key query
  then Some (upTo "&"%char (substring (String.length key)
                              (String.length query - String.length key) query))
  else
    match query with
    | EmptyString => None
    | String _ q' => paramIn key q'
    end.

Definition searchParam (url param : string) : outcome (option string) :=
  if String.prefix "http" url
  then Ok (paramIn (param ++ "=") url)
  else Throw "Invalid URL".

#[export] Instance runtime : Runtime := {|
  toLowerCase := ascii_toLowerCase;
  basename := posix_basename;
  join := posix_join;
  Date_parse := date_parse;
  Date_parse_empty := eq_refl;
  URL_searchParam := searchParam
|}.

End Sample.

(* ===================================================================== *)
(** ** The claims in the words of the specification *)
(* ===================================================================== *)

Module Spec.
Section WithRuntime.
Context {R : Runtime}.

(** *** Rotation indexer *)

(** The parsed content has [disabled === true]. *)
Definition disabledIsTrue (j : json) : bool :=
  match field j "disabled" with
  | Some (JBool true) => true
  | _ => false
  end.

(** The [expired] field is a string that parses to a time before [now]. *)
Definition expiredInPast (now : Z) (j : json) : bool :=
  match field j "expired" with
  | Some (JStr s) =>
      match Date_parse s with
      | Some t => (t <? now)%Z
      | None => false
      end
  | _ => false
  end.

(** The status the specification gives an artifact: invalid when it cannot be
    read or parsed, disabled when the flag is true whatever [expired] says,
    expired on a past timestamp, active in all other cases. *)
Definition classification (now : Z) (c : file_content) : string :=
  match c with
  | Unreadable | Malformed => "invalid"
  | Parsed j =>
      if disabledIsTrue j then "disabled"
      else if expiredInPast now j then "expired"
      else "active"
  end.

(** The same, with a file holding the JSON value [null] counted among the
    invalid ones. *)
Definition classificationNullInvalid (now : Z) (c : file_content) : string :=
  match c with
  | Parsed JNull => "invalid"
  | _ => classification now c
  end.

(** An entry whose status is one of the four values of the type. *)
Definition knownStatus (x : json) : bool :=
  Rotate.hasStatus "active" x || Rotate.hasStatus "expired" x ||
  Rotate.hasStatus "disabled" x || Rotate.hasStatus "invalid" x.

(** The identity key of an entry: its email in lower case, a bar, the base
    name of its file in lower case. A value without a string email or a
    string file has none. *)
Definition key (e : json) : option string :=
  match field e "email", field e "file" with
  | Some (JStr email), Some (JStr file) =>
      Some (toLowerCase email ++ "|" ++ toLowerCase (basename file))
  | _, _ => None
  end.

(** [k] is the key of some entry of [l]. *)
Definition keyIn (k : string) (l : list json) : Prop :=
  exists e, In e l /\ key e = Some k.

(** [e] is the last entry of [l] with the key [k]. *)
Definition lastKeyed (k : string) (l : list json) (e : json) : Prop :=
  exists pre post,
    l = (pre ++ e :: post)%list /\ key e = Some k /\ ~ keyIn k post.

(** [e] has the identity key [k], as the code computes it. *)
Definition hasKey (k : string) (e : json) : bool :=
  match Rotate.accountKey e with
  | Ok k' => String.eqb k' k
  | Throw _ => false
  end.

(** The last entry of [l] with key [k]: the one a merge in list order
    leaves under that key. *)
Definition lastWithKey (k : string) (l : list json) : option json :=
  find (hasKey k) (rev l).

(** Some entry of [l] has key [k]. *)
Definition hasKeyIn (k : string) (l : list json) : Prop :=
  exists e, In e l /\ Rotate.accountKey e = Ok k.

(** The number of entries of [l] whose status is [s]. *)
Fixpoint numberWithStatus (s : string) (l : list json) : nat :=
  match l with
  | [] => 0
  | a :: l' =>
      match field a "status" with
      | Some (JStr t) => if String.eqb t s then 1 else 0
      | _ => 0
      end + numberWithStatus s l'
  end.

(** The invariant of a [RotateIndex], counts and total. *)
Definition countsAgree (index : Rotate.RotateIndex) : Prop :=
  Rotate.total index = length (Rotate.accounts index) /\
  Rotate.active index = numberWithStatus "active" (Rotate.accounts index) /\
  Rotate.expired index = numberWithStatus "expired" (Rotate.accounts index) /\
  Rotate.disabled index = numberWithStatus "disabled" (Rotate.accounts index) /\
  Rotate.invalid index = numberWithStatus "invalid" (Rotate.accounts index).

(** The sum of the four counters. *)
Definition countsSum (index : Rotate.RotateIndex) : nat :=
  Rotate.active index + Rotate.expired index
  + Rotate.disabled index + Rotate.invalid index.

(** The key of a well-formed entry. *)
Definition keyOf (e : json) : string :=
  match Rotate.accountKey e with
  | Ok k => k
  | Throw _ => EmptyString
  end.

(** *** Notions used in the proofs about the merge *)

(** The two [for] loops over [merged.set], for entries whose key can be
    computed. *)
Definition setAllPure (l : list json) (m : Rotate.JsMap) : Rotate.JsMap :=
  fold_left (fun m e => Rotate.map_set (keyOf e) e m) l m.

(** The invariant of [merged]: every value sits under its own key. *)
Definition keyed (m : Rotate.JsMap) : Prop :=
  forall k v, In (k, v) m -> Rotate.accountKey v = Ok k.

(** The merged map of [writeRotationIndex]. *)
Definition mergedMap (A B : list json) : Rotate.JsMap :=
  setAllPure B (setAllPure A []).

(** *** Challenge detection and the orchestrator *)

(** [text] holds the literal [lit], given in lower case, the letters A to Z
    of the text counting as a to z. *)
Definition holds (lit text : string) : Prop :=
  exists pre m post,
    text = pre ++ m ++ post /\ ascii_toLowerCase m = lit.

(** The consent pattern: one of two literals, whatever the case of the
    letters. *)
Definition matchesConsent (text : string) : Prop :=
  holds "登录到 codex" text \/ holds "to codex" text.

(** A known consent surface is showing: some frame's body text matches the
    consent pattern. *)
Definition consentShowing (page : LoginFlow.Page) : Prop :=
  exists frame text,
    In frame (LoginFlow.frames page) /\
    LoginFlow.body_innerText frame = Ok text /\
    matchesConsent text.

(** The same, looking at the first 12000 code units of each body text. *)
Definition consentAtTop (page : LoginFlow.Page) : Prop :=
  exists frame text,
    In frame (LoginFlow.frames page) /\
    LoginFlow.body_innerText frame = Ok text /\
    matchesConsent (sliceTo 12000 text).

(** No body text of the page is longer than 12000 code units. *)
Definition shortBodies (page : LoginFlow.Page) : Prop :=
  forall frame text,
    In frame (LoginFlow.frames page) ->
    LoginFlow.body_innerText frame = Ok text ->
    units text <= 12000.

(** The first element matching [selector] exists and is visible. *)
Definition selectorVisible (page : LoginFlow.Page) (selector : string) : Prop :=
  exists n,
    LoginFlow.locator_count page selector = Ok n /\ 0 < n /\
    LoginFlow.locator_isVisible page selector = Ok true.

(** The page content contains, case folded, a configured text pattern that
    is not one of the two overly broad keywords. *)
Definition challengeTextFound (cfg : LoginFlow.FlowConfig) (page : LoginFlow.Page)
  : Prop :=
  exists html t pre post,
    LoginFlow.content page = Ok html /\
    In t (LoginFlow.challengeTextPatterns cfg) /\
    toLowerCase t <> "verification" /\
    toLowerCase t <> "验证" /\
    toLowerCase html = pre ++ toLowerCase t ++ post.

(** What the claim on result lists asks of the result recorded for an
    account. *)
Definition resultFor (opts : Main.RunOptions) (a : Main.AccountCredential.t)
    (r : Main.AuthResult.t) : Prop :=
  Main.AuthResult.email r = Main.AccountCredential.email a /\
  Main.AuthResult.plan r
  = Main.orDefault (Main.AccountCredential.plan a) (Main.defaultPlan opts) /\
  (Main.AuthResult.status r = Main.success \/
   Main.AuthResult.status r = Main.failed \/
   Main.AuthResult.status r = Main.skipped).

(** The iteration gets as far as the reconciliation: the console steps
    succeed, the authorization URL carries a state, the Flow Driver reports
    [flowResult], the challenge flag is [challenge] and the console status
    polled is [status]. *)
Definition reachesReconciliation (opts : Main.RunOptions) (w : Main.AccountWorld)
    (flowResult : Main.FlowResult.t) (challenge : bool)
    (status : Cpamc.CpamcAuthStatus.t) : Prop :=
  Main.newControlPage w = Ok tt /\
  Main.ensureCpamcLogin w = Ok tt /\
  Main.gotoOauthPage w = Ok tt /\
  exists authUrl state,
    Main.startCodexOauthAndGetUrl w = Ok authUrl /\
    Cpamc.getStateFromAuthUrl authUrl = Some state /\
    state <> EmptyString /\
    Main.newAuthPage w = Ok tt /\
    Main.runLoginFlow w authUrl = Ok flowResult /\
    Main.challengeAfterFlow opts w flowResult = Ok challenge /\
    Main.pollCpamcAuthStatus w state
      (if Main.FlowResult.invalidCredentials flowResult || challenge
       then Z.min (Main.timeoutMs opts) 30000
       else Main.timeoutMs opts) = Ok status.




End WithRuntime.
End Spec.

(* ===================================================================== *)
(** ** Concrete inputs *)
(* ===================================================================== *)

Module Examples.
Import Sample.

Definition file (n : string) : Dirent := {| name := n; isFile := true |}.

(** *** Rotation indexer *)

(** An artifact that has expired in 2000 and one without an expiry. *)
Definition token_old : json :=
  JObj [("email", JStr "b@x.com");
        ("expired", JStr "2000-01-01T00:00:00.000Z");
        ("disabled", JBool false)].

Definition token_fresh : json :=
  JObj [("email", JStr "A@x.com"); ("disabled", JBool false)].

(** The entry of an artifact that is gone, one with an unknown status and
    two values that are no entries. *)
Definition stale_entry : json :=
  Rotate.mkEntry "gone@x.com" "auth/codex-gone.json" None "active".

Definition odd_entry : json :=
  JObj [("email", JStr "c@x.com"); ("file", JStr "auth/codex-c.json");
        ("status", JStr "revoked")].

Definition prior_index : json :=
  JObj [("generated_at", JStr "2024-01-01T00:00:00.000Z");
        ("accounts",
         JArr [stale_entry;
               Rotate.mkEntry "a@x.com" "auth/codex-a.json" None "invalid";
               JStr "codex-lost.json";
               JObj [("email", JStr "d@x.com")]])].

Definition fs_auth (prior : option json) : FileSystem := {|
  readdirSync := fun dir =>
    if String.eqb dir "auth"
    then Ok [file "codex-a.json"; file "codex-b.json";
             file "accounts-index.json"; file "notes.txt"]
    else Throw "ENOENT: no such file or directory, scandir";
  existsSync := fun p =>
    match prior with
    | Some _ => String.eqb p "auth/accounts-index.json"
    | None => false
    end;
  readFileSync := fun p =>
    if String.eqb p "auth/codex-a.json" then Parsed token_fresh
    else if String.eqb p "auth/codex-b.json" then Parsed token_old
    else if String.eqb p "auth/accounts-index.json" then
      match prior with
      | Some j => Parsed j
      | None => Unreadable
      end
    else Unreadable
|}.

Definition scan_2024 : Rotate.RotateIndex :=
  Rotate.mkIndex "2024-06-01T00:00:00.000Z"
    [Rotate.mkEntry "A@x.com" "auth/codex-a.json" None "active";
     Rotate.mkEntry "b@x.com" "auth/codex-b.json"
       (Some "2000-01-01T00:00:00.000Z") "expired"].

Definition clock_2024 (_ : string) : Z := 1717200000000.
Definition clock_2024_next_day (_ : string) : Z := 1717286400000.

(** A directory with one artifact whose content is the JSON value null. *)
Definition fs_null : FileSystem := {|
  readdirSync := fun _ => Ok [file "codex-a.json"];
  existsSync := fun _ => false;
  readFileSync := fun p =>
    if String.eqb p "auth/codex-a.json" then Parsed JNull else Unreadable
|}.

(** Two artifacts of the same account under different file names. *)
Definition fs_twins : FileSystem := {|
  readdirSync := fun _ => Ok [file "codex-b-free.json"; file "codex-b-plus.json"];
  existsSync := fun _ => false;
  readFileSync := fun p =>
    if String.eqb p "auth/codex-b-free.json" then Parsed token_old
    else if String.eqb p "auth/codex-b-plus.json"
    then Parsed (JObj [("email", JStr "b@x.com"); ("disabled", JBool true)])
    else Unreadable
|}.

(** An empty directory and a previous index with an entry of unknown
    status. *)
Definition fs_odd : FileSystem := {|
  readdirSync := fun _ => Ok [];
  existsSync := fun p => String.eqb p "auth/accounts-index.json";
  readFileSync := fun p =>
    if String.eqb p "auth/accounts-index.json"
    then Parsed (JObj [("accounts", JArr [odd_entry])])
    else Unreadable
|}.

(** One artifact expiring on 2000-01-01T00:00:00.000Z, indexed at that very
    millisecond and one millisecond later. *)
Definition token_expiring : json :=
  JObj [("email", JStr "e@x.com");
        ("expired", JStr "2000-01-01T00:00:00.000Z")].

Definition fs_expiring (prior : option json) : FileSystem := {|
  readdirSync := fun _ => Ok [file "codex-e.json"];
  existsSync := fun p =>
    match prior with
    | Some _ => String.eqb p "auth/accounts-index.json"
    | None => false
    end;
  readFileSync := fun p =>
    if String.eqb p "auth/codex-e.json" then Parsed token_expiring
    else if String.eqb p "auth/accounts-index.json" then
      match prior with
      | Some j => Parsed j
      | None => Unreadable
      end
    else Unreadable
|}.

Definition first_index : Rotate.RotateIndex :=
  Rotate.mkIndex "t1"
    [Rotate.mkEntry "e@x.com" "auth/codex-e.json"
       (Some "2000-01-01T00:00:00.000Z") "active"].

Definition second_index : Rotate.RotateIndex :=
  Rotate.mkIndex "t2"
    [Rotate.mkEntry "e@x.com" "auth/codex-e.json"
       (Some "2000-01-01T00:00:00.000Z") "expired"].

(** The index the scan of 2024 leaves when merged into [prior_index]. *)
Definition merged_2024 : Rotate.RotateIndex :=
  Rotate.mkIndex "2024-06-01T00:00:01.000Z"
    [stale_entry;
     Rotate.mkEntry "A@x.com" "auth/codex-a.json" None "active";
     Rotate.mkEntry "b@x.com" "auth/codex-b.json"
       (Some "2000-01-01T00:00:00.000Z") "expired"].

Definition odd_index : Rotate.RotateIndex :=
  Rotate.mkIndex "2024-06-01T00:00:01.000Z" [odd_entry].

(** A previous index that names the artifact of one account twice, under
    two directories and two spellings of the email; the directory scanned
    is empty. *)
Definition twice_first : json :=
  Rotate.mkEntry "a@x.com" "auth/codex-a.json" None "active".

Definition twice_second : json :=
  Rotate.mkEntry "A@X.com" "backup/codex-a.json" None "expired".

Definition fs_twice : FileSystem := {|
  readdirSync := fun _ => Ok [];
  existsSync := fun p => String.eqb p "auth/accounts-index.json";
  readFileSync := fun p =>
    if String.eqb p "auth/accounts-index.json"
    then Parsed (JObj [("accounts", JArr [twice_first; twice_second])])
    else Unreadable
|}.

(** The directory before the indexer has run, and after it has written
    [written] to its default output path, inside the directory scanned: the
    index then shows in the listing. *)
Definition fs_no_index : FileSystem := {|
  readdirSync := fun dir =>
    if String.eqb dir "auth"
    then Ok [file "codex-a.json"; file "codex-b.json"]
    else Throw "ENOENT: no such file or directory, scandir";
  existsSync := fun _ => false;
  readFileSync := fun p =>
    if String.eqb p "auth/codex-a.json" then Parsed token_fresh
    else if String.eqb p "auth/codex-b.json" then Parsed token_old
    else Unreadable
|}.

Definition fs_with_index (written : json) : FileSystem := {|
  readdirSync := fun dir =>
    if String.eqb dir "auth"
    then Ok [file "accounts-index.json"; file "codex-a.json";
             file "codex-b.json"]
    else Throw "ENOENT: no such file or directory, scandir";
  existsSync := fun p => String.eqb p "auth/accounts-index.json";
  readFileSync := fun p =>
    if String.eqb p "auth/codex-a.json" then Parsed token_fresh
    else if String.eqb p "auth/codex-b.json" then Parsed token_old
    else if String.eqb p "auth/accounts-index.json" then Parsed written
    else Unreadable
|}.

Definition index_of_first_run : Rotate.RotateIndex :=
  Rotate.mkIndex "2024-06-01T00:00:01.000Z" (Rotate.accounts scan_2024).

(** *** Batch orchestrator *)

Definition options : Main.RunOptions := {|
  Main.timeoutMs := 5000;
  Main.defaultPlan := "free";
  Main.outDir := "auth";
  Main.flow := {|
    LoginFlow.challengeSelectors := ["input[name='otp']"];
    LoginFlow.challengeTextPatterns := ["verification"; "security check"]
  |}
|}.

Definition account_a : Main.AccountCredential.t := {|
  Main.AccountCredential.email := "a@x.com";
  Main.AccountCredential.password := "p1";
  Main.AccountCredential.plan := None
|}.

Definition account_b : Main.AccountCredential.t := {|
  Main.AccountCredential.email := "b@x.com";
  Main.AccountCredential.password := "p2";
  Main.AccountCredential.plan := Some "plus"
|}.

Definition page_plain : LoginFlow.Page := {|
  LoginFlow.frames := [ {| LoginFlow.body_innerText := Ok "Welcome back" |} ];
  LoginFlow.locator_count := fun _ => Ok 0;
  LoginFlow.locator_isVisible := fun _ => Ok false;
  LoginFlow.content := Ok "<html><body>Welcome back</body></html>"
|}.

(** The provider's consent page, with a one-time-code input in its markup. *)
Definition page_consent : LoginFlow.Page := {|
  LoginFlow.frames :=
    [ {| LoginFlow.body_innerText := Throw "frame was detached" |};
      {| LoginFlow.body_innerText := Ok "Sign in to Codex with ChatGPT" |} ];
  LoginFlow.locator_count := fun _ => Ok 1;
  LoginFlow.locator_isVisible := fun _ => Ok true;
  LoginFlow.content := Ok "<html><body>Sign in to Codex</body></html>"
|}.

(** A page that only says "verification", and one that asks for a security
    check. *)
Definition page_with_text (html : string) : LoginFlow.Page := {|
  LoginFlow.frames := [ {| LoginFlow.body_innerText := Ok html |} ];
  LoginFlow.locator_count := fun _ => Ok 0;
  LoginFlow.locator_isVisible := fun _ => Throw "element is not attached";
  LoginFlow.content := Ok html
|}.

Definition flow_done (invalid : bool) : Main.FlowResult.t := {|
  Main.FlowResult.finalUrl := "http://localhost:1455/auth/callback?code=xyz";
  Main.FlowResult.challenge := false;
  Main.FlowResult.invalidCredentials := invalid;
  Main.FlowResult.callbackUrl := None
|}.

Definition console_success : Cpamc.CpamcAuthStatus.t := {|
  Cpamc.CpamcAuthStatus.status := Cpamc.success;
  Cpamc.CpamcAuthStatus.raw := None;
  Cpamc.CpamcAuthStatus.message := None
|}.

(** The auth directory holds the artifact of a@x.com from the third pass
    on. *)
Definition dir_with_artifact : Cpamc.Timeline := {|
  Cpamc.snapshot := fun k =>
    {| readdirSync := fun _ =>
         Ok (if Nat.leb 2 k then [file "codex-a_x.com-free.json"] else []);
       existsSync := fun _ => true;
       readFileSync := fun p =>
         if String.eqb p "auth/codex-a_x.com-free.json"
         then Parsed (JObj [("email", JStr "a@x.com")])
         else Unreadable |};
  Cpamc.lateness := fun _ => 5%N
|}.

(** The auth directory does not exist. *)
Definition dir_missing : Cpamc.Timeline := {|
  Cpamc.snapshot := fun _ =>
    {| readdirSync := fun _ =>
         Throw "ENOENT: no such file or directory, scandir 'auth'";
       existsSync := fun _ => false;
       readFileSync := fun _ => Unreadable |};
  Cpamc.lateness := fun _ => 0%N
|}.

Definition world (invalid : bool) (dir : Cpamc.Timeline) : Main.AccountWorld := {|
  Main.startedAt := "2024-06-01T00:00:00.000Z";
  Main.endedAt := "2024-06-01T00:01:00.000Z";
  Main.newContext := Ok tt;
  Main.newControlPage := Ok tt;
  Main.ensureCpamcLogin := Ok tt;
  Main.gotoOauthPage := Ok tt;
  Main.startCodexOauthAndGetUrl :=
    Ok "https://auth.openai.com/oauth/authorize?client_id=app&state=abc123";
  Main.newAuthPage := Ok tt;
  Main.runLoginFlow := fun _ => Ok (flow_done invalid);
  Main.authPage := page_plain;
  Main.pollCpamcAuthStatus := fun _ _ => Ok console_success;
  Main.authDirTimeline := dir
|}.

Definition world_ok : Main.AccountWorld := world false dir_with_artifact.

(** The flow ends on a visible human-challenge marker. *)
Definition world_challenge : Main.AccountWorld := {|
  Main.startedAt := "2024-06-01T00:00:00.000Z";
  Main.endedAt := "2024-06-01T00:01:00.000Z";
  Main.newContext := Ok tt;
  Main.newControlPage := Ok tt;
  Main.ensureCpamcLogin := Ok tt;
  Main.gotoOauthPage := Ok tt;
  Main.startCodexOauthAndGetUrl :=
    Ok "https://auth.openai.com/oauth/authorize?client_id=app&state=def456";
  Main.newAuthPage := Ok tt;
  Main.runLoginFlow := fun _ =>
    Ok {| Main.FlowResult.finalUrl := "https://auth.openai.com/log-in/password";
          Main.FlowResult.challenge := true;
          Main.FlowResult.invalidCredentials := false;
          Main.FlowResult.callbackUrl := None |};
  Main.authPage := page_with_text "Please pass the Security Check";
  Main.pollCpamcAuthStatus := fun _ _ =>
    Ok {| Cpamc.CpamcAuthStatus.status := Cpamc.waiting;
          Cpamc.CpamcAuthStatus.raw := None;
          Cpamc.CpamcAuthStatus.message := Some "Timed out waiting auth status" |};
  Main.authDirTimeline := dir_with_artifact
|}.

Definition worlds_challenge_then_ok (i : nat) : Main.AccountWorld :=
  match i with
  | 0 => world_challenge
  | _ => world_ok
  end.

(** The flow reports invalid credentials while the console says success. *)
Definition world_rejected : Main.AccountWorld := world true dir_with_artifact.

(** The console login throws. *)
Definition world_bad_key : Main.AccountWorld := {|
  Main.startedAt := "2024-06-01T00:00:00.000Z";
  Main.endedAt := "2024-06-01T00:01:00.000Z";
  Main.newContext := Ok tt;
  Main.newControlPage := Ok tt;
  Main.ensureCpamcLogin := Throw "CPAMC login failed: invalid management key";
  Main.gotoOauthPage := Ok tt;
  Main.startCodexOauthAndGetUrl := Throw "CPAMC OAuth auth URL not found";
  Main.newAuthPage := Ok tt;
  Main.runLoginFlow := fun _ => Ok (flow_done false);
  Main.authPage := page_plain;
  Main.pollCpamcAuthStatus := fun _ _ => Ok console_success;
  Main.authDirTimeline := dir_with_artifact
|}.

(** The browser window has been closed: no context can be opened. *)
Definition world_browser_gone : Main.AccountWorld := {|
  Main.startedAt := "2024-06-01T00:00:00.000Z";
  Main.endedAt := "2024-06-01T00:01:00.000Z";
  Main.newContext :=
    Throw "browser.newContext: Target page, context or browser has been closed";
  Main.newControlPage := Ok tt;
  Main.ensureCpamcLogin := Ok tt;
  Main.gotoOauthPage := Ok tt;
  Main.startCodexOauthAndGetUrl :=
    Ok "https://auth.openai.com/oauth/authorize?client_id=app&state=abc123";
  Main.newAuthPage := Ok tt;
  Main.runLoginFlow := fun _ => Ok (flow_done false);
  Main.authPage := page_plain;
  Main.pollCpamcAuthStatus := fun _ _ => Ok console_success;
  Main.authDirTimeline := dir_with_artifact
|}.

Definition worlds_ok_then_bad_key (i : nat) : Main.AccountWorld :=
  match i with
  | 0 => world_ok
  | _ => world_bad_key
  end.

Definition worlds_ok_then_gone (i : nat) : Main.AccountWorld :=
  match i with
  | 0 => world_ok
  | _ => world_browser_gone
  end.




(** *** Long pages *)

Fixpoint repeated (n : nat) (s : string) : string :=
  match n with
  | 0 => EmptyString
  | S n' => s ++ repeated n' s
  end.

(** A page of terms, 12000 characters long, with the consent button below
    them and a one-time-code input in its markup. *)
Definition page_consent_below : LoginFlow.Page := {|
  LoginFlow.frames :=
    [ {| LoginFlow.body_innerText :=
           Ok (repeated 12000 "." ++ "Continue to Codex") |} ];
  LoginFlow.locator_count := fun _ => Ok 1;
  LoginFlow.locator_isVisible := fun _ => Ok true;
  LoginFlow.content := Ok "<html><body>Continue to Codex</body></html>"
|}.

(** The consent page in Chinese: 5000 characters of three bytes each, then
    the consent text. *)
Definition page_consent_chinese : LoginFlow.Page := {|
  LoginFlow.frames :=
    [ {| LoginFlow.body_innerText :=
           Ok (repeated 5000 "条" ++ "登录到 Codex") |} ];
  LoginFlow.locator_count := fun _ => Ok 1;
  LoginFlow.locator_isVisible := fun _ => Ok true;
  LoginFlow.content := Ok "<html><body>登录到 Codex</body></html>"
|}.

End Examples.

(* ===================================================================== *)
(** ** Notions used in the further properties of the code *)
(* ===================================================================== *)

Module Props.
Section WithRuntime.
Context {R : Runtime}.

(** The shape of a result the loop of a real run records: a success names a
    file and nothing else, a failure carries a code and a message and no
    file, and nothing is skipped. *)
Definition recordedShape (r : Main.AuthResult.t) : Prop :=
  match Main.AuthResult.status r with
  | Main.success =>
      Main.AuthResult.code r = None /\
      Main.AuthResult.message r = None /\
      exists c f, Main.AuthResult.file r = Some (String c f)
  | Main.failed =>
      (exists c, Main.AuthResult.code r = Some c) /\
      (exists m, Main.AuthResult.message r = Some m) /\
      Main.AuthResult.file r = None
  | Main.skipped => False
  end.

(** No index to start from at [outPath]: no file, a file that cannot be
    read or parsed, or a value without an [accounts] array. *)
Definition noUsablePrior (fs : FileSystem) (outPath : string) : Prop :=
  existsSync fs outPath = false \/
  readFileSync fs outPath = Unreadable \/
  readFileSync fs outPath = Malformed \/
  exists j, readFileSync fs outPath = Parsed j /\
            forall items, field j "accounts" <> Some (JArr items).

(** *** Extraction of accounts *)

(** The key under which the extraction stores an account. *)
Definition emailKey (a : Main.AccountCredential.t) : string :=
  toLowerCase (Main.AccountCredential.email a).

(** A line of the Markdown input describes an account: trimmed, it is some
    text [x], the delimiter and the password, the delimiter shown being the
    first of the line; [x] trimmed is the email, which the pattern accepts;
    the password is not empty and the plan is the default one. *)
Definition describes (defaultPlan line : string)
    (a : Main.AccountCredential.t) : Prop :=
  exists x,
    Text.trim line = x ++ "----" ++ Main.AccountCredential.password a /\
    includes (x ++ "---") "----" = false /\
    Text.trim x = Main.AccountCredential.email a /\
    Text.test Io.EMAIL_RE (Main.AccountCredential.email a) = true /\
    Main.AccountCredential.password a <> EmptyString /\
    Main.AccountCredential.plan a = Some defaultPlan.

Definition blank (line : string) : bool := Text.isEmpty (Text.trim line).

Definition fresh : Io.Extraction :=
  {| Io.errors := []; Io.byEmail := []; Io.invalid := 0 |}.

(** What the callback of the extraction stores for one line, seen from a
    fresh start: the account, if it stores one. *)
Definition lineAccount (defaultPlan line : string)
  : option Main.AccountCredential.t :=
  match Io.byEmail (Io.visit defaultPlan fresh line 0) with
  | (_, a) :: _ => Some a
  | [] => None
  end.

(** The accounts of the lines, one for each line that is stored, in the
    order of the lines; the line numbers of the lines that are neither blank
    nor stored. *)
Fixpoint lineAccounts (defaultPlan : string) (lines : list string)
  : list Main.AccountCredential.t :=
  match lines with
  | [] => []
  | line :: lines' =>
      match lineAccount defaultPlan line with
      | Some a => a :: lineAccounts defaultPlan lines'
      | None => lineAccounts defaultPlan lines'
      end
  end.

Fixpoint rejectedLines (defaultPlan : string) (lines : list string) (idx : nat)
  : list nat :=
  match lines with
  | [] => []
  | line :: lines' =>
      if blank line then rejectedLines defaultPlan lines' (S idx)
      else
        match lineAccount defaultPlan line with
        | Some _ => rejectedLines defaultPlan lines' (S idx)
        | None => (idx + 1) :: rejectedLines defaultPlan lines' (S idx)
        end
  end.

(** [for (const a of l) m.set(key(a), a)] *)
Fixpoint setMany (l : list Main.AccountCredential.t)
    (m : list (string * Main.AccountCredential.t))
  : list (string * Main.AccountCredential.t) :=
  match l with
  | [] => m
  | a :: l' => setMany l' (Io.set (emailKey a) a m)
  end.

(** *** Regular expressions *)

(** The texts a regular expression stands for. *)
Inductive Matches : Text.regex -> list string -> Prop :=
| MEps : Matches Text.Eps []
| MClass p c : p c = true -> Matches (Text.Class p) [c]
| MSeq r1 r2 l1 l2 :
    Matches r1 l1 -> Matches r2 l2 -> Matches (Text.Seq r1 r2) (l1 ++ l2)%list
| MAltL r1 r2 l : Matches r1 l -> Matches (Text.Alt r1 r2) l
| MAltR r1 r2 l : Matches r2 l -> Matches (Text.Alt r1 r2) l
| MStarNil r : Matches (Text.Star r) []
| MStarCons r l1 l2 :
    Matches r l1 -> Matches (Text.Star r) l2 ->
    Matches (Text.Star r) (l1 ++ l2)%list.

(** What the pattern for emails accepts: a local part, the at sign, a
    domain, a dot and a last part, the three of them not empty and free of
    white space and of at signs. *)
Definition emailShape (email : string) : Prop :=
  exists l d t,
    Text.chars email = (l ++ ["@"] ++ d ++ ["."] ++ t)%list /\
    l <> [] /\ d <> [] /\ t <> [] /\
    forallb Io.notSpaceNorAt (l ++ d ++ t)%list = true.

(** *** The command line *)

(** The token after [--key] does not make it an option: there is none, or
    it is empty, or it starts with two dashes. *)
Definition noValue (rest : list string) : Prop :=
  match rest with
  | [] => True
  | next :: _ => next = EmptyString \/ startsWith next "--" = true
  end.

Definition isValue (v : string) : Prop :=
  v <> EmptyString /\ startsWith v "--" = false.

(** The meaning of the tokens taken one by one, no token skipped. *)
Inductive argEvent : Type :=
| AFlag (key : string)
| AOption (key value : string).

Fixpoint argEvents (tokens : list string) : list argEvent :=
  match tokens with
  | [] => []
  | token :: rest =>
      if startsWith token "--" then
        match rest with
        | [] => AFlag (Text.sliceFrom 2 token) :: argEvents rest
        | next :: _ =>
            if Text.isEmpty next || startsWith next "--"
            then AFlag (Text.sliceFrom 2 token) :: argEvents rest
            else AOption (Text.sliceFrom 2 token) next :: argEvents rest
        end
      else argEvents rest
  end.

Definition applyEvent (st : list (string * string) * list string)
    (e : argEvent) : list (string * string) * list string :=
  match e with
  | AFlag k => (fst st, Config.add k (snd st))
  | AOption k v => (Config.assign k v (fst st), snd st)
  end.

(** *** The console status *)

(** [Date.now() - started] at the test that opens the [k]-th pass of
    [pollCpamcAuthStatus]. *)
Definition consoleLate (c : CpamcStatus.Console) (k : nat) : N :=
  match CpamcStatus.pause c k with
  | Ok late => late
  | Throw _ => 0%N
  end.

Fixpoint consoleElapsedAt (c : CpamcStatus.Console) (k : nat) : Z :=
  match k with
  | O => 0
  | S k' => consoleElapsedAt c k' + 1000 + Z.of_N (consoleLate c k')
  end.

(** A pass that neither returns nor throws: nothing conclusive is read and
    the pause ends. *)
Definition inconclusive (stringify : json -> string) (c : CpamcStatus.Console)
    (state : option string) (k : nat) : Prop :=
  CpamcStatus.onePass stringify c state k = Ok None /\
  exists late, CpamcStatus.pause c k = Ok late.

(** What a pass leaves the loop with, [Ok None] when it does not. *)
Definition passResult (stringify : json -> string) (c : CpamcStatus.Console)
    (state : option string) (k : nat)
  : outcome (option Cpamc.CpamcAuthStatus.t) :=
  match CpamcStatus.onePass stringify c state k with
  | Ok None =>
      match CpamcStatus.pause c k with
      | Ok _ => Ok None
      | Throw msg => Throw msg
      end
  | r => r
  end.

(** *** The authorization URL *)

(** [value] is the string starting with http that [obj] holds under the
    first of [keys] to hold one. *)
Definition firstUrl (obj : json) (keys : list string) (value : string) : Prop :=
  exists pre key2 post,
    keys = (pre ++ key2 :: post)%list /\
    field obj key2 = Some (JStr value) /\
    startsWith value "http" = true /\
    forall k v, In k pre -> field obj k = Some (JStr v) ->
                startsWith v "http" = false.

(** [obj] holds a string starting with http under none of [keys]. *)
Definition noUrl (obj : json) (keys : list string) : Prop :=
  forall k v, In k keys -> field obj k = Some (JStr v) ->
              startsWith v "http" = false.

End WithRuntime.
End Props.

(* ===================================================================== *)
(** ** More concrete inputs *)
(* ===================================================================== *)

Module MoreExamples.
Import Sample.

(** *** Extraction and loading of accounts *)

Definition LF : string := String (ascii_of_nat 10) EmptyString.
Definition CRLF : string := String (ascii_of_nat 13) LF.

(** Six lines: an account, a blank line, a line without delimiter, the
    first account again in another letter case with a delimiter in its
    password, an empty password and an invalid email. *)
Definition markdown_text : string :=
  "A@x.com----p1" ++ LF ++
  LF ++
  "bad line" ++ LF ++
  " a@x.com ----p----2 " ++ CRLF ++
  "b@x.com----" ++ LF ++
  "nobody----pw".

Definition read_markdown (p : string) : outcome string :=
  if String.eqb p "accounts.md" then Ok markdown_text
  else Throw "ENOENT: no such file or directory, open".

Definition extracted : list Main.AccountCredential.t :=
  [ {| Main.AccountCredential.email := "a@x.com";
       Main.AccountCredential.password := "p----2";
       Main.AccountCredential.plan := Some "free" |} ].

Definition extract_report : Io.ExtractReport.t := {|
  Io.ExtractReport.generated_at := "2024-06-01T00:00:00.000Z";
  Io.ExtractReport.total_lines := 6;
  Io.ExtractReport.valid_accounts := 1;
  Io.ExtractReport.invalid_lines := 3;
  Io.ExtractReport.duplicate_emails := 1;
  Io.ExtractReport.errors :=
    [ {| Io.ExtractError.line := 3;
         Io.ExtractError.code := Io.MISSING_DELIMITER;
         Io.ExtractError.message := "Line must contain delimiter ----" |};
      {| Io.ExtractError.line := 5;
         Io.ExtractError.code := Io.EMPTY_PASSWORD;
         Io.ExtractError.message := "Password cannot be empty" |};
      {| Io.ExtractError.line := 6;
         Io.ExtractError.code := Io.INVALID_EMAIL;
         Io.ExtractError.message := "Invalid email format" |} ]
|}.

(** The file the extraction writes, and an input with rows that are no
    accounts. *)
Definition fs_accounts : FileSystem := {|
  readdirSync := fun _ => Ok [];
  existsSync := fun p => String.eqb p "accounts.json";
  readFileSync := fun p =>
    if String.eqb p "accounts.json" then Parsed (Io.accountsJSON extracted)
    else if String.eqb p "rows.json" then
      Parsed (JArr [ JNull;
                     JObj [("email", JStr " c@x.com "); ("password", JStr "pw");
                           ("plan", JStr "  ")];
                     JObj [("email", JStr "c@x"); ("password", JStr "pw")];
                     JObj [("email", JStr "d@x.com"); ("password", JNum 1)] ])
    else Unreadable
|}.

(** *** Batch orchestrator *)

(** The options of a run that leaves no time. *)
Definition options_no_time : Main.RunOptions := {|
  Main.timeoutMs := 0;
  Main.defaultPlan := "free";
  Main.outDir := "auth";
  Main.flow := Main.flow Examples.options
|}.

(** *** The command line *)

Definition argv_auth : list string :=
  ["auth"; "--input"; "accounts.json"; "--dry-run"; "--headful"; "false";
   "--input"; "other.json"].

(** *** The console status *)

(** A stand-in for [JSON.stringify], enough for responses that are no
    JSON objects. *)
Definition stringify_sample (j : json) : string :=
  match j with
  | JNull => "null"
  | JBool true => "true"
  | JBool false => "false"
  | _ => "[object]"
  end.

Definition plain_response (body : string) : CpamcStatus.Response :=
  {| CpamcStatus.text := body; CpamcStatus.json_of_text := None |}.

(** The console answers pending twice, then that the authentication is
    completed; a console that never says more than pending. *)
Definition console_slow : CpamcStatus.Console := {|
  CpamcStatus.response := fun k _ =>
    Ok (plain_response (if Nat.ltb k 2 then "pending"
                        else "Authentication completed"));
  CpamcStatus.bodyText := fun _ => Ok "Codex OAuth";
  CpamcStatus.pause := fun _ => Ok 10%N
|}.

Definition console_silent : CpamcStatus.Console := {|
  CpamcStatus.response := fun _ _ => Ok (plain_response "pending");
  CpamcStatus.bodyText := fun _ => Ok "Codex OAuth";
  CpamcStatus.pause := fun _ => Ok 10%N
|}.

Definition status_completed : Cpamc.CpamcAuthStatus.t := {|
  Cpamc.CpamcAuthStatus.status := Cpamc.success;
  Cpamc.CpamcAuthStatus.raw := Some "Authentication completed";
  Cpamc.CpamcAuthStatus.message := Some "Authentication completed"
|}.

(** The flow reports invalid credentials and the console stays silent. *)
Definition world_rejected_silent : Main.AccountWorld := {|
  Main.startedAt := "2024-06-01T00:00:00.000Z";
  Main.endedAt := "2024-06-01T00:01:00.000Z";
  Main.newContext := Ok tt;
  Main.newControlPage := Ok tt;
  Main.ensureCpamcLogin := Ok tt;
  Main.gotoOauthPage := Ok tt;
  Main.startCodexOauthAndGetUrl :=
    Ok "https://auth.openai.com/oauth/authorize?client_id=app&state=abc123";
  Main.newAuthPage := Ok tt;
  Main.runLoginFlow := fun _ => Ok (Examples.flow_done true);
  Main.authPage := Examples.page_plain;
  Main.pollCpamcAuthStatus := fun state timeoutMs =>
    CpamcStatus.pollCpamcAuthStatus stringify_sample console_silent
      (Some state) timeoutMs;
  Main.authDirTimeline := Examples.dir_with_artifact
|}.

(** *** The index on disk *)

(** Only the directory auth exists. *)
Definition writeFileSync_auth (path : string) (_ : json) : outcome unit :=
  if startsWith path "auth/" then Ok tt
  else Throw "ENOENT: no such file or directory, open".

(** *** The planned file *)

(** The auth directory once the artifact planned for b@x.com is there. *)
Definition fs_planned : FileSystem := {|
  readdirSync := fun dir =>
    if String.eqb dir "auth"
    then Ok [Examples.file "accounts-index.json";
             Examples.file "codex-b@x.com-plus.json"]
    else Throw "ENOENT: no such file or directory, scandir";
  existsSync := fun _ => false;
  readFileSync := fun _ => Unreadable
|}.

(** An account whose plan holds a slash. *)
Definition account_team : Main.AccountCredential.t := {|
  Main.AccountCredential.email := "c:d@x.com";
  Main.AccountCredential.password := "p3";
  Main.AccountCredential.plan := Some "pro/team"
|}.

(** *** The authorization URL *)

(** The console answers with an object whose own url is no link and whose
    data names the link under two keys. *)
Definition response_nested : CpamcStatus.Response := {|
  CpamcStatus.text := "{...}";
  CpamcStatus.json_of_text :=
    Some (JObj [("url", JStr "pending");
                ("status", JStr "ok");
                ("data",
                 JObj [("authorization_url", JStr "https://auth.example/late");
                       ("auth_url", JStr "https://auth.example/first")])])
|}.

End MoreExamples.

(* ===================================================================== *)
(** ** Strings *)
(* ===================================================================== *)

Section StringFacts.

Lemma append_assoc (s t u : string) : (s ++ t) ++ u = s ++ t ++ u.
Proof. induction s; simpl; congruence. Qed.

Lemma prefix_cons a p b s :
  String.prefix (String a p) (String b s) = Ascii.eqb a b && String.prefix p s.
Proof.
  simpl. destruct (ascii_dec a b) as [->|Hn].
  - now rewrite Ascii.eqb_refl.
  - apply Ascii.eqb_neq in Hn. now rewrite Hn.
Qed.

Lemma prefix_nil s : String.prefix EmptyString s = true.
Proof. now destruct s. Qed.

Lemma prefix_app p t : String.prefix p (p ++ t) = true.
Proof.
  induction p as [|a p IH]; [apply prefix_nil|].
  change (String a p ++ t) with (String a (p ++ t)).
  now rewrite prefix_cons, Ascii.eqb_refl, IH.
Qed.

Lemma prefix_iff p s : String.prefix p s = true <-> exists t, s = p ++ t.
Proof.
  split; [|intros [t ->]; apply prefix_app].
  revert s. induction p as [|a p IH]; intros s H; [now exists s|].
  destruct s as [|b s]; [discriminate|].
  rewrite prefix_cons in H. apply andb_true_iff in H as [Hab H].
  apply Ascii.eqb_eq in Hab as <-. destruct (IH s H) as [t ->]. now exists t.
Qed.

Lemma includes_cons c s p :
  includes (String c s) p = String.prefix p (String c s) || includes s p.
Proof. reflexivity. Qed.

(** [s.includes(p)]: [p] stands somewhere in [s]. *)
Lemma includes_iff s p :
  includes s p = true <-> exists pre post, s = pre ++ p ++ post.
Proof.
  split.
  - induction s as [|c s IH].
    + unfold includes. rewrite orb_false_r. intros H.
      apply prefix_iff in H as [t Ht]. now exists EmptyString, t.
    + rewrite includes_cons. intros H. apply orb_true_iff in H as [H|H].
      * apply prefix_iff in H as [t Ht]. now exists EmptyString, t.
      * destruct (IH H) as (pre & post & ->). now exists (String c pre), post.
  - intros (pre & post & ->). induction pre as [|c pre IH].
    + simpl append. destruct (p ++ post) as [|c s] eqn:E.
      * unfold includes. rewrite <- E, prefix_app. reflexivity.
      * rewrite includes_cons, <- E, prefix_app. reflexivity.
    + change (String c pre ++ p ++ post) with (String c (pre ++ p ++ post)).
      rewrite includes_cons, IH. apply orb_true_r.
Qed.

Lemma lower_append a b :
  ascii_toLowerCase (a ++ b) = ascii_toLowerCase a ++ ascii_toLowerCase b.
Proof. induction a as [|c a IH]; simpl; congruence. Qed.

Lemma lower_split s x y :
  ascii_toLowerCase s = x ++ y ->
  exists s1 s2,
    s = s1 ++ s2 /\ ascii_toLowerCase s1 = x /\ ascii_toLowerCase s2 = y.
Proof.
  revert s. induction x as [|c x IH]; intros s H.
  - now exists EmptyString, s.
  - destruct s as [|d s]; [discriminate|]. simpl in H.
    injection H as Hc H. destruct (IH s H) as (s1 & s2 & -> & H1 & H2).
    exists (String d s1), s2. simpl. now rewrite Hc, H1.
Qed.

(** The test of a pattern [/lit/i] finds the literal whatever the case of
    the letters A to Z. *)
Lemma test_ci_holds lit s :
  test_ci lit s = true <-> Spec.holds (ascii_toLowerCase lit) s.
Proof.
  unfold test_ci, Spec.holds. rewrite includes_iff. split.
  - intros (x & y & H). apply lower_split in H as (pre & rest & -> & _ & H).
    apply lower_split in H as (m & post & -> & Hm & _). now exists pre, m, post.
  - intros (pre & m & post & -> & Hm).
    exists (ascii_toLowerCase pre), (ascii_toLowerCase post).
    now rewrite !lower_append, Hm.
Qed.

(** A text of at most [n] code units is not cut. *)
Lemma sliceTo_all n s : units s <= n -> sliceTo n s = s.
Proof.
  revert n. induction s as [|c s IH]; intros n H; [reflexivity|].
  cbn [sliceTo units] in *. destruct (isContinuation c) eqn:Ec.
  - f_equal. apply IH. unfold unitsOf in H. rewrite Ec in H. exact H.
  - assert (Hc : Nat.leb (unitsOf c) n = true) by (apply Nat.leb_le; lia).
    rewrite Hc. f_equal. apply IH. lia.
Qed.

Lemma unitsOf_byte n :
  n < 256 ->
  unitsOf (ascii_of_nat n)
  = if Nat.leb 128 n && Nat.ltb n 192 then 0
    else if Nat.ltb n 240 then 1 else 2.
Proof.
  intros H. unfold unitsOf, isContinuation.
  now rewrite (nat_ascii_embedding n H).
Qed.

(** The half of a surrogate pair is one code unit. *)
Lemma units_highSurrogate b0 b1 b2 : units (highSurrogate b0 b1 b2) = 1.
Proof.
  unfold highSurrogate.
  set (w := nat_of_ascii b0 mod 8 * 256 + nat_of_ascii b1 mod 64 * 4
            + nat_of_ascii b2 mod 64 / 16 - 64).
  assert (Hw : w < 2048).
  { unfold w.
    pose proof (Nat.mod_upper_bound (nat_of_ascii b0) 8 ltac:(lia)).
    pose proof (Nat.mod_upper_bound (nat_of_ascii b1) 64 ltac:(lia)).
    pose proof (Nat.mod_upper_bound (nat_of_ascii b2) 64 ltac:(lia)).
    pose proof (Nat.Div0.div_lt_upper_bound (nat_of_ascii b2 mod 64) 16 4
                  ltac:(lia)).
    lia. }
  assert (H1 : w / 64 < 32) by (apply Nat.Div0.div_lt_upper_bound; lia).
  pose proof (Nat.mod_upper_bound w 64 ltac:(lia)) as H2.
  cbn [units]. rewrite !unitsOf_byte by lia.
  replace (Nat.leb 128 237 && Nat.ltb 237 192) with false by reflexivity.
  replace (Nat.ltb 237 240) with true by reflexivity.
  assert (E1 : Nat.leb 128 (160 + w / 64) && Nat.ltb (160 + w / 64) 192 = true).
  { apply andb_true_iff. split; [apply Nat.leb_le|apply Nat.ltb_lt]; lia. }
  assert (E2 : Nat.leb 128 (128 + w mod 64)
               && Nat.ltb (128 + w mod 64) 192 = true).
  { apply andb_true_iff. split; [apply Nat.leb_le|apply Nat.ltb_lt]; lia. }
  now rewrite E1, E2.
Qed.

(** The cut has at most [n] code units. *)
Lemma units_sliceTo n s : units (sliceTo n s) <= n.
Proof.
  revert n. induction s as [|c s IH]; intros n; [cbn; lia|].
  cbn [sliceTo]. destruct (isContinuation c) eqn:Ec.
  - cbn [units]. unfold unitsOf. rewrite Ec. apply IH.
  - destruct (Nat.leb (unitsOf c) n) eqn:El.
    + apply Nat.leb_le in El. cbn [units]. specialize (IH (n - unitsOf c)). lia.
    + destruct n as [|[|n]]; [cbn; lia| |cbn; lia].
      destruct s as [|b1 [|b2 s]]; try (cbn; lia).
      rewrite units_highSurrogate. lia.
Qed.

End StringFacts.

(* ===================================================================== *)
(** ** The rotation indexer *)
(* ===================================================================== *)

Section RotateFacts.
Context {R : Runtime}.
Import Rotate Spec.

Lemma mkEntry_status email file expired status :
  field (mkEntry email file expired status) "status" = Some (JStr status).
Proof. destruct expired; reflexivity. Qed.

(** C4. classify returns an entry for every file, whatever reading and
    parsing it does. The entry names that file and its status is: invalid
    when the file cannot be read, cannot be parsed or holds the JSON value
    null; otherwise disabled when the parsed content has disabled === true,
    whatever its expired field; otherwise expired when the expired field is
    a string that parses to a time strictly before the current time; active
    in all other cases. *)
Theorem classify_status (now : Z) (fs : FileSystem) (file : string) :
  exists email expired,
    classify now fs file
    = mkEntry email file expired
        (Spec.classificationNullInvalid now (readFileSync fs file)).
Proof.
  unfold classify, readJSON.
  destruct (readFileSync fs file) as [| |j];
    try (do 2 eexists; reflexivity).
  destruct j as [|b|n|s|items|fields]; try (do 2 eexists; reflexivity).
  cbn -[mkEntry String.eqb Z.ltb].
  unfold Spec.disabledIsTrue, Spec.expiredInPast. cbn -[mkEntry String.eqb Z.ltb].
  destruct (assoc "disabled" fields) as [[|[]| | | |]|];
    cbn -[mkEntry String.eqb Z.ltb]; try (do 2 eexists; reflexivity).
  all: destruct (assoc "expired" fields) as [[| | |ex| |]|];
    cbn -[mkEntry String.eqb Z.ltb]; try (do 2 eexists; reflexivity).
  all: destruct (String.eqb ex EmptyString) eqn:Es; cbn -[mkEntry String.eqb Z.ltb].
  all: try (apply String.eqb_eq in Es; subst ex; rewrite Date_parse_empty;
            do 2 eexists; reflexivity).
  all: destruct (Date_parse ex) as [t|]; try (do 2 eexists; reflexivity).
  all: destruct (t <? now)%Z; do 2 eexists; reflexivity.
Qed.

(** *** Counting by status *)

Lemma countStatus_cons s x l :
  countStatus s (x :: l) = Nat.b2n (hasStatus s x) + countStatus s l.
Proof. unfold countStatus. simpl. destruct (hasStatus s x); reflexivity. Qed.

Lemma knownStatus_one x :
  Spec.knownStatus x = true ->
  Nat.b2n (hasStatus "active" x) + Nat.b2n (hasStatus "expired" x)
  + Nat.b2n (hasStatus "disabled" x) + Nat.b2n (hasStatus "invalid" x) = 1.
Proof.
  unfold Spec.knownStatus, hasStatus.
  destruct (field x "status") as [[| | |t| |]|]; try discriminate.
  destruct (String.eqb t "active") eqn:E1;
    [apply String.eqb_eq in E1; subst t; reflexivity|].
  destruct (String.eqb t "expired") eqn:E2;
    [apply String.eqb_eq in E2; subst t; reflexivity|].
  destruct (String.eqb t "disabled") eqn:E3;
    [apply String.eqb_eq in E3; subst t; reflexivity|].
  destruct (String.eqb t "invalid") eqn:E4;
    [apply String.eqb_eq in E4; subst t; reflexivity|].
  discriminate.
Qed.

Lemma counts_partition l :
  forallb Spec.knownStatus l = true ->
  countStatus "active" l + countStatus "expired" l
  + countStatus "disabled" l + countStatus "invalid" l = length l.
Proof.
  induction l as [|x l IH]; [reflexivity|].
  intros H. apply andb_true_iff in H as [Hx Hl].
  rewrite !countStatus_cons. specialize (IH Hl).
  pose proof (knownStatus_one x Hx). simpl length. lia.
Qed.

(** Whatever the file holds, classify builds an entry for that very file
    with one of the four statuses. *)
Lemma classify_shape now fs file :
  exists e x s,
    classify now fs file = mkEntry e file x s /\
    In s ["active"; "expired"; "disabled"; "invalid"].
Proof.
  unfold classify, readJSON.
  destruct (readFileSync fs file) as [| |j]; cbn -[mkEntry In];
    try (do 3 eexists; split; [reflexivity|simpl; auto]).
  destruct j; cbn -[mkEntry String.eqb Z.ltb In];
    repeat match goal with
      | |- context [if ?c then _ else _] => destruct c
      | |- context [match ?x with _ => _ end] => destruct x
      end; cbn -[mkEntry In];
    do 3 eexists; (split; [reflexivity|simpl; auto]).
Qed.

Lemma classify_known now fs file :
  Spec.knownStatus (classify now fs file) = true.
Proof.
  destruct (classify_shape now fs file) as (e & x & s & -> & Hs).
  unfold Spec.knownStatus, hasStatus. rewrite mkEntry_status.
  simpl in Hs. destruct Hs as [<-|[<-|[<-|[<-|[]]]]]; reflexivity.
Qed.

Lemma classify_wellFormed now fs file :
  wellFormed (classify now fs file) = true.
Proof.
  destruct (classify_shape now fs file) as (e & x & s & -> & _). reflexivity.
Qed.

(** *** The insertion-ordered map *)

Lemma assoc_None {A} k (m : list (string * A)) :
  ~ In k (map fst m) -> assoc k m = None.
Proof.
  induction m as [|[k0 v0] m IH]; simpl; [reflexivity|].
  intros H. destruct (String.eqb k0 k) eqn:E.
  - apply String.eqb_eq in E. elim H. now left.
  - apply IH. intros Hin. apply H. now right.
Qed.

Lemma assoc_In {A} k (v : A) m : assoc k m = Some v -> In (k, v) m.
Proof.
  induction m as [|[k0 v0] m IH]; simpl; [discriminate|].
  destruct (String.eqb k0 k) eqn:E.
  - apply String.eqb_eq in E. intros [= <-]. subst. now left.
  - intros H. right. now apply IH.
Qed.

Lemma assoc_map_set k k' v m :
  assoc k (map_set k' v m) = if String.eqb k' k then Some v else assoc k m.
Proof.
  induction m as [|[k0 v0] m IH]; simpl; [reflexivity|].
  destruct (String.eqb k0 k') eqn:E0; simpl.
  - apply String.eqb_eq in E0. subst k0.
    destruct (String.eqb k' k); reflexivity.
  - rewrite IH. destruct (String.eqb k0 k) eqn:E1; [|reflexivity].
    apply String.eqb_eq in E1. subst k0.
    now rewrite (String.eqb_sym k' k), E0.
Qed.

Lemma map_set_fresh k v m :
  ~ In k (map fst m) -> map_set k v m = (m ++ [(k, v)])%list.
Proof.
  induction m as [|[k0 v0] m IH]; simpl; [reflexivity|].
  intros H. destruct (String.eqb k0 k) eqn:E.
  - apply String.eqb_eq in E. elim H. now left.
  - f_equal. apply IH. intros Hin. apply H. now right.
Qed.

Lemma keys_map_set_in k v m :
  In k (map fst m) -> map fst (map_set k v m) = map fst m.
Proof.
  induction m as [|[k0 v0] m IH]; simpl; [intros []|].
  intros H. destruct (String.eqb k0 k) eqn:E; simpl.
  - apply String.eqb_eq in E. now subst.
  - f_equal. apply IH. destruct H as [H|H]; [|exact H].
    subst k0. now rewrite String.eqb_refl in E.
Qed.

Lemma keys_map_set k v m k1 :
  In k1 (map fst (map_set k v m)) <-> k1 = k \/ In k1 (map fst m).
Proof.
  induction m as [|[k0 v0] m IH]; simpl.
  - intuition (auto; congruence).
  - destruct (String.eqb k0 k) eqn:E; simpl.
    + apply String.eqb_eq in E. subst k0. intuition (auto; congruence).
    + rewrite IH. intuition (auto; congruence).
Qed.

Lemma NoDup_map_set k v m :
  NoDup (map fst m) -> NoDup (map fst (map_set k v m)).
Proof.
  induction m as [|[k0 v0] m IH]; simpl; intros H.
  - constructor; [intros []|constructor].
  - inversion H as [|? ? Hn Hd]; subst.
    destruct (String.eqb k0 k) eqn:E; simpl.
    + apply String.eqb_eq in E. subst k0. now constructor.
    + constructor; [|now apply IH].
      rewrite keys_map_set. intros [->|Hin]; [|now apply Hn].
      now rewrite String.eqb_refl in E.
Qed.

Lemma In_map_set k v m k1 v1 :
  In (k1, v1) (map_set k v m) -> (k1 = k /\ v1 = v) \/ In (k1, v1) m.
Proof.
  induction m as [|[k0 v0] m IH]; simpl.
  - intros [[= <- <-]|[]]. now left.
  - destruct (String.eqb k0 k); simpl.
    + intros [[= <- <-]|H]; auto.
    + intros [H|H]; auto. destruct (IH H); auto.
Qed.

(** Two association lists with the same keys in the same order, none
    repeated, and the same value under every key are equal. *)
Lemma assoc_ext (m1 m2 : JsMap) :
  NoDup (map fst m1) ->
  map fst m1 = map fst m2 ->
  (forall k, assoc k m1 = assoc k m2) ->
  m1 = m2.
Proof.
  revert m2. induction m1 as [|[k1 v1] m1 IH]; intros [|[k2 v2] m2]; simpl;
    try discriminate; [reflexivity|].
  intros Hnd [= <- Hk] Ha. inversion Hnd as [|? ? Hn Hd]; subst.
  pose proof (Ha k1) as H1. rewrite String.eqb_refl in H1.
  injection H1 as <-. f_equal. apply IH; [exact Hd|exact Hk|].
  intros k. specialize (Ha k). destruct (String.eqb k1 k) eqn:E; [|exact Ha].
  apply String.eqb_eq in E. subst k.
  rewrite !assoc_None; [reflexivity| now rewrite <- Hk | exact Hn].
Qed.

(** *** Keys of entries *)

Lemma accountKey_wellFormed e :
  wellFormed e = true -> accountKey e = Ok (Spec.keyOf e).
Proof.
  unfold Spec.keyOf. destruct e as [| | | | |fs]; try discriminate.
  unfold wellFormed, accountKey, stringProp. simpl.
  destruct (assoc "email" fs) as [[| | |em| |]|]; try discriminate.
  destruct (assoc "file" fs) as [[| | |fl| |]|]; try discriminate.
  reflexivity.
Qed.

Lemma accountKey_Ok_wellFormed e k :
  accountKey e = Ok k -> wellFormed e = true.
Proof.
  destruct e as [| | | | |fs]; try discriminate.
  unfold wellFormed, accountKey, stringProp. simpl.
  destruct (assoc "email" fs) as [[| | |em| |]|]; try discriminate.
  destruct (assoc "file" fs) as [[| | |fl| |]|]; try discriminate.
  reflexivity.
Qed.

(** The key [accountKey] computes is the key of the specification, and it
    throws where there is none. *)
Lemma accountKey_key e k : accountKey e = Ok k <-> Spec.key e = Some k.
Proof.
  unfold accountKey, stringProp, Spec.key.
  destruct e as [|b|n|s|items|fs]; simpl; try (split; discriminate).
  destruct (assoc "email" fs) as [[| | |em| |]|]; simpl;
    try (split; discriminate).
  destruct (assoc "file" fs) as [[| | |fl| |]|]; simpl;
    try (split; discriminate).
  split; intros [= <-]; reflexivity.
Qed.

Lemma key_wellFormed e : wellFormed e = true -> exists k, Spec.key e = Some k.
Proof.
  intros H. exists (Spec.keyOf e). apply accountKey_key.
  now apply accountKey_wellFormed.
Qed.

Lemma hasKeyIn_keyIn k l : Spec.hasKeyIn k l <-> Spec.keyIn k l.
Proof.
  unfold Spec.hasKeyIn, Spec.keyIn.
  split; intros (e & Hin & He); exists e; (split; [exact Hin|]);
    now apply accountKey_key.
Qed.

Lemma NoDup_map_key l :
  forallb wellFormed l = true ->
  NoDup (map accountKey l) -> NoDup (map Spec.key l).
Proof.
  induction l as [|a l IH]; simpl; intros Hw H; [constructor|].
  apply andb_true_iff in Hw as [Ha Hl].
  inversion H as [|? ? Hni Hnd]; subst. constructor; [|now apply IH].
  intros Hin. apply Hni. apply in_map_iff in Hin as (e & He & Hin).
  apply in_map_iff. exists e. split; [|exact Hin].
  destruct (key_wellFormed a Ha) as [k Hk]. rewrite Hk in He.
  apply accountKey_key in He, Hk. congruence.
Qed.

Lemma hasKey_keyOf k e :
  wellFormed e = true -> Spec.hasKey k e = String.eqb (Spec.keyOf e) k.
Proof.
  intros H. unfold Spec.hasKey. now rewrite (accountKey_wellFormed _ H).
Qed.

(** *** The two [for] loops over [merged.set] *)

Lemma setAll_ok l m :
  forallb wellFormed l = true -> setAll l m = Ok (setAllPure l m).
Proof.
  revert m. induction l as [|e l IH]; intros m H; simpl; [reflexivity|].
  apply andb_true_iff in H as [He Hl].
  rewrite (accountKey_wellFormed _ He). simpl. now apply IH.
Qed.

Lemma find_snoc {A} (p : A -> bool) l x :
  find p (l ++ [x])%list =
  match find p l with
  | Some y => Some y
  | None => if p x then Some x else None
  end.
Proof.
  induction l as [|y l IH]; simpl; [reflexivity|].
  destruct (p y); [reflexivity|exact IH].
Qed.

Lemma lastWithKey_cons k e l :
  Spec.lastWithKey k (e :: l) =
  match Spec.lastWithKey k l with
  | Some y => Some y
  | None => if Spec.hasKey k e then Some e else None
  end.
Proof. unfold Spec.lastWithKey. simpl. apply find_snoc. Qed.

Lemma lastWithKey_Some k l e :
  Spec.lastWithKey k l = Some e -> In e l /\ accountKey e = Ok k.
Proof.
  unfold Spec.lastWithKey. intros H. apply find_some in H as [Hin Hk].
  split; [now apply in_rev|].
  unfold Spec.hasKey in Hk. destruct (accountKey e); [|discriminate].
  apply String.eqb_eq in Hk. now subst.
Qed.

Lemma lastWithKey_None k l e :
  Spec.lastWithKey k l = None -> In e l -> accountKey e <> Ok k.
Proof.
  unfold Spec.lastWithKey. intros H Hin Hk.
  apply in_rev in Hin. pose proof (find_none _ _ H _ Hin) as Hf.
  unfold Spec.hasKey in Hf. rewrite Hk, String.eqb_refl in Hf. discriminate.
Qed.

Lemma lastWithKey_absent k l :
  ~ Spec.keyIn k l -> Spec.lastWithKey k l = None.
Proof.
  intros H. destruct (Spec.lastWithKey k l) as [y|] eqn:E; [|reflexivity].
  apply lastWithKey_Some in E as [Hin Hk]. elim H. exists y.
  split; [exact Hin|now apply accountKey_key].
Qed.

(** What the search from the end finds is the last entry with the key, in
    the words of the specification. *)
Lemma lastWithKey_lastKeyed k l e :
  Spec.lastWithKey k l = Some e <-> Spec.lastKeyed k l e.
Proof.
  split.
  - revert e. induction l as [|x l IH]; intros e; [discriminate|].
    rewrite lastWithKey_cons.
    destruct (Spec.lastWithKey k l) as [y|] eqn:E.
    + intros [= <-]. destruct (IH y eq_refl) as (pre & post & -> & Hk & Hn).
      now exists (x :: pre), post.
    + destruct (Spec.hasKey k x) eqn:Hx; [|discriminate]. intros [= <-].
      exists [], l. split; [reflexivity|]. split.
      * unfold Spec.hasKey in Hx. destruct (accountKey x) as [k'|] eqn:Ex;
          [|discriminate].
        apply String.eqb_eq in Hx. subst k'. now apply accountKey_key.
      * intros (y & Hin & Hy). apply accountKey_key in Hy.
        exact (lastWithKey_None _ _ _ E Hin Hy).
  - intros (pre & post & -> & Hk & Hn). apply accountKey_key in Hk.
    induction pre as [|x pre IH].
    + simpl app. rewrite lastWithKey_cons, (lastWithKey_absent _ _ Hn).
      unfold Spec.hasKey. now rewrite Hk, String.eqb_refl.
    + change ((x :: pre) ++ e :: post)%list with (x :: (pre ++ e :: post))%list.
      now rewrite lastWithKey_cons, IH.
Qed.

Lemma keyed_nil : keyed [].
Proof. intros k v []. Qed.

Lemma keyed_setAllPure l m :
  forallb wellFormed l = true -> keyed m -> keyed (setAllPure l m).
Proof.
  revert m. induction l as [|e l IH]; intros m H Hm; simpl; [exact Hm|].
  apply andb_true_iff in H as [He Hl]. apply IH; [exact Hl|].
  intros k v Hin. apply In_map_set in Hin as [[-> ->]|Hin].
  - now apply accountKey_wellFormed.
  - now apply Hm.
Qed.

Lemma NoDup_setAllPure l m :
  NoDup (map fst m) -> NoDup (map fst (setAllPure l m)).
Proof.
  revert m. induction l as [|e l IH]; intros m H; simpl; [exact H|].
  apply IH. now apply NoDup_map_set.
Qed.

Lemma assoc_setAllPure k l m :
  forallb wellFormed l = true ->
  assoc k (setAllPure l m) =
  match Spec.lastWithKey k l with
  | Some e => Some e
  | None => assoc k m
  end.
Proof.
  revert m. induction l as [|e l IH]; intros m H; simpl; [reflexivity|].
  apply andb_true_iff in H as [He Hl].
  rewrite (IH _ Hl), lastWithKey_cons, assoc_map_set, (hasKey_keyOf _ _ He).
  destruct (Spec.lastWithKey k l); [reflexivity|].
  destruct (String.eqb (Spec.keyOf e) k); reflexivity.
Qed.

Lemma lastWithKey_values k m :
  keyed m -> NoDup (map fst m) ->
  Spec.lastWithKey k (map_values m) = assoc k m.
Proof.
  induction m as [|[k0 v0] m IH]; intros Hk Hnd; [reflexivity|].
  unfold map_values in *. simpl. rewrite lastWithKey_cons.
  inversion Hnd as [|? ? Hn Hd]; subst.
  rewrite IH; [|intros k1 v1 H1; apply Hk; now right|exact Hd].
  unfold Spec.hasKey. rewrite (Hk k0 v0 (or_introl eq_refl)).
  destruct (String.eqb k0 k) eqn:E.
  - apply String.eqb_eq in E. subst k0. now rewrite assoc_None.
  - now destruct (assoc k m).
Qed.

Lemma keyed_keys m :
  keyed m -> map accountKey (map_values m) = map (@Ok string) (map fst m).
Proof.
  induction m as [|[k0 v0] m IH]; intros Hk; [reflexivity|].
  unfold map_values in *. simpl. f_equal.
  - apply Hk. now left.
  - apply IH. intros k v H. apply Hk. now right.
Qed.

Lemma NoDup_map_Ok (l : list string) : NoDup l -> NoDup (map (@Ok string) l).
Proof.
  induction 1 as [|x l Hn Hd IH]; simpl; constructor; [|exact IH].
  intros Hin. apply in_map_iff in Hin as (y & [= ->] & Hy). now apply Hn.
Qed.

Lemma forallb_filter {A} (p : A -> bool) l : forallb p (filter p l) = true.
Proof.
  induction l as [|x l IH]; simpl; [reflexivity|].
  destruct (p x) eqn:E; simpl; [now rewrite E|exact IH].
Qed.

Lemma filter_all {A} (p : A -> bool) l : forallb p l = true -> filter p l = l.
Proof.
  induction l as [|x l IH]; simpl; [reflexivity|].
  intros H. apply andb_true_iff in H as [-> Hl]. f_equal. now apply IH.
Qed.

Lemma existing_wellFormed fs outPath :
  forallb wellFormed (existingAccounts fs outPath) = true.
Proof.
  unfold existingAccounts, readJSON.
  destruct (existsSync fs outPath); [|reflexivity].
  destruct (readFileSync fs outPath) as [| |j]; try reflexivity.
  destruct j as [| | | | |fs']; try reflexivity. simpl.
  destruct (assoc "accounts" fs') as [[| | | |items|]|]; try reflexivity.
  simpl. apply forallb_filter.
Qed.

Lemma writeRotationIndex_eq stamp fs outPath index :
  forallb wellFormed (accounts index) = true ->
  writeRotationIndex stamp fs outPath index
  = Ok (mkIndex stamp
          (map_values (mergedMap (existingAccounts fs outPath) (accounts index)))).
Proof.
  intros HB. unfold writeRotationIndex.
  rewrite (setAll_ok _ _ (existing_wellFormed fs outPath)). simpl.
  now rewrite (setAll_ok _ _ HB).
Qed.

Lemma mergedMap_keyed A B :
  forallb wellFormed A = true -> forallb wellFormed B = true ->
  keyed (mergedMap A B).
Proof.
  intros HA HB. apply keyed_setAllPure; [exact HB|].
  apply keyed_setAllPure; [exact HA|exact keyed_nil].
Qed.

Lemma mergedMap_NoDup A B : NoDup (map fst (mergedMap A B)).
Proof. apply NoDup_setAllPure, NoDup_setAllPure. constructor. Qed.

Lemma mergedMap_lookup k A B :
  forallb wellFormed A = true -> forallb wellFormed B = true ->
  Spec.lastWithKey k (map_values (mergedMap A B)) =
  match Spec.lastWithKey k B with
  | Some b => Some b
  | None => Spec.lastWithKey k A
  end.
Proof.
  intros HA HB.
  rewrite lastWithKey_values;
    [|now apply mergedMap_keyed|apply mergedMap_NoDup].
  unfold mergedMap. rewrite (assoc_setAllPure _ _ _ HB).
  destruct (Spec.lastWithKey k B); [reflexivity|].
  rewrite (assoc_setAllPure _ _ _ HA). simpl.
  now destruct (Spec.lastWithKey k A).
Qed.

Lemma lastWithKey_complete k l e :
  In e l -> accountKey e = Ok k -> exists e', Spec.lastWithKey k l = Some e'.
Proof.
  intros Hin Hk. destruct (Spec.lastWithKey k l) eqn:E; [eauto|].
  now elim (lastWithKey_None _ _ _ E Hin).
Qed.

(** With distinct keys the entry under a key is the only one. *)
Lemma lastWithKey_unique k m e :
  keyed m -> NoDup (map fst m) ->
  In e (map_values m) -> accountKey e = Ok k ->
  Spec.lastWithKey k (map_values m) = Some e.
Proof.
  intros Hk Hnd Hin He. rewrite (lastWithKey_values k m Hk Hnd).
  unfold map_values in Hin. apply in_map_iff in Hin as ([k0 v0] & <- & Hin).
  simpl in *. pose proof (Hk _ _ Hin) as H0. rewrite He in H0.
  injection H0 as ->. clear He Hk.
  induction m as [|[k1 v1] m IH]; [destruct Hin|]. simpl in *.
  inversion Hnd as [|? ? Hn Hd]; subst.
  destruct Hin as [[= -> ->]|Hin]; [now rewrite String.eqb_refl|].
  destruct (String.eqb k1 k0) eqn:E; [|now apply IH].
  apply String.eqb_eq in E. subst k1. elim Hn.
  apply in_map_iff. now exists (k0, v0).
Qed.

(** *** Merging twice *)

Lemma keyOf_keyed m k v : keyed m -> In (k, v) m -> Spec.keyOf v = k.
Proof. intros Hk Hin. unfold Spec.keyOf. now rewrite (Hk _ _ Hin). Qed.

Lemma setAllPure_rebuild m m0 :
  keyed m -> NoDup (map fst (m0 ++ m)%list) ->
  setAllPure (map_values m) m0 = (m0 ++ m)%list.
Proof.
  revert m0. induction m as [|[k v] m IH]; intros m0 Hk Hnd; simpl.
  - now rewrite app_nil_r.
  - rewrite (keyOf_keyed _ k v Hk (or_introl eq_refl)).
    rewrite map_app in Hnd. simpl in Hnd.
    rewrite map_set_fresh.
    + rewrite IH.
      * now rewrite <- app_assoc.
      * intros k1 v1 H1. apply Hk. now right.
      * rewrite <- app_assoc, map_app. exact Hnd.
    + apply NoDup_remove_2 in Hnd. intros Hin. apply Hnd.
      apply in_or_app. now left.
Qed.

Lemma keys_mono l m k :
  In k (map fst m) -> In k (map fst (setAllPure l m)).
Proof.
  revert m. induction l as [|e l IH]; intros m H; simpl; [exact H|].
  apply IH. apply keys_map_set. now right.
Qed.

Lemma keys_in_setAllPure l m b :
  In b l -> In (Spec.keyOf b) (map fst (setAllPure l m)).
Proof.
  revert m. induction l as [|e l IH]; intros m H; simpl; [destruct H|].
  destruct H as [->|H]; [|now apply IH].
  apply keys_mono, keys_map_set. now left.
Qed.

Lemma keys_setAllPure_absorb l m :
  (forall b, In b l -> In (Spec.keyOf b) (map fst m)) ->
  map fst (setAllPure l m) = map fst m.
Proof.
  revert m. induction l as [|e l IH]; intros m H; simpl; [reflexivity|].
  assert (He : In (Spec.keyOf e) (map fst m)) by (apply H; now left).
  rewrite IH.
  - now apply keys_map_set_in.
  - intros b Hb. rewrite keys_map_set_in by exact He. apply H. now right.
Qed.

Lemma setAllPure_idem l m :
  forallb wellFormed l = true -> NoDup (map fst m) ->
  setAllPure l (setAllPure l m) = setAllPure l m.
Proof.
  intros Hl Hnd. apply assoc_ext.
  - now apply NoDup_setAllPure, NoDup_setAllPure.
  - apply keys_setAllPure_absorb. intros b Hb. now apply keys_in_setAllPure.
  - intros k. rewrite !(assoc_setAllPure _ _ _ Hl).
    now destruct (Spec.lastWithKey k l).
Qed.

Lemma mergedMap_wellFormed A B :
  forallb wellFormed A = true -> forallb wellFormed B = true ->
  forallb wellFormed (map_values (mergedMap A B)) = true.
Proof.
  intros HA HB. apply forallb_forall. intros e He.
  unfold map_values in He. apply in_map_iff in He as ([k v] & <- & Hin).
  apply accountKey_Ok_wellFormed with k.
  exact (mergedMap_keyed A B HA HB _ _ Hin).
Qed.

(** Merging the scan [B] into the entries a merge of [B] has written
    leaves them as they are. *)
Lemma mergedMap_again A B :
  forallb wellFormed A = true -> forallb wellFormed B = true ->
  mergedMap (map_values (mergedMap A B)) B = mergedMap A B.
Proof.
  intros HA HB. unfold mergedMap at 1.
  rewrite (setAllPure_rebuild (mergedMap A B) []);
    [|now apply mergedMap_keyed|apply mergedMap_NoDup].
  simpl. unfold mergedMap. apply setAllPure_idem; [exact HB|].
  apply NoDup_setAllPure. constructor.
Qed.

Lemma classify_stable now1 now2 fs1 fs2 f :
  readFileSync fs2 f = readFileSync fs1 f ->
  (forall j s t,
      readFileSync fs1 f = Parsed j ->
      field j "expired" = Some (JStr s) ->
      Date_parse s = Some t ->
      (t <? now1)%Z = (t <? now2)%Z) ->
  classify now2 fs2 f = classify now1 fs1 f.
Proof.
  intros Hc Hexp. unfold classify, readJSON. rewrite Hc.
  destruct (readFileSync fs1 f) as [| |j]; try reflexivity.
  specialize (Hexp j).
  destruct j as [| | | | |fields]; try reflexivity.
  cbn -[mkEntry String.eqb Z.ltb] in *.
  destruct (assoc "expired" fields) as [[| | |ex| |]|]; try reflexivity.
  destruct (Date_parse ex) as [t|] eqn:Et; [|reflexivity].
  now rewrite (Hexp ex t eq_refl eq_refl Et).
Qed.

(** *** The index invariant *)

Lemma countStatus_spec s l : countStatus s l = Spec.numberWithStatus s l.
Proof.
  induction l as [|a l IH]; [reflexivity|].
  rewrite countStatus_cons, IH. simpl. unfold hasStatus.
  destruct (field a "status") as [[| | |t| |]|]; reflexivity.
Qed.

Lemma mkIndex_countsAgree stamp accs : Spec.countsAgree (mkIndex stamp accs).
Proof.
  unfold Spec.countsAgree. simpl. rewrite <- !countStatus_spec. auto.
Qed.

Lemma mkIndex_countsSum stamp accs :
  forallb Spec.knownStatus accs = true ->
  Spec.countsSum (mkIndex stamp accs) = total (mkIndex stamp accs).
Proof. intros H. unfold Spec.countsSum. simpl. now apply counts_partition. Qed.

Lemma In_setAllPure l m k v :
  In (k, v) (setAllPure l m) -> In v l \/ In (k, v) m.
Proof.
  revert m. induction l as [|e l IH]; intros m H; simpl in *; [now right|].
  apply IH in H as [H|H]; [now left; right|].
  apply In_map_set in H as [[_ ->]|H]; [now left; left|now right].
Qed.

Lemma mergedMap_from A B e :
  In e (map_values (mergedMap A B)) -> In e A \/ In e B.
Proof.
  unfold map_values. intros H. apply in_map_iff in H as ([k v] & <- & H).
  simpl. apply In_setAllPure in H as [H|H]; [now right|].
  apply In_setAllPure in H as [H|[]]. now left.
Qed.

Lemma build_accounts now stamp fs dir index :
  buildRotationIndex now stamp fs dir = Ok index ->
  exists files,
    scannedFiles fs dir = Ok files /\
    index = mkIndex stamp (map (fun f => classify (now f) fs f) files).
Proof.
  unfold buildRotationIndex. destruct (scannedFiles fs dir) as [files|msg];
    simpl; [|discriminate].
  intros [= <-]. now exists files.
Qed.

Lemma build_known now stamp fs dir index :
  buildRotationIndex now stamp fs dir = Ok index ->
  forallb Spec.knownStatus (accounts index) = true /\
  forallb wellFormed (accounts index) = true.
Proof.
  intros H. apply build_accounts in H as (files & _ & ->). simpl.
  split; apply forallb_forall; intros e He;
    apply in_map_iff in He as (f & <- & _).
  - apply classify_known.
  - apply classify_wellFormed.
Qed.

(** C5. Every index that buildRotationIndex returns has total equal to the
    number of accounts and each of the four counters equal to the number of
    accounts with that status, and its counters add up to total. Merging it
    with writeRotationIndex always writes an index whose total and counters
    agree with its accounts in the same way; the counters of the written
    index add up to its total whenever each entry kept from the previous
    index carries one of the four statuses. *)
Theorem index_counts now stamp fs dir index :
  buildRotationIndex now stamp fs dir = Ok index ->
  Spec.countsAgree index /\
  Spec.countsSum index = total index /\
  forall stamp' fs' outPath,
  exists final,
    writeRotationIndex stamp' fs' outPath index = Ok final /\
    Spec.countsAgree final /\
    (forallb Spec.knownStatus (existingAccounts fs' outPath) = true ->
     Spec.countsSum final = total final).
Proof.
  intros Hb. destruct (build_known _ _ _ _ _ Hb) as [Hk Hw].
  pose proof Hb as Hb'. apply build_accounts in Hb' as (files & _ & Hi).
  split; [rewrite Hi; apply mkIndex_countsAgree|].
  split; [rewrite Hi in Hk |- *; now apply mkIndex_countsSum|].
  intros stamp' fs' outPath. eexists. split.
  - now apply writeRotationIndex_eq.
  - split; [apply mkIndex_countsAgree|].
    intros HA. apply mkIndex_countsSum. apply forallb_forall. intros e He.
    apply mergedMap_from in He as [He|He].
    + exact (proj1 (forallb_forall _ _) HA e He).
    + exact (proj1 (forallb_forall _ _) Hk e He).
Qed.

(** *** Merge *)

(** The merge, with the keys as [accountKey] computes them. *)
Lemma merge_lookup stamp fs outPath index :
  forallb wellFormed (accounts index) = true ->
  exists final,
    writeRotationIndex stamp fs outPath index = Ok final /\
    let A := existingAccounts fs outPath in
    let B := accounts index in
    NoDup (map accountKey (accounts final)) /\
    (forall k, Spec.hasKeyIn k (accounts final) <->
               Spec.hasKeyIn k A \/ Spec.hasKeyIn k B) /\
    (forall k e, In e (accounts final) -> accountKey e = Ok k ->
       Some e = match Spec.lastWithKey k B with
                | Some b => Some b
                | None => Spec.lastWithKey k A
                end) /\
    (forall k a, Spec.lastWithKey k A = Some a ->
       Spec.lastWithKey k B = None -> In a (accounts final)).
Proof.
  intros HB. pose proof (existing_wellFormed fs outPath) as HA.
  eexists. split; [now apply writeRotationIndex_eq|].
  cbn zeta. simpl accounts.
  set (A := existingAccounts fs outPath) in *. set (B := accounts index) in *.
  pose proof (mergedMap_keyed A B HA HB) as Hk.
  pose proof (mergedMap_NoDup A B) as Hnd.
  assert (Hlook : forall k e, In e (map_values (mergedMap A B)) ->
            accountKey e = Ok k ->
            Some e = match Spec.lastWithKey k B with
                     | Some b => Some b
                     | None => Spec.lastWithKey k A
                     end).
  { intros k e Hin He. pose proof (mergedMap_lookup k A B HA HB) as Hl.
    rewrite (lastWithKey_unique k _ e Hk Hnd Hin He) in Hl. exact Hl. }
  split; [rewrite (keyed_keys _ Hk); now apply NoDup_map_Ok|].
  split; [|split; [exact Hlook|]].
  - intros k. split.
    + intros (e & Hin & He). specialize (Hlook k e Hin He).
      destruct (Spec.lastWithKey k B) as [b|] eqn:EB.
      * right. exists b. now apply lastWithKey_Some.
      * left. exists e. apply lastWithKey_Some. now symmetry.
    + intros H.
      assert (exists x, Spec.lastWithKey k (map_values (mergedMap A B)) = Some x)
        as [x Hx].
      { rewrite (mergedMap_lookup k A B HA HB).
        destruct (Spec.lastWithKey k B) as [b|] eqn:EB; [eauto|].
        destruct H as [(a & Hin & Ha)|(b & Hin & Hb)].
        - now apply lastWithKey_complete with a.
        - now elim (lastWithKey_None _ _ _ EB Hin). }
      exists x. now apply lastWithKey_Some.
  - intros k a Ha Hb.
    pose proof (mergedMap_lookup k A B HA HB) as H. rewrite Hb, Ha in H.
    now apply lastWithKey_Some in H.
Qed.

(** C3. writeRotationIndex, given an index of well-formed entries B and
    with A the well-formed entries of the index already on disk, writes
    accounts that all have a key (the email in lower case, a bar, the base
    name of the file in lower case), pairwise distinct, the key set being
    keys(A) ∪ keys(B). The entry written under a key is the last entry of B
    with that key when B has one, and the last entry of A with that key
    otherwise. So every key of A stays, and an entry of A is written as it
    was when no entry of B and no later entry of A has its key; of several
    entries of A with one key only the last can be written. *)
Theorem writeRotationIndex_merge stamp fs outPath index :
  forallb wellFormed (accounts index) = true ->
  exists final,
    writeRotationIndex stamp fs outPath index = Ok final /\
    let A := existingAccounts fs outPath in
    let B := accounts index in
    (forall e, In e (accounts final) -> exists k, Spec.key e = Some k) /\
    NoDup (map Spec.key (accounts final)) /\
    (forall k, Spec.keyIn k (accounts final) <->
               Spec.keyIn k A \/ Spec.keyIn k B) /\
    (forall k e, In e (accounts final) -> Spec.key e = Some k ->
       (Spec.keyIn k B -> Spec.lastKeyed k B e) /\
       (~ Spec.keyIn k B -> Spec.lastKeyed k A e)) /\
    (forall k a, Spec.lastKeyed k A a -> ~ Spec.keyIn k B ->
       In a (accounts final)).
Proof.
  intros HB.
  destruct (merge_lookup stamp fs outPath index HB)
    as (final & Hw & Hnd & Hkeys & Hlook & Hkeep).
  exists final. split; [exact Hw|]. cbv zeta in *.
  assert (Hwf : forallb wellFormed (accounts final) = true).
  { rewrite (writeRotationIndex_eq _ _ _ _ HB) in Hw. injection Hw as <-.
    apply mergedMap_wellFormed; [apply existing_wellFormed|exact HB]. }
  split; [|split; [|split; [|split]]].
  - intros e He. apply key_wellFormed.
    exact (proj1 (forallb_forall _ _) Hwf e He).
  - now apply NoDup_map_key.
  - intros k. rewrite <- !hasKeyIn_keyIn. apply Hkeys.
  - intros k e He Hk. apply accountKey_key in Hk.
    specialize (Hlook k e He Hk).
    destruct (Spec.lastWithKey k (accounts index)) as [b|] eqn:EB.
    + injection Hlook as ->. split.
      * intros _. now apply lastWithKey_lastKeyed.
      * intros Hn. elim Hn. apply hasKeyIn_keyIn. exists b.
        now apply lastWithKey_Some.
    + split.
      * intros (b & Hin & Hb). apply accountKey_key in Hb.
        now elim (lastWithKey_None _ _ _ EB Hin).
      * intros _. apply lastWithKey_lastKeyed. now symmetry.
  - intros k a Ha Hn. apply (Hkeep k).
    + now apply lastWithKey_lastKeyed.
    + now apply lastWithKey_absent.
Qed.

(** C10. When the index already on disk parses to an object whose accounts
    property is an array, writeRotationIndex keeps of that array exactly the
    elements that are objects with a string email and a string file, writes
    without raising, and no other element of the array is among the accounts
    written. *)
Theorem malformed_prior_entries_dropped stamp fs outPath prior items index :
  existsSync fs outPath = true ->
  readFileSync fs outPath = Parsed prior ->
  field prior "accounts" = Some (JArr items) ->
  forallb wellFormed (accounts index) = true ->
  existingAccounts fs outPath = filter wellFormed items /\
  exists final,
    writeRotationIndex stamp fs outPath index = Ok final /\
    forall x, In x items -> wellFormed x = false -> ~ In x (accounts final).
Proof.
  intros He Hr Hf HB.
  assert (HA : existingAccounts fs outPath = filter wellFormed items).
  { unfold existingAccounts, readJSON. rewrite He, Hr. simpl.
    destruct prior; try discriminate. simpl in *. now rewrite Hf. }
  split; [exact HA|].
  eexists. split; [now apply writeRotationIndex_eq|].
  intros x _ Hx Hin. simpl in Hin.
  pose proof (mergedMap_wellFormed _ _ (existing_wellFormed fs outPath) HB) as Hw.
  rewrite (proj1 (forallb_forall _ _) Hw x Hin) in Hx. discriminate.
Qed.

(** *** Running the indexer twice *)

Lemma existing_of_written fs outPath final :
  existsSync fs outPath = true ->
  readFileSync fs outPath = Parsed (toJSON final) ->
  existingAccounts fs outPath = filter wellFormed (accounts final).
Proof.
  intros He Hr. unfold existingAccounts, readJSON. now rewrite He, Hr.
Qed.

(** C6. When the indexer has run once and runs again on a directory that
    lists the same artifacts (whatever else it lists, the index the first
    run wrote for one) with the same contents, reading back at the output
    path the index the first run wrote, and no artifact's expired timestamp
    is before the clock of one run without being before the clock of the
    other, the second run writes the very accounts the first one wrote. *)
Theorem rerun_same_accounts now1 now2 s1 s1' s2 s2' fs1 fs2 dir out final1 files :
  Main.runRotateIndexCommand now1 s1 s1' fs1 dir out = Ok final1 ->
  scannedFiles fs1 dir = Ok files ->
  scannedFiles fs2 dir = Ok files ->
  (forall f, In f files -> readFileSync fs2 f = readFileSync fs1 f) ->
  (forall f j s t, In f files ->
     readFileSync fs1 f = Parsed j ->
     field j "expired" = Some (JStr s) ->
     Date_parse s = Some t ->
     (t <? now1 f)%Z = (t <? now2 f)%Z) ->
  existsSync fs2 out = true ->
  readFileSync fs2 out = Parsed (toJSON final1) ->
  exists final2,
    Main.runRotateIndexCommand now2 s2 s2' fs2 dir out = Ok final2 /\
    accounts final2 = accounts final1.
Proof.
  intros Hrun Hfiles Hfiles2 Hsame Hexp Hex Hout.
  unfold Main.runRotateIndexCommand, buildRotationIndex in *.
  rewrite Hfiles in Hrun. rewrite Hfiles2. simpl in *.
  set (B := map (fun f => classify (now1 f) fs1 f) files) in *.
  assert (HB : forallb wellFormed B = true).
  { apply forallb_forall. intros e He. apply in_map_iff in He as (f & <- & _).
    apply classify_wellFormed. }
  assert (HB2 : map (fun f => classify (now2 f) fs2 f) files = B).
  { apply map_ext_in. intros f Hf. apply classify_stable; [now apply Hsame|].
    intros j s t. now apply Hexp. }
  rewrite HB2.
  rewrite writeRotationIndex_eq in Hrun by exact HB. injection Hrun as <-.
  rewrite writeRotationIndex_eq by exact HB.
  eexists. split; [reflexivity|]. simpl accounts.
  rewrite (existing_of_written fs2 out _ Hex Hout). simpl accounts.
  rewrite filter_all
    by (apply mergedMap_wellFormed; [apply existing_wellFormed|exact HB]).
  f_equal. apply mergedMap_again; [apply existing_wellFormed|exact HB].
Qed.

End RotateFacts.

(* ===================================================================== *)
(** ** Challenge detection, the artifact verifier, the orchestrator *)
(* ===================================================================== *)

Section LoginFlowFacts.
Context {R : Runtime}.
Import LoginFlow.

(** The test of a frame: its body text can be read and one of the two
    literals stands in its first 12000 code units. *)
Lemma frameLooksLikeConsent_iff frame :
  frameLooksLikeConsent frame = true <->
  exists text,
    body_innerText frame = Ok text /\
    Spec.matchesConsent (sliceTo 12000 text).
Proof.
  unfold frameLooksLikeConsent, consentPattern, Spec.matchesConsent,
    catch_default, try_catch.
  destruct (body_innerText frame) as [text|msg]; cbv zeta.
  - rewrite orb_true_iff, !test_ci_holds.
    change (ascii_toLowerCase "登录到 Codex") with "登录到 codex".
    change (ascii_toLowerCase "to Codex") with "to codex".
    split; [intros H; now exists text|].
    now intros (t & [= <-] & H).
  - split; [intros H; vm_compute in H; discriminate H|].
    now intros (t & [=] & _).
Qed.

Lemma onCodexConsentPage_iff page :
  onCodexConsentPage page = true <-> Spec.consentAtTop page.
Proof.
  unfold onCodexConsentPage, Spec.consentAtTop. rewrite existsb_exists. split.
  - intros (frame & Hin & H).
    apply frameLooksLikeConsent_iff in H as (text & Ht & H).
    now exists frame, text.
  - intros (frame & text & Hin & Ht & H). exists frame. split; [exact Hin|].
    apply frameLooksLikeConsent_iff. now exists text.
Qed.

(** Where no body text is longer than the cut, looking at the first 12000
    code units is looking at the whole text. *)
Lemma consentAtTop_short page :
  Spec.shortBodies page -> (Spec.consentShowing page <-> Spec.consentAtTop page).
Proof.
  intros Hs.
  split; intros (frame & text & Hin & Ht & H); exists frame, text;
    (split; [exact Hin|split; [exact Ht|]]);
    rewrite (sliceTo_all _ _ (Hs frame text Hin Ht)) in *; exact H.
Qed.

Lemma anySelectorVisible_iff page selectors b :
  anySelectorVisible page selectors = Ok b ->
  (b = true <-> exists s, In s selectors /\ Spec.selectorVisible page s).
Proof.
  induction selectors as [|s rest IH]; simpl.
  - intros [= <-]. split; [discriminate|]. now intros (s & [] & _).
  - destruct (locator_count page s) as [n|msg] eqn:En; simpl; [|discriminate].
    destruct (Nat.ltb 0 n && catch_default (locator_isVisible page s) false)
      eqn:Ev.
    + intros [= <-]. split; [intros _|reflexivity].
      apply andb_true_iff in Ev as [Hn Hv]. apply Nat.ltb_lt in Hn.
      exists s. split; [now left|]. exists n. repeat split; auto.
      unfold catch_default, try_catch in Hv.
      destruct (locator_isVisible page s) as [[]|]; congruence.
    + intros H. rewrite (IH H). split.
      * intros (s' & Hin & Hs). exists s'. split; [now right|exact Hs].
      * intros (s' & [<-|Hin] & Hs); [|now exists s'].
        destruct Hs as (n' & Hc & Hn & Hv). rewrite En in Hc.
        injection Hc as <-. apply Nat.ltb_lt in Hn.
        rewrite Hn, Hv in Ev. discriminate.
Qed.

Lemma anySelectorVisible_returns page selectors :
  (forall s, In s selectors -> exists n, locator_count page s = Ok n) ->
  exists b, anySelectorVisible page selectors = Ok b.
Proof.
  induction selectors as [|s rest IH]; simpl; intros H; [eauto|].
  destruct (H s (or_introl eq_refl)) as [n ->]. simpl.
  destruct (Nat.ltb 0 n && _); [eauto|].
  apply IH. intros s' Hs'. apply H. now right.
Qed.

Lemma overlyBroad_false t :
  overlyBroad t = false <-> t <> "verification" /\ t <> "验证".
Proof.
  unfold overlyBroad. rewrite orb_false_iff, !String.eqb_neq. tauto.
Qed.

Lemma textChallenge_iff cfg lowerHtml :
  textChallenge cfg lowerHtml = true <->
  exists t pre post,
    In t (challengeTextPatterns cfg) /\
    toLowerCase t <> "verification" /\
    toLowerCase t <> "验证" /\
    lowerHtml = pre ++ toLowerCase t ++ post.
Proof.
  unfold textChallenge. rewrite existsb_exists. split.
  - intros (t' & Hin & Hinc). apply filter_In in Hin as [Hin Hb].
    apply in_map_iff in Hin as (t & <- & Hin).
    apply negb_true_iff, overlyBroad_false in Hb as [H1 H2].
    apply includes_iff in Hinc as (pre & post & Hs). now exists t, pre, post.
  - intros (t & pre & post & Hin & H1 & H2 & Hs). exists (toLowerCase t). split.
    + apply filter_In. split; [now apply in_map|].
      apply negb_true_iff, overlyBroad_false. now split.
    + apply includes_iff. now exists pre, post.
Qed.

(** C9. detectChallenge returns false whenever a consent surface shows in
    the first 12000 code units of some frame's body text (one of the two
    consent literals stands there, whatever the case of its letters).
    Whenever it returns, it returns true exactly when no consent surface
    shows there and either a configured challenge selector is visible or the
    lower-cased page content contains a lower-cased configured text pattern
    other than the two overly broad keywords. It returns whenever counting
    the selectors and reading the page content do. On a page whose body
    texts have at most 12000 code units a consent surface shows there as
    soon as it shows at all. *)
Theorem detectChallenge_spec page cfg :
  (Spec.consentAtTop page -> detectChallenge page cfg = Ok false) /\
  (forall b, detectChallenge page cfg = Ok b ->
     (b = true <->
      ~ Spec.consentAtTop page /\
      ((exists s, In s (challengeSelectors cfg) /\ Spec.selectorVisible page s)
       \/ Spec.challengeTextFound cfg page))) /\
  ((forall s, In s (challengeSelectors cfg) ->
      exists n, locator_count page s = Ok n) ->
   (exists html, content page = Ok html) ->
   exists b, detectChallenge page cfg = Ok b) /\
  (Spec.shortBodies page ->
   (Spec.consentShowing page <-> Spec.consentAtTop page)).
Proof.
  unfold detectChallenge. split; [|split; [|split; [|apply consentAtTop_short]]].
  - intros H. apply onCodexConsentPage_iff in H. now rewrite H.
  - intros b. destruct (onCodexConsentPage page) eqn:Ec.
    + intros [= <-]. apply onCodexConsentPage_iff in Ec.
      split; [discriminate|]. now intros [H _].
    + assert (Hno : ~ Spec.consentAtTop page).
      { intros H. apply onCodexConsentPage_iff in H. congruence. }
      destruct (anySelectorVisible page (challengeSelectors cfg)) as [v|msg]
        eqn:Ev; simpl; [|discriminate].
      pose proof (anySelectorVisible_iff _ _ _ Ev) as Hv.
      destruct v.
      * intros [= <-]. split; [intros _|reflexivity].
        split; [exact Hno|]. left. now apply Hv.
      * destruct (content page) as [html|msg] eqn:Eh; simpl; [|discriminate].
        intros [= <-]. rewrite textChallenge_iff. split.
        -- intros (t & pre & post & Hin & H1 & H2 & Hs). split; [exact Hno|].
           right. now exists html, t, pre, post.
        -- intros [_ [H|(html' & t & pre & post & Hc & Hin & H1 & H2 & Hs)]].
           ++ apply Hv in H. discriminate.
           ++ assert (html' = html) by congruence. subst html'.
              now exists t, pre, post.
  - intros Hsel [html Hc]. destruct (onCodexConsentPage page); [eauto|].
    destruct (anySelectorVisible_returns _ _ Hsel) as [v ->]. simpl.
    destruct v; [eauto|]. rewrite Hc. simpl. eauto.
Qed.

End LoginFlowFacts.

Section CpamcFacts.
Context {R : Runtime}.
Import Cpamc.

Lemma pollLoop_unfold tl authDir lowerEmail timeoutMs k elapsed :
  pollLoop tl authDir lowerEmail timeoutMs k elapsed =
  if (elapsed <? timeoutMs)%Z then
    match scanOnce (snapshot tl k) authDir lowerEmail with
    | Throw msg => Throw msg
    | Ok (Some file) => Ok (Some file)
    | Ok None =>
        pollLoop tl authDir lowerEmail timeoutMs (S k)
                 (elapsed + 1000 + Z.of_N (lateness tl k))
    end
  else Ok None.
Proof.
  rewrite pollLoop_equation_1.
  destruct (Z_lt_dec elapsed timeoutMs) as [H|H]; simpl.
  - rewrite (proj2 (Z.ltb_lt _ _) H).
    destruct (scanOnce (snapshot tl k) authDir lowerEmail) as [[f|]|]; reflexivity.
  - rewrite (proj2 (Z.ltb_ge _ _)) by lia. reflexivity.
Qed.

Lemma elapsedAt_lower_bound tl k : (1000 * Z.of_nat k <= elapsedAt tl k)%Z.
Proof.
  induction k as [|k IH]; [simpl; lia|].
  cbn [elapsedAt]. pose proof (N2Z.is_nonneg (lateness tl k)). lia.
Qed.

(** The loop, entered for the [k]-th pass, runs passes that find nothing
    until a pass [k'] that is not begun because the timeout has elapsed
    (the result is undefined), or that finds a file, or whose directory
    listing throws. *)
Lemma pollLoop_run tl authDir lowerEmail timeoutMs k :
  exists k',
    k <= k' /\
    (forall i, k <= i < k' ->
       (elapsedAt tl i < timeoutMs)%Z /\
       scanOnce (snapshot tl i) authDir lowerEmail = Ok None) /\
    ((timeoutMs <= elapsedAt tl k')%Z /\
       pollLoop tl authDir lowerEmail timeoutMs k (elapsedAt tl k) = Ok None
     \/
     (elapsedAt tl k' < timeoutMs)%Z /\
       scanOnce (snapshot tl k') authDir lowerEmail <> Ok None /\
       pollLoop tl authDir lowerEmail timeoutMs k (elapsedAt tl k)
       = scanOnce (snapshot tl k') authDir lowerEmail).
Proof.
  remember (Z.to_nat (timeoutMs - elapsedAt tl k)) as n eqn:En.
  revert k En. induction n as [n IH] using lt_wf_ind. intros k En.
  rewrite pollLoop_unfold.
  destruct (elapsedAt tl k <? timeoutMs)%Z eqn:Et.
  - apply Z.ltb_lt in Et.
    destruct (scanOnce (snapshot tl k) authDir lowerEmail) as [[f|]|msg] eqn:Es.
    + exists k. split; [lia|]. split; [intros i Hi; lia|].
      right. rewrite Es. repeat split; [exact Et|discriminate].
    + pose proof (N2Z.is_nonneg (lateness tl k)) as Hl.
      destruct (IH (Z.to_nat (timeoutMs - elapsedAt tl (S k)))) with (k := S k)
        as (k' & Hk & Hbefore & Hres);
        [subst n; cbn [elapsedAt]; lia|reflexivity|].
      exists k'. split; [lia|]. split.
      * intros i Hi. destruct (Nat.eq_dec i k) as [->|Hne]; [now split|].
        apply Hbefore. lia.
      * exact Hres.
    + exists k. split; [lia|]. split; [intros i Hi; lia|].
      right. rewrite Es. repeat split; [exact Et|discriminate].
  - apply Z.ltb_ge in Et. exists k. split; [lia|].
    split; [intros i Hi; lia|]. now left.
Qed.

Lemma emailMatches_true fs lowerEmail file :
  emailMatches fs lowerEmail file = true ->
  exists j e,
    readFileSync fs file = Parsed j /\
    field j "email" = Some (JStr e) /\
    toLowerCase e = lowerEmail.
Proof.
  unfold emailMatches, readJSON.
  destruct (readFileSync fs file) as [| |j]; simpl; try discriminate.
  destruct j as [| | | | |fields]; simpl; try discriminate.
  destruct (assoc "email" fields) as [[| | |e| |]|] eqn:Ee; simpl;
    try discriminate.
  intros H. apply String.eqb_eq in H. exists (JObj fields), e. auto.
Qed.

(** A file that cannot be read or parsed is passed over without an error. *)
Lemma emailMatches_tolerant fs lowerEmail file :
  readFileSync fs file = Unreadable \/ readFileSync fs file = Malformed ->
  emailMatches fs lowerEmail file = false.
Proof.
  unfold emailMatches, readJSON. now intros [-> | ->].
Qed.

Lemma scanOnce_found fs authDir lowerEmail file :
  scanOnce fs authDir lowerEmail = Ok (Some file) ->
  exists entries d j e,
    readdirSync fs authDir = Ok entries /\
    In d entries /\
    isFile d = true /\
    startsWith (name d) "codex-" = true /\
    endsWith (name d) ".json" = true /\
    file = join authDir (name d) /\
    readFileSync fs file = Parsed j /\
    field j "email" = Some (JStr e) /\
    toLowerCase e = lowerEmail.
Proof.
  unfold scanOnce. destruct (readdirSync fs authDir) as [entries|msg];
    simpl; [|discriminate].
  intros [= H]. apply find_some in H as [Hin Hm].
  apply in_map_iff in Hin as (d & <- & Hd). apply filter_In in Hd as [Hd Ha].
  unfold isArtifact in Ha.
  apply andb_true_iff in Ha as [Ha Hjson]. apply andb_true_iff in Ha as [Hf Hc].
  apply emailMatches_true in Hm as (j & e & Hr & He & Hl).
  exists entries, d, j, e. repeat split; assumption.
Qed.

Lemma scanOnce_listing fs authDir lowerEmail :
  (exists entries, readdirSync fs authDir = Ok entries) <->
  (exists r, scanOnce fs authDir lowerEmail = Ok r).
Proof.
  unfold scanOnce. destruct (readdirSync fs authDir) as [entries|msg]; simpl.
  - split; eauto.
  - split; intros [x H]; discriminate.
Qed.

(** Part of C8: a file is returned only if, at a pass begun before the
    timeout, the directory lists it as a file named codex-*.json and its
    parsed content has a string email equal, case folded, to the account's. *)
Lemma waitForAuthFileByEmail_found tl authDir email timeoutMs file :
  waitForAuthFileByEmail tl authDir email timeoutMs = Ok (Some file) ->
  exists k entries d j e,
    (1000 * Z.of_nat k < timeoutMs)%Z /\
    readdirSync (snapshot tl k) authDir = Ok entries /\
    In d entries /\
    isFile d = true /\
    startsWith (name d) "codex-" = true /\
    endsWith (name d) ".json" = true /\
    file = join authDir (name d) /\
    readFileSync (snapshot tl k) file = Parsed j /\
    field j "email" = Some (JStr e) /\
    toLowerCase e = toLowerCase email.
Proof.
  unfold waitForAuthFileByEmail. intros H.
  destruct (pollLoop_run tl authDir (toLowerCase email) timeoutMs 0)
    as (k & _ & _ & [[_ Hr]|(Ht & _ & Hr)]); simpl elapsedAt in Hr;
    rewrite Hr in H; [discriminate|].
  apply scanOnce_found in H as (entries & d & j & e & H).
  exists k, entries, d, j, e. split; [|exact H].
  pose proof (elapsedAt_lower_bound tl k). lia.
Qed.

(** Part of C8: when the directory can be listed at every pass and no pass
    begun before the timeout finds a file, the result is undefined. *)
Lemma waitForAuthFileByEmail_timeout tl authDir email timeoutMs :
  (forall k, (elapsedAt tl k < timeoutMs)%Z ->
     scanOnce (snapshot tl k) authDir (toLowerCase email) = Ok None) ->
  waitForAuthFileByEmail tl authDir email timeoutMs = Ok None.
Proof.
  intros Hnone. unfold waitForAuthFileByEmail.
  destruct (pollLoop_run tl authDir (toLowerCase email) timeoutMs 0)
    as (k & _ & _ & [[_ Hr]|(Ht & Hs & _)]); simpl elapsedAt in *.
  - exact Hr.
  - now elim Hs; apply Hnone.
Qed.

(** The verifier returns whenever the directory can be listed. *)
Lemma waitForAuthFileByEmail_returns tl authDir email timeoutMs :
  (forall k, exists entries, readdirSync (snapshot tl k) authDir = Ok entries) ->
  exists r, waitForAuthFileByEmail tl authDir email timeoutMs = Ok r.
Proof.
  intros Hlist. unfold waitForAuthFileByEmail.
  destruct (pollLoop_run tl authDir (toLowerCase email) timeoutMs 0)
    as (k & _ & _ & [[_ Hr]|(_ & _ & Hr)]); simpl elapsedAt in Hr;
    rewrite Hr; [eauto|].
  apply scanOnce_listing, Hlist.
Qed.

(** The verifier raises only what listing the directory raises. *)
Lemma waitForAuthFileByEmail_throws tl authDir email timeoutMs msg :
  waitForAuthFileByEmail tl authDir email timeoutMs = Throw msg ->
  exists k, (elapsedAt tl k < timeoutMs)%Z /\
            readdirSync (snapshot tl k) authDir = Throw msg.
Proof.
  unfold waitForAuthFileByEmail. intros H.
  destruct (pollLoop_run tl authDir (toLowerCase email) timeoutMs 0)
    as (k & _ & _ & [[_ Hr]|(Ht & _ & Hr)]); simpl elapsedAt in Hr;
    rewrite Hr in H; [discriminate|].
  exists k. split; [exact Ht|]. unfold scanOnce in H.
  destruct (readdirSync (snapshot tl k) authDir); [discriminate|].
  simpl in H. now injection H as ->.
Qed.

End CpamcFacts.

Section MainFacts.
Context {R : Runtime}.
Import Main.

Variable opts : RunOptions.

Lemma result_resultFor w a st c m f :
  Spec.resultFor opts a (result opts w a st c m f).
Proof.
  unfold Spec.resultFor. simpl. repeat split. destruct st; auto.
Qed.

Lemma reconcile_resultFor w a flowResult challenge status r :
  reconcile opts w a flowResult challenge status = Ok r ->
  Spec.resultFor opts a r.
Proof.
  unfold reconcile, failure.
  destruct (FlowResult.invalidCredentials flowResult);
    [intros [= <-]; apply result_resultFor|].
  destruct challenge; [intros [= <-]; apply result_resultFor|].
  destruct (Cpamc.CpamcAuthStatus.status status);
    try (intros [= <-]; apply result_resultFor).
  destruct (Cpamc.waitForAuthFileByEmail _ _ _ _) as [[[|c f]|]|msg]; simpl;
    try discriminate; intros [= <-]; apply result_resultFor.
Qed.

Lemma tryBlock_resultFor w a r :
  tryBlock opts w a = Ok r -> Spec.resultFor opts a r.
Proof.
  unfold tryBlock, failure.
  destruct (newControlPage w); simpl; [|discriminate].
  destruct (ensureCpamcLogin w); simpl; [|discriminate].
  destruct (gotoOauthPage w); simpl; [|discriminate].
  destruct (startCodexOauthAndGetUrl w) as [authUrl|]; simpl; [|discriminate].
  destruct (Cpamc.getStateFromAuthUrl authUrl) as [[|c state]|];
    try (intros [= <-]; apply result_resultFor).
  destruct (newAuthPage w); simpl; [|discriminate].
  destruct (runLoginFlow w authUrl) as [flowResult|]; simpl; [|discriminate].
  destruct (challengeAfterFlow opts w flowResult) as [challenge|]; simpl;
    [|discriminate].
  destruct (pollCpamcAuthStatus w _ _) as [status|]; simpl; [|discriminate].
  apply reconcile_resultFor.
Qed.

Lemma iteration_Ok w a :
  newContext w = Ok tt ->
  iteration opts w a
  = Ok (try_catch (tryBlock opts w a)
          (fun message => failure opts w a (errorCode message) message)).
Proof. intros H. unfold iteration. now rewrite H. Qed.

Lemma iteration_resultFor w a r :
  iteration opts w a = Ok r -> Spec.resultFor opts a r.
Proof.
  unfold iteration. destruct (newContext w); simpl; [|discriminate].
  intros [= <-]. unfold try_catch.
  destruct (tryBlock opts w a) eqn:E.
  - now apply tryBlock_resultFor with w.
  - apply result_resultFor.
Qed.

(** The results pushed by the loop are one per account of the prefix it
    has processed; it processes all of them unless an iteration throws. *)
Lemma loopFrom_results worlds accounts i results rs aborted :
  loopFrom opts worlds i accounts results = (rs, aborted) ->
  exists news,
    rs = (results ++ news)%list /\
    Forall2 (Spec.resultFor opts) (firstn (length news) accounts) news /\
    length news <= length accounts /\
    (aborted = None -> length news = length accounts).
Proof.
  revert i results. induction accounts as [|a rest IH]; intros i results; simpl.
  - intros [= <- <-]. exists []. rewrite app_nil_r. simpl. auto.
  - destruct (iteration opts (worlds i) a) as [r|msg] eqn:Ei.
    + intros H. apply IH in H as (news & -> & HF & Hle & Hall).
      exists (r :: news). rewrite <- app_assoc. simpl.
      repeat split; [|lia|intros Ha; rewrite (Hall Ha); reflexivity].
      constructor; [now apply iteration_resultFor with (worlds i)|exact HF].
    + intros [= <- <-]. exists []. rewrite app_nil_r. simpl.
      repeat split; [constructor|lia|discriminate].
Qed.

Lemma loopFrom_completes worlds accounts i results :
  (forall j, j < length accounts -> newContext (worlds (i + j)) = Ok tt) ->
  exists rs, loopFrom opts worlds i accounts results = (rs, None).
Proof.
  revert i results. induction accounts as [|a rest IH]; intros i results H;
    simpl; [eauto|].
  rewrite iteration_Ok
    by (specialize (H 0); rewrite Nat.add_0_r in H; apply H; simpl; lia).
  apply IH. intros j Hj. replace (S i + j) with (i + S j) by lia.
  apply H. simpl. lia.
Qed.

(** Every summary the command arrives at reports one result per account. *)
Lemma summary_one_result_per_account worlds browserClose accounts summary :
  runAuthCommand opts worlds browserClose accounts = Ok summary ->
  Forall2 (Spec.resultFor opts) accounts (results summary) /\
  total summary = length accounts.
Proof.
  unfold runAuthCommand.
  destruct (loopFrom opts worlds 0 accounts []) as [rs aborted] eqn:El.
  destruct browserClose; simpl; [|discriminate].
  destruct aborted; [discriminate|]. intros [= <-]. simpl.
  apply loopFrom_results in El as (news & -> & HF & _ & Hall).
  specialize (Hall eq_refl). simpl. rewrite Hall, firstn_all in HF. auto.
Qed.

(** C1. When every account's browser context can be opened and the browser
    closes, the command arrives at its summary, and the results of the
    summary are one per input account, in input order, each with the
    account's email and plan and with status success, failed or skipped,
    whatever happens inside the accounts' try blocks. *)
Theorem one_result_per_account worlds accounts :
  (forall i, i < length accounts -> newContext (worlds i) = Ok tt) ->
  exists summary,
    runAuthCommand opts worlds (Ok tt) accounts = Ok summary /\
    Forall2 (Spec.resultFor opts) accounts (results summary) /\
    length (results summary) = length accounts.
Proof.
  intros H.
  destruct (loopFrom_completes worlds accounts 0 [] H) as [rs Hrs].
  assert (Hrun : exists summary,
             runAuthCommand opts worlds (Ok tt) accounts = Ok summary).
  { unfold runAuthCommand. rewrite Hrs. simpl. eauto. }
  destruct Hrun as [summary Hs]. exists summary. split; [exact Hs|].
  destruct (summary_one_result_per_account _ _ _ _ Hs) as [HF _].
  split; [exact HF|]. symmetry. now apply Forall2_length with (1 := HF).
Qed.

(** C7. An exception that leaves the try block of an account whose browser
    context was opened is caught: the iteration records a failed result with
    the exception's message, its code chosen by searching the lower-cased
    message for "management key", else "auth url", else "timeout", else
    UNKNOWN, and the loop goes on with the remaining accounts. *)
Theorem caught_exception_recorded worlds i account rest results message :
  newContext (worlds i) = Ok tt ->
  tryBlock opts (worlds i) account = Throw message ->
  exists r,
    iteration opts (worlds i) account = Ok r /\
    AuthResult.email r = AccountCredential.email account /\
    AuthResult.status r = failed /\
    AuthResult.message r = Some message /\
    (let lower := toLowerCase message in
     AuthResult.code r =
     Some (if includes lower "management key" then CPAMC_LOGIN_FAILED
           else if includes lower "auth url" then CPAMC_LINK_NOT_FOUND
           else if includes lower "timeout" then LOGIN_REJECTED
           else UNKNOWN)) /\
    loopFrom opts worlds i (account :: rest) results
    = loopFrom opts worlds (S i) rest (results ++ [r])%list.
Proof.
  intros Hc Ht. eexists. split; [now apply iteration_Ok|].
  rewrite Ht. simpl. repeat split.
  now rewrite (iteration_Ok _ _ Hc), Ht.
Qed.

Lemma tryBlock_reconcile w account flowResult challenge status :
  Spec.reachesReconciliation opts w flowResult challenge status ->
  tryBlock opts w account = reconcile opts w account flowResult challenge status.
Proof.
  intros (H1 & H2 & H3 & authUrl & state & H4 & H5 & H6 & H7 & H8 & H9 & H10).
  unfold tryBlock. rewrite H1, H2, H3, H4. simpl. rewrite H5.
  destruct state as [|c state]; [now elim H6|].
  rewrite H7. simpl. rewrite H8. simpl. rewrite H9. simpl. rewrite H10.
  reflexivity.
Qed.



(** Part of C8: when the verifier returns undefined the account is recorded
    as failed with WRITE_FAILED. *)
Lemma verifier_timeout_recorded w account flowResult status :
  newContext w = Ok tt ->
  Spec.reachesReconciliation opts w flowResult false status ->
  FlowResult.invalidCredentials flowResult = false ->
  Cpamc.CpamcAuthStatus.status status = Cpamc.success ->
  Cpamc.waitForAuthFileByEmail (authDirTimeline w) (outDir opts)
    (AccountCredential.email account) (timeoutMs opts) = Ok None ->
  exists r,
    iteration opts w account = Ok r /\
    AuthResult.status r = failed /\
    AuthResult.code r = Some WRITE_FAILED.
Proof.
  intros Hc Hr Hi Hs Hw. eexists. split; [now apply iteration_Ok|].
  rewrite (tryBlock_reconcile _ account _ _ _ Hr). unfold reconcile.
  rewrite Hi, Hs, Hw. simpl. auto.
Qed.

End MainFacts.

(* ===================================================================== *)
(** ** Further properties of the orchestrator and the rotation indexer *)
(* ===================================================================== *)

Section OrchestratorMore.
Context {R : Runtime}.
Import Main.

Variable opts : RunOptions.

Lemma reconcile_shape w a flowResult challenge status r :
  reconcile opts w a flowResult challenge status = Ok r ->
  Props.recordedShape r.
Proof.
  unfold reconcile, failure, Props.recordedShape.
  destruct (FlowResult.invalidCredentials flowResult);
    [intros [= <-]; simpl; eauto|].
  destruct challenge; [intros [= <-]; simpl; eauto|].
  destruct (Cpamc.CpamcAuthStatus.status status);
    try (intros [= <-]; simpl; eauto).
  destruct (Cpamc.waitForAuthFileByEmail _ _ _ _) as [[[|c f]|]|msg]; simpl;
    try discriminate; intros [= <-]; simpl; eauto.
Qed.

Lemma tryBlock_shape w a r :
  tryBlock opts w a = Ok r -> Props.recordedShape r.
Proof.
  unfold tryBlock, failure.
  destruct (newControlPage w); simpl; [|discriminate].
  destruct (ensureCpamcLogin w); simpl; [|discriminate].
  destruct (gotoOauthPage w); simpl; [|discriminate].
  destruct (startCodexOauthAndGetUrl w) as [authUrl|]; simpl; [|discriminate].
  destruct (Cpamc.getStateFromAuthUrl authUrl) as [[|c state]|];
    try (intros [= <-]; unfold Props.recordedShape; simpl; eauto).
  destruct (newAuthPage w); simpl; [|discriminate].
  destruct (runLoginFlow w authUrl) as [flowResult|]; simpl; [|discriminate].
  destruct (challengeAfterFlow opts w flowResult) as [challenge|]; simpl;
    [|discriminate].
  destruct (pollCpamcAuthStatus w _ _) as [status|]; simpl; [|discriminate].
  apply reconcile_shape.
Qed.

(** What one iteration records. *)
Lemma iteration_shape w a r :
  iteration opts w a = Ok r -> Props.recordedShape r.
Proof.
  unfold iteration. destruct (newContext w); simpl; [|discriminate].
  intros [= <-]. unfold try_catch.
  destruct (tryBlock opts w a) eqn:E.
  - now apply tryBlock_shape with w a.
  - unfold Props.recordedShape, failure. simpl. eauto.
Qed.

Lemma loopFrom_Forall (P : AuthResult.t -> Prop) worlds :
  (forall w a r, iteration opts w a = Ok r -> P r) ->
  forall accounts i results rs aborted,
    Forall P results ->
    loopFrom opts worlds i accounts results = (rs, aborted) ->
    Forall P rs.
Proof.
  intros HP. induction accounts as [|a rest IH]; intros i results rs aborted Hres;
    simpl.
  - now intros [= <- <-].
  - destruct (iteration opts (worlds i) a) as [r|msg] eqn:Ei.
    + apply IH. apply Forall_app. split; [exact Hres|].
      constructor; [now apply HP with (worlds i) a|constructor].
    + now intros [= <- <-].
Qed.

(** X1. Every result the loop records, also in a batch that an exception
    ends early, is a success that names a file, with neither code nor
    message, or a failure with a code and a message and no file; none is
    skipped. *)
Theorem recorded_result_shape worlds i accounts :
  Forall Props.recordedShape (fst (loopFrom opts worlds i accounts [])).
Proof.
  destruct (loopFrom opts worlds i accounts []) as [rs aborted] eqn:El.
  apply (loopFrom_Forall Props.recordedShape worlds iteration_shape
           accounts i [] rs aborted); [constructor|exact El].
Qed.

Lemma status_partition (rs : list AuthResult.t) :
  length (filter (hasStatus success) rs)
  + length (filter (hasStatus failed) rs)
  + length (filter (hasStatus skipped) rs) = length rs.
Proof.
  induction rs as [|r rs IH]; [reflexivity|].
  unfold hasStatus in *. simpl. destruct (AuthResult.status r); simpl; lia.
Qed.

Lemma no_skipped (rs : list AuthResult.t) :
  Forall Props.recordedShape rs ->
  filter (hasStatus skipped) rs = [].
Proof.
  induction 1 as [|r rs Hr _ IH]; [reflexivity|].
  simpl. unfold hasStatus at 1. unfold Props.recordedShape in Hr.
  destruct (AuthResult.status r); try exact IH. destruct Hr.
Qed.

(** X2. A summary that is reached counts every account once, as a success
    or as a failure, and nothing as skipped. *)
Theorem summary_counts worlds browserClose accounts summary :
  runAuthCommand opts worlds browserClose accounts = Ok summary ->
  total summary = length accounts /\
  n_skipped summary = 0 /\
  n_success summary + n_failed summary = total summary /\
  Forall Props.recordedShape (results summary).
Proof.
  unfold runAuthCommand.
  destruct (loopFrom opts worlds 0 accounts []) as [rs aborted] eqn:El.
  destruct browserClose; simpl; [|discriminate].
  destruct aborted; [discriminate|]. intros [= <-]. simpl.
  assert (Hshape : Forall Props.recordedShape rs).
  { apply (loopFrom_Forall Props.recordedShape worlds
             iteration_shape accounts 0 [] rs None); [constructor|exact El]. }
  pose proof (loopFrom_results opts worlds accounts 0 [] rs None El)
    as (news & Hrs & _ & _ & Hall).
  simpl in Hrs. subst news. specialize (Hall eq_refl).
  pose proof (status_partition rs) as Hp.
  rewrite (no_skipped rs Hshape) in *. simpl in *.
  repeat split; try lia. exact Hshape.
Qed.

Lemma iteration_success_inv w a r :
  iteration opts w a = Ok r ->
  AuthResult.status r = success ->
  Cpamc.waitForAuthFileByEmail (authDirTimeline w) (outDir opts)
    (AccountCredential.email a) (timeoutMs opts) = Ok (AuthResult.file r).
Proof.
  unfold iteration. destruct (newContext w); simpl; [|discriminate].
  intros [= <-]. unfold try_catch, tryBlock, failure.
  destruct (newControlPage w); simpl; try discriminate.
  destruct (ensureCpamcLogin w); simpl; try discriminate.
  destruct (gotoOauthPage w); simpl; try discriminate.
  destruct (startCodexOauthAndGetUrl w) as [authUrl|]; simpl; try discriminate.
  destruct (Cpamc.getStateFromAuthUrl authUrl) as [[|c state]|];
    simpl; try discriminate.
  destruct (newAuthPage w); simpl; try discriminate.
  destruct (runLoginFlow w authUrl) as [flowResult|]; simpl; try discriminate.
  destruct (challengeAfterFlow opts w flowResult) as [challenge|]; simpl;
    try discriminate.
  destruct (pollCpamcAuthStatus w _ _) as [status|]; simpl; try discriminate.
  unfold reconcile, failure.
  destruct (FlowResult.invalidCredentials flowResult); simpl; try discriminate.
  destruct challenge; simpl; try discriminate.
  destruct (Cpamc.CpamcAuthStatus.status status); simpl; try discriminate.
  destruct (Cpamc.waitForAuthFileByEmail _ _ _ _) as [[[|c' f]|]|msg]; simpl;
    try discriminate.
  reflexivity.
Qed.

(** X3. The file of a success was listed in the auth directory by a pass
    of the verifier begun before the timeout, under an artifact name, and
    held the account's email, letter case apart. *)
Theorem success_file_provenance w a r :
  iteration opts w a = Ok r ->
  AuthResult.status r = success ->
  exists k entries d j e,
    (1000 * Z.of_nat k < timeoutMs opts)%Z /\
    readdirSync (Cpamc.snapshot (authDirTimeline w) k) (outDir opts) = Ok entries /\
    In d entries /\
    isFile d = true /\
    startsWith (name d) "codex-" = true /\
    endsWith (name d) ".json" = true /\
    AuthResult.file r = Some (join (outDir opts) (name d)) /\
    readFileSync (Cpamc.snapshot (authDirTimeline w) k)
      (join (outDir opts) (name d)) = Parsed j /\
    field j "email" = Some (JStr e) /\
    toLowerCase e = toLowerCase (AccountCredential.email a).
Proof.
  intros Hi Hs. pose proof (iteration_success_inv w a r Hi Hs) as Hw.
  pose proof (iteration_shape w a r Hi) as Hshape.
  unfold Props.recordedShape in Hshape. rewrite Hs in Hshape.
  destruct Hshape as (_ & _ & c & f & Hf). rewrite Hf in Hw.
  apply waitForAuthFileByEmail_found in Hw
    as (k & entries & d & j & e & H1 & H2 & H3 & H4 & H5 & H6 & H7 & H8 & H9 & H10).
  exists k, entries, d, j, e. rewrite Hf, <- H7. repeat split; assumption.
Qed.

(** X6. With a timeout that is zero or negative no account is recorded as
    a success: the verifier does not begin a single pass. *)
Theorem no_success_without_time w a r :
  (timeoutMs opts <= 0)%Z ->
  iteration opts w a = Ok r ->
  AuthResult.status r = failed /\
  exists c m, AuthResult.code r = Some c /\ AuthResult.message r = Some m.
Proof.
  intros Ht Hi.
  pose proof (iteration_shape w a r Hi) as Hshape.
  unfold Props.recordedShape in Hshape.
  destruct (AuthResult.status r) eqn:Hs.
  - exfalso. destruct Hshape as (_ & _ & c & f & Hf).
    pose proof (iteration_success_inv w a r Hi Hs) as Hw. rewrite Hf in Hw.
    apply waitForAuthFileByEmail_found in Hw as (k & _ & _ & _ & _ & Hk & _).
    lia.
  - destruct Hshape as ((c & Hc) & (m & Hm) & _). eauto.
  - destruct Hshape.
Qed.

End OrchestratorMore.

Section RotateMore.
Context {R : Runtime}.
Import Rotate Spec.

Lemma existing_none fs outPath :
  Props.noUsablePrior fs outPath -> existingAccounts fs outPath = [].
Proof.
  unfold existingAccounts, readJSON.
  intros [H|[H|[H|(j & H & Hj)]]]; rewrite H; try reflexivity;
    destruct (existsSync fs outPath); try reflexivity.
  destruct j as [| | | | |fields]; try reflexivity. simpl in *.
  destruct (assoc "accounts" fields) as [[| | | |items|]|]; try reflexivity.
  now elim (Hj items).
Qed.

Lemma setAllPure_distinct l :
  forallb wellFormed l = true ->
  NoDup (map accountKey l) ->
  map_values (setAllPure l []) = l.
Proof.
  intros Hw Hnd.
  set (m := map (fun e => (keyOf e, e)) l).
  assert (Hv : map_values m = l).
  { unfold m, map_values. rewrite map_map. simpl. apply map_id. }
  assert (Hk : keyed m).
  { intros k v Hin. unfold m in Hin. apply in_map_iff in Hin as (e & [= <- <-] & He).
    apply accountKey_wellFormed. exact (proj1 (forallb_forall _ _) Hw e He). }
  assert (Hn : NoDup (map fst m)).
  { unfold m. rewrite map_map. simpl.
    clear m Hv Hk. induction l as [|e l IH]; [constructor|].
    simpl in *. apply andb_true_iff in Hw as [He Hl].
    inversion Hnd as [|? ? Hni Hnd']; subst. constructor; [|now apply IH].
    intros Hin. apply Hni. apply in_map_iff in Hin as (e' & Hk' & He').
    apply in_map_iff. exists e'. split; [|exact He'].
    rewrite (accountKey_wellFormed e He).
    rewrite (accountKey_wellFormed e' (proj1 (forallb_forall _ _) Hl e' He')).
    now rewrite Hk'. }
  rewrite <- Hv at 1. rewrite (setAllPure_rebuild m [] Hk Hn). exact Hv.
Qed.

(** X4. Without a usable index at the output path, writeRotationIndex hands
    to the write of the file the entries of the scan, when their keys are
    distinct, as they are and in their order, with the counts taken anew;
    it returns when that write returns and throws what that write throws. *)
Theorem write_without_usable_prior writeFileSync stamp fs outPath index :
  Props.noUsablePrior fs outPath ->
  forallb wellFormed (accounts index) = true ->
  NoDup (map accountKey (accounts index)) ->
  RotateDisk.writeRotationIndex writeFileSync stamp fs outPath index
  = writeFileSync outPath (toJSON (mkIndex stamp (accounts index))).
Proof.
  intros Hp Hw Hnd. unfold RotateDisk.writeRotationIndex.
  rewrite (writeRotationIndex_eq stamp fs outPath index Hw).
  unfold mergedMap. rewrite (existing_none fs outPath Hp). simpl.
  now rewrite (setAllPure_distinct _ Hw Hnd).
Qed.

(** X5. The scan throws what listing the directory throws and nothing
    else; it gives one entry for each artifact listed, in the order of the
    listing. *)
Theorem buildRotationIndex_one_entry_per_artifact now stamp fs dir :
  match readdirSync fs dir with
  | Throw msg => buildRotationIndex now stamp fs dir = Throw msg
  | Ok entries =>
      exists index,
        buildRotationIndex now stamp fs dir = Ok index /\
        total index = length (filter isArtifact entries) /\
        map (fun a => field a "file") (accounts index)
        = map (fun d => Some (JStr (join dir (name d))))
            (filter isArtifact entries) /\
        forall a, In a (accounts index) ->
          exists email, field a "email" = Some (JStr email)
  end.
Proof.
  unfold buildRotationIndex, scannedFiles.
  destruct (readdirSync fs dir) as [entries|msg]; [|reflexivity].
  simpl. eexists. split; [reflexivity|]. simpl.
  rewrite !length_map. split; [reflexivity|]. split.
  - rewrite !map_map. apply map_ext. intros d.
    destruct (classify_shape (now (join dir (name d))) fs (join dir (name d)))
      as (e & x & s & -> & _). reflexivity.
  - intros a Ha. apply in_map_iff in Ha as (f & <- & _).
    destruct (classify_shape (now f) fs f) as (e & x & s & -> & _).
    now exists e.
Qed.

Lemma mkEntry_fields e file x st :
  field (mkEntry e file x st) "file" = Some (JStr file) /\
  field (mkEntry e file x st) "email" = Some (JStr e) /\
  field (mkEntry e file x st) "expired"
  = match x with Some s => Some (JStr s) | None => None end.
Proof. destruct x; repeat split. Qed.

(** X7. The entry of an artifact names the file it was read from; it shows
    the email and the expiry of the content when these are strings, the
    name of the file for the email when the content has none, and both
    fall back when the content cannot be read or parsed or is null. *)
Theorem classify_fields now fs file :
  let entry := classify now fs file in
  field entry "file" = Some (JStr file) /\
  match readFileSync fs file with
  | Parsed (JObj fields) =>
      field entry "email"
      = Some (JStr match assoc "email" fields with
                   | Some (JStr s) => s
                   | _ => basename file
                   end) /\
      field entry "expired"
      = match assoc "expired" fields with
        | Some (JStr s) => Some (JStr s)
        | _ => None
        end
  | _ =>
      field entry "email" = Some (JStr (basename file)) /\
      field entry "expired" = None
  end.
Proof.
  cbv zeta.
  destruct (classify_shape now fs file) as (e & x & st & Hc & _).
  pose proof (mkEntry_fields e file x st) as (Hfile & Hemail & Hexpired).
  rewrite Hc. split; [exact Hfile|]. rewrite Hemail, Hexpired.
  revert Hc. unfold classify, readJSON.
  assert (Hinj : forall e' x' st',
    mkEntry e' file x' st' = mkEntry e file x st -> e' = e /\ x' = x).
  { intros e' x' st' H. unfold mkEntry in H. injection H as He Hrest.
    split; [exact He|].
    destruct x' as [x'|], x as [x0|]; simpl in Hrest; try discriminate.
    - now injection Hrest as -> _.
    - reflexivity. }
  destruct (readFileSync fs file) as [| |j].
  - intros H. apply Hinj in H as [<- <-]. auto.
  - intros H. apply Hinj in H as [<- <-]. auto.
  - destruct j as [|b|n|s|items|fields];
      try (intros H; apply Hinj in H as [<- <-]; now auto).
    cbn -[mkEntry String.eqb Z.ltb].
    set (email := match assoc "email" fields with
                  | Some (JStr s) => s
                  | _ => basename file
                  end).
    set (expired := match assoc "expired" fields with
                    | Some (JStr s) => Some s
                    | _ => None
                    end).
    assert (Hx : match expired with Some s => Some (JStr s) | None => None end
                 = match assoc "expired" fields with
                   | Some (JStr s) => Some (JStr s)
                   | _ => None
                   end).
    { unfold expired. now destruct (assoc "expired" fields) as [[| | | | |]|]. }
    rewrite <- Hx.
    destruct (match assoc "disabled" fields with
              | Some (JBool true) => true
              | _ => false
              end);
      [intros H; apply Hinj in H as [<- <-]; now auto|].
    match goal with
    | |- context [if ?c then _ else _] => destruct c
    end; intros H; apply Hinj in H as [<- <-]; auto.
Qed.
End RotateMore.

Section AuthThenIndex.
Context {R : Runtime}.
Import Main.

Variable opts : RunOptions.

Lemma classify_object now fs file fields :
  readFileSync fs file = Parsed (JObj fields) ->
  exists e x st,
    Rotate.classify now fs file = Rotate.mkEntry e file x st /\
    e = match assoc "email" fields with
        | Some (JStr s) => s
        | _ => basename file
        end /\
    In st ["disabled"; "expired"; "active"].
Proof.
  intros Hr. unfold Rotate.classify, readJSON. rewrite Hr.
  cbn -[Rotate.mkEntry String.eqb Z.ltb].
  destruct (match assoc "disabled" fields with
            | Some (JBool true) => true
            | _ => false
            end).
  - do 3 eexists. split; [reflexivity|]. split; [reflexivity|]. simpl. auto.
  - match goal with
    | |- context [if ?c then _ else _] => destruct c
    end; do 3 eexists; (split; [reflexivity|]); (split; [reflexivity|]);
      simpl; auto.
Qed.

(** X8. An account recorded as a success is found by the rotation scan of
    the auth directory as the verifier saw it: the scan lists the file of
    the result, with the email the artifact holds (the account's, letter
    case apart) and a status that is not invalid. *)
Theorem success_is_indexed w a r now stamp :
  iteration opts w a = Ok r ->
  AuthResult.status r = success ->
  exists k f index entry e,
    (1000 * Z.of_nat k < timeoutMs opts)%Z /\
    AuthResult.file r = Some f /\
    Rotate.buildRotationIndex now stamp
      (Cpamc.snapshot (authDirTimeline w) k) (outDir opts) = Ok index /\
    In entry (Rotate.accounts index) /\
    field entry "file" = Some (JStr f) /\
    field entry "email" = Some (JStr e) /\
    toLowerCase e = toLowerCase (AccountCredential.email a) /\
    Rotate.hasStatus "invalid" entry = false.
Proof.
  intros Hi Hs. pose proof (iteration_success_inv opts w a r Hi Hs) as Hw.
  destruct (AuthResult.file r) as [f|] eqn:Hf.
  2:{ exfalso. pose proof (iteration_shape opts w a r Hi) as Hshape.
      unfold Props.recordedShape in Hshape. rewrite Hs in Hshape.
      destruct Hshape as (_ & _ & c & f & E). congruence. }
  apply waitForAuthFileByEmail_found in Hw
    as (k & entries & d & j & e & Hk & Hdir & Hd & Hfile & Hpre & Hsuf & Hjoin
        & Hread & Hemail & Hlow).
  set (fs := Cpamc.snapshot (authDirTimeline w) k) in *.
  destruct j as [| | | | |fields]; try discriminate. simpl in Hemail.
  destruct (classify_object (now f) fs f fields Hread)
    as (e' & x & st & Hc & He' & Hst).
  rewrite Hemail in He'. subst e'.
  exists k, f, (Rotate.mkIndex stamp
                  (map (fun p => Rotate.classify (now p) fs p)
                     (map (fun d => join (outDir opts) (name d))
                        (filter isArtifact entries)))),
    (Rotate.mkEntry e f x st), e.
  split; [exact Hk|]. split; [reflexivity|]. split.
  { unfold Rotate.buildRotationIndex, Rotate.scannedFiles. fold fs.
    now rewrite Hdir. }
  split.
  { cbn [Rotate.accounts Rotate.mkIndex]. rewrite <- Hc.
    apply in_map_iff. exists f. split; [reflexivity|].
    apply in_map_iff. exists d. split; [now rewrite Hjoin|].
    apply filter_In. split; [exact Hd|].
    unfold isArtifact. now rewrite Hfile, Hpre, Hsuf. }
  split; [reflexivity|]. split; [reflexivity|]. split; [exact Hlow|].
  unfold Rotate.hasStatus.
  assert (Hfield : field (Rotate.mkEntry e f x st) "status" = Some (JStr st))
    by (destruct x; reflexivity).
  rewrite Hfield. simpl in Hst.
  destruct Hst as [<-|[<-|[<-|[]]]]; reflexivity.
Qed.

End AuthThenIndex.

(* ===================================================================== *)
(** ** Text: characters, trimming, splitting, matching *)
(* ===================================================================== *)

Section TextFacts.
Import Text Props.

Lemma string_length_ind (P : string -> Prop) :
  (forall s, (forall t, String.length t < String.length s -> P t) -> P s) ->
  forall s, P s.
Proof.
  intros H s. remember (String.length s) as n eqn:Hn.
  revert s Hn. induction n as [n IH] using lt_wf_ind.
  intros s ->. apply H. intros t Ht. now apply (IH _ Ht).
Qed.

Lemma unchars_app l1 l2 : unchars (l1 ++ l2)%list = unchars l1 ++ unchars l2.
Proof.
  induction l1 as [|x l1 IH]; simpl; [reflexivity|].
  now rewrite IH, append_assoc.
Qed.

Lemma append_empty_r (s : string) : s ++ EmptyString = s.
Proof. induction s; simpl; congruence. Qed.

Lemma unchars_cons x l : unchars (x :: l) = x ++ unchars l.
Proof. reflexivity. Qed.

Lemma chars_three a b c r3 :
  chars (String a (String b (String c r3)))
  = if isWhiteSpace (String a (String b (String c EmptyString)))
    then String a (String b (String c EmptyString)) :: chars r3
    else if isWhiteSpace (String a (String b EmptyString))
    then String a (String b EmptyString) :: chars (String c r3)
    else String a EmptyString :: chars (String b (String c r3)).
Proof. reflexivity. Qed.

Lemma unchars_chars s : unchars (chars s) = s.
Proof.
  induction s as [s IH] using string_length_ind.
  destruct s as [|a [|b [|c r3]]]; try reflexivity.
  - simpl. destruct (isWhiteSpace _); reflexivity.
  - rewrite chars_three.
    destruct (isWhiteSpace (String a (String b (String c EmptyString)))).
    + rewrite unchars_cons, IH by (simpl; lia). reflexivity.
    + destruct (isWhiteSpace (String a (String b EmptyString)));
        rewrite unchars_cons, IH by (simpl; lia); reflexivity.
Qed.

Lemma dropWhile_none {A : Type} (p : A -> bool) l :
  forallb (fun x => negb (p x)) l = true -> dropWhile p l = l.
Proof.
  destruct l as [|x l]; [reflexivity|]. simpl.
  intros H. apply andb_true_iff in H as [H _].
  now destruct (p x).
Qed.

Lemma forallb_rev {A : Type} (p : A -> bool) l :
  forallb p (rev l) = forallb p l.
Proof.
  induction l as [|x l IH]; [reflexivity|]. simpl.
  rewrite forallb_app, IH. simpl. rewrite andb_true_r. apply andb_comm.
Qed.

(** A text without white space is its own trimming. *)
Lemma trim_no_space s :
  forallb (fun c => negb (isWhiteSpace c)) (chars s) = true -> trim s = s.
Proof.
  intros H. unfold trim.
  rewrite (dropWhile_none _ _ H).
  rewrite dropWhile_none by now rewrite forallb_rev.
  now rewrite rev_involutive, unchars_chars.
Qed.

(** *** Matching *)

Lemma nullable_Matches r : nullable r = true <-> Matches r [].
Proof.
  split.
  - induction r; simpl; intros H; try discriminate.
    + constructor.
    + apply andb_true_iff in H as [H1 H2].
      apply (MSeq r1 r2 [] []); auto.
    + apply orb_true_iff in H as [H|H]; [apply MAltL|apply MAltR]; auto.
    + constructor.
  - intros H. remember [] as l eqn:Hl. induction H; simpl; subst;
      try reflexivity; try discriminate.
    + apply app_eq_nil in Hl as [-> ->]. now rewrite IHMatches1, IHMatches2.
    + now rewrite IHMatches.
    + rewrite IHMatches by reflexivity. apply orb_true_r.
Qed.

Lemma deriv_sound c r l : Matches (deriv c r) l -> Matches r (c :: l).
Proof.
  revert l. induction r; simpl; intros l H.
  - inversion H.
  - inversion H.
  - destruct (p c) eqn:Hp; inversion H; subst. now constructor.
  - destruct (nullable r1) eqn:Hn.
    + inversion H; subst.
      * match goal with Hs : Matches (Seq _ _) _ |- _ => inversion Hs; subst end.
        apply (MSeq r1 r2 (c :: l1) l2); auto.
      * apply (MSeq r1 r2 [] (c :: l)); [now apply nullable_Matches|auto].
    + inversion H; subst. apply (MSeq r1 r2 (c :: l1) l2); auto.
  - inversion H; subst; [apply MAltL|apply MAltR]; auto.
  - inversion H; subst. apply (MStarCons r (c :: l1) l2); auto.
Qed.

Lemma deriv_complete c r l : Matches r (c :: l) -> Matches (deriv c r) l.
Proof.
  intros H. remember (c :: l) as cl eqn:Hcl. revert c l Hcl.
  induction H; intros c0 l0 Hcl; simpl; try discriminate.
  - injection Hcl as <- <-. rewrite H. constructor.
  - destruct l1 as [|x l1]; simpl in Hcl.
    + subst l2. apply nullable_Matches in H. rewrite H.
      apply MAltR. now apply IHMatches2.
    + injection Hcl as -> <-.
      assert (Hs : Matches (Seq (deriv c0 r1) r2) (l1 ++ l2)%list)
        by (constructor; auto).
      destruct (nullable r1); [now apply MAltL|exact Hs].
  - apply MAltL. auto.
  - apply MAltR. auto.
  - destruct l1 as [|x l1]; simpl in Hcl.
    + now apply IHMatches2.
    + injection Hcl as -> <-. constructor; auto.
Qed.

Lemma matches_Matches r l : matches r l = true <-> Matches r l.
Proof.
  revert r. induction l as [|c l IH]; intros r; simpl.
  - apply nullable_Matches.
  - rewrite IH. split; [apply deriv_sound|apply deriv_complete].
Qed.

Lemma Matches_Seq r1 r2 l :
  Matches (Seq r1 r2) l <->
  exists l1 l2, l = (l1 ++ l2)%list /\ Matches r1 l1 /\ Matches r2 l2.
Proof.
  split.
  - intros H. inversion H; subst. eauto.
  - intros (l1 & l2 & -> & H1 & H2). now constructor.
Qed.

Lemma Matches_Class p l :
  Matches (Class p) l <-> exists c, l = [c] /\ p c = true.
Proof.
  split.
  - intros H. inversion H; subst. eauto.
  - intros (c & -> & H). now constructor.
Qed.

Lemma Matches_Star_class p l :
  Matches (Star (Class p)) l <-> forallb p l = true.
Proof.
  split.
  - intros H. remember (Star (Class p)) as r eqn:Hr.
    induction H; try discriminate; [reflexivity|].
    injection Hr as ->. inversion H; subst. simpl.
    rewrite IHMatches2 by reflexivity.
    match goal with Hp : p _ = true |- _ => now rewrite Hp end.
  - induction l as [|c l IH]; simpl; intros H; [constructor|].
    apply andb_true_iff in H as [Hc Hl].
    apply (MStarCons (Class p) [c] l); [now constructor|auto].
Qed.

Lemma Matches_Plus_class p l :
  Matches (Plus (Class p)) l <-> l <> [] /\ forallb p l = true.
Proof.
  unfold Plus. split.
  - intros H. inversion H; subst.
    match goal with Hc : Matches (Class _) _ |- _ => inversion Hc; subst end.
    split; [discriminate|]. simpl.
    match goal with Hp : p _ = true |- _ => rewrite Hp end.
    now apply Matches_Star_class.
  - intros [Hne H]. destruct l as [|c l]; [congruence|].
    simpl in H. apply andb_true_iff in H as [Hc Hl].
    apply (MSeq (Class p) (Star (Class p)) [c] l);
      [now constructor|now apply Matches_Star_class].
Qed.

(** *** Splitting on the delimiter *)

Lemma splitDashes_four a b c d r4 :
  splitDashes (String a (String b (String c (String d r4))))
  = if isDash a && isDash b && isDash c && isDash d
    then EmptyString :: splitDashes r4
    else consHead a (splitDashes (String b (String c (String d r4)))).
Proof. reflexivity. Qed.

Lemma isDash_eqb c : Ascii.eqb "-" c = isDash c.
Proof. unfold isDash. apply Ascii.eqb_sym. Qed.

Lemma prefix_dashes a b c d r4 :
  String.prefix "----" (String a (String b (String c (String d r4))))
  = isDash a && isDash b && isDash c && isDash d.
Proof.
  rewrite !prefix_cons, prefix_nil.
  rewrite (isDash_eqb a), (isDash_eqb b), (isDash_eqb c), (isDash_eqb d).
  now rewrite andb_true_r, !andb_assoc.
Qed.

Lemma splitDashes_step a r1 :
  splitDashes (String a r1)
  = if String.prefix "----" (String a r1)
    then EmptyString :: splitDashes (sliceFrom 3 r1)
    else consHead a (splitDashes r1).
Proof.
  destruct r1 as [|b [|c [|d r4]]].
  - rewrite prefix_cons. change (String.prefix "---" EmptyString) with false.
    now rewrite andb_false_r.
  - rewrite !prefix_cons. change (String.prefix "--" EmptyString) with false.
    now rewrite !andb_false_r.
  - rewrite !prefix_cons. change (String.prefix "-" EmptyString) with false.
    now rewrite !andb_false_r.
  - rewrite splitDashes_four, prefix_dashes. reflexivity.
Qed.

Lemma prefix_split p s :
  String.prefix p s = true ->
  s = p ++ sliceFrom (String.length p) s.
Proof.
  revert s. induction p as [|a p IH]; intros s.
  - reflexivity.
  - destruct s as [|b s]; [discriminate|].
    rewrite prefix_cons. intros H. apply andb_true_iff in H as [Hab H].
    apply Ascii.eqb_eq in Hab as <-. simpl. f_equal. now apply IH.
Qed.

(** The comparison only reads as many characters as the pattern has. *)
Lemma prefix_long p s t :
  String.length p <= String.length s ->
  String.prefix p (s ++ t) = String.prefix p s.
Proof.
  revert s. induction p as [|a p IH]; intros s; [now rewrite !prefix_nil|].
  destruct s as [|b s]; [simpl; lia|]. intros H.
  change (String b s ++ t) with (String b (s ++ t)).
  rewrite !prefix_cons. f_equal. apply IH. simpl in H. lia.
Qed.

Lemma splitDashes_nonempty s : splitDashes s <> [].
Proof.
  destruct s as [|a r1]; [discriminate|].
  rewrite splitDashes_step. destruct (String.prefix _ _); [discriminate|].
  destruct (splitDashes r1); discriminate.
Qed.

Lemma sliceFrom_length n s : String.length (sliceFrom n s) <= String.length s.
Proof.
  revert s. induction n as [|n IH]; intros s; simpl; [lia|].
  destruct s as [|c s]; simpl; [lia|]. specialize (IH s). lia.
Qed.

Lemma joinWith_cons sep f fs :
  fs <> [] -> joinWith sep (f :: fs) = f ++ sep ++ joinWith sep fs.
Proof. destruct fs; [congruence|reflexivity]. Qed.

Lemma joinWith_consHead sep c fs :
  fs <> [] -> joinWith sep (consHead c fs) = String c (joinWith sep fs).
Proof.
  destruct fs as [|f [|g fs]]; [congruence| |]; reflexivity.
Qed.

(** Splitting and joining again gives the text back. *)
Lemma join_split s : joinWith "----" (splitDashes s) = s.
Proof.
  induction s as [s IH] using string_length_ind.
  destruct s as [|a r1]; [reflexivity|].
  rewrite splitDashes_step.
  destruct (String.prefix "----" (String a r1)) eqn:Hp.
  - rewrite joinWith_cons by apply splitDashes_nonempty.
    rewrite IH by (pose proof (sliceFrom_length 3 r1); cbn [String.length]; lia).
    apply prefix_split in Hp. symmetry. exact Hp.
  - rewrite joinWith_consHead by apply splitDashes_nonempty.
    now rewrite IH by (simpl; lia).
Qed.

Lemma length_append s t :
  String.length (s ++ t) = String.length s + String.length t.
Proof. induction s; simpl; lia. Qed.

Lemma prefix_dashes_ahead a x t :
  String.prefix "----" (String a (x ++ "----" ++ t))
  = String.prefix "----" (String a (x ++ "---")).
Proof.
  change (String a (x ++ "----" ++ t))
    with (String a x ++ "---" ++ ("-" ++ t)).
  rewrite <- append_assoc.
  apply prefix_long. change (String a x ++ "---") with (String a (x ++ "---")).
  cbn [String.length]. rewrite length_append. simpl. lia.
Qed.

(** The first field ends where the delimiter first occurs. *)
Lemma split_first x p :
  includes (x ++ "---") "----" = false ->
  splitDashes (x ++ "----" ++ p) = x :: splitDashes p.
Proof.
  induction x as [|a x IH]; intros H.
  - reflexivity.
  - change (String a x ++ "---") with (String a (x ++ "---")) in H.
    rewrite includes_cons in H. apply orb_false_iff in H as [Hp Hi].
    change (String a x ++ "----" ++ p) with (String a (x ++ "----" ++ p)).
    rewrite splitDashes_step, prefix_dashes_ahead, Hp.
    now rewrite (IH Hi).
Qed.

Lemma first_field s f g rest :
  splitDashes s = f :: g :: rest ->
  includes (f ++ "---") "----" = false.
Proof.
  revert f g rest. induction s as [s IH] using string_length_ind.
  intros f g rest Hs.
  destruct s as [|a r1]; [discriminate|].
  rewrite splitDashes_step in Hs.
  destruct (String.prefix "----" (String a r1)) eqn:Hp.
  - injection Hs as <- _. reflexivity.
  - destruct (splitDashes r1) as [|f' fs'] eqn:Hr1;
      [now elim (splitDashes_nonempty r1)|].
    simpl in Hs. injection Hs as <- ->.
    assert (Hi := IH r1 ltac:(simpl; lia) f' g rest Hr1).
    change (String a f' ++ "---") with (String a (f' ++ "---")).
    rewrite includes_cons, Hi, orb_false_r.
    pose proof (join_split r1) as Hj. rewrite Hr1 in Hj.
    rewrite joinWith_cons in Hj by discriminate.
    rewrite <- (prefix_dashes_ahead a f' (joinWith "----" (g :: rest))), Hj.
    exact Hp.
Qed.

End TextFacts.

(* ===================================================================== *)
(** ** io.ts: the extraction and the loading of accounts *)
(* ===================================================================== *)

Section IoFacts.
Context {R : Runtime}.
Import Text Io Props.

Import Main.AccountCredential.

Lemma isEmpty_true s : isEmpty s = true <-> s = EmptyString.
Proof. unfold isEmpty. apply String.eqb_eq. Qed.

Lemma isEmpty_false s : isEmpty s = false <-> s <> EmptyString.
Proof. unfold isEmpty. apply String.eqb_neq. Qed.

(** *** The pattern for emails *)

Lemma EMAIL_RE_Matches cs :
  Matches EMAIL_RE cs <->
  exists l d t,
    cs = (l ++ ["@"] ++ d ++ ["."] ++ t)%list /\
    l <> [] /\ d <> [] /\ t <> [] /\
    forallb notSpaceNorAt (l ++ d ++ t)%list = true.
Proof.
  unfold EMAIL_RE. split.
  - intros H.
    apply Matches_Seq in H as (l & r1 & E1 & Hl & H).
    apply Matches_Seq in H as (a1 & r2 & E2 & Ha & H).
    apply Matches_Seq in H as (d & r3 & E3 & Hd & H).
    apply Matches_Seq in H as (a2 & t & E4 & Hdot & Ht).
    apply Matches_Class in Ha as (c1 & -> & Hc1).
    apply Matches_Class in Hdot as (c2 & -> & Hc2).
    apply String.eqb_eq in Hc1 as <-. apply String.eqb_eq in Hc2 as <-.
    apply Matches_Plus_class in Hl as [Hl1 Hl2].
    apply Matches_Plus_class in Hd as [Hd1 Hd2].
    apply Matches_Plus_class in Ht as [Ht1 Ht2].
    subst. exists l, d, t. repeat split; try assumption.
    rewrite !forallb_app, Hl2, Hd2, Ht2. reflexivity.
  - intros (l & d & t & -> & Hl & Hd & Ht & Hall).
    rewrite !forallb_app in Hall.
    apply andb_true_iff in Hall as [Hl2 Hall].
    apply andb_true_iff in Hall as [Hd2 Ht2].
    apply MSeq; [now apply Matches_Plus_class|].
    apply MSeq; [now constructor|].
    apply MSeq; [now apply Matches_Plus_class|].
    apply MSeq; [now constructor|].
    now apply Matches_Plus_class.
Qed.

Lemma notSpaceNorAt_no_space l :
  forallb notSpaceNorAt l = true ->
  forallb (fun c => negb (isWhiteSpace c)) l = true.
Proof.
  induction l as [|c l IH]; simpl; [reflexivity|].
  intros H. apply andb_true_iff in H as [Hc Hl].
  unfold notSpaceNorAt in Hc. apply andb_true_iff in Hc as [Hc _].
  now rewrite Hc, IH.
Qed.

(** An accepted email has no white space, so trimming leaves it as it is,
    and it is not empty. *)
Lemma accepted_email_trimmed e :
  test EMAIL_RE e = true -> trim e = e /\ e <> EmptyString.
Proof.
  intros H. apply matches_Matches, EMAIL_RE_Matches in H
    as (l & d & t & Hc & Hl & _ & _ & Hall).
  rewrite !forallb_app in Hall.
  apply andb_true_iff in Hall as [Hl2 Hall].
  apply andb_true_iff in Hall as [Hd2 Ht2].
  split.
  - apply trim_no_space. rewrite Hc, !forallb_app.
    rewrite (notSpaceNorAt_no_space _ Hl2), (notSpaceNorAt_no_space _ Hd2),
      (notSpaceNorAt_no_space _ Ht2). reflexivity.
  - intros ->. destruct l; [congruence|discriminate].
Qed.

(** *** One line *)

Lemma visit_cases defaultPlan st line idx :
  (blank line = true /\ lineAccount defaultPlan line = None /\
   visit defaultPlan st line idx = st) \/
  (blank line = false /\ lineAccount defaultPlan line = None /\
   exists code message, visit defaultPlan st line idx = reject st idx code message) \/
  (blank line = false /\
   exists a, lineAccount defaultPlan line = Some a /\
     visit defaultPlan st line idx
     = {| errors := errors st;
          byEmail := set (emailKey a) a (byEmail st);
          invalid := invalid st |}).
Proof.
  unfold lineAccount, visit, blank.
  destruct (isEmpty (trim line)); [left; repeat split|right].
  destruct (Nat.ltb _ 2); [left; repeat split; eauto|].
  destruct (negb (test EMAIL_RE _)); [left; repeat split; eauto|].
  destruct (isEmpty (joinWith _ _)); [left; repeat split; eauto|].
  right. split; [reflexivity|]. eexists. split; reflexivity.
Qed.

Lemma lineAccount_describes defaultPlan line a :
  lineAccount defaultPlan line = Some a <-> describes defaultPlan line a.
Proof.
  unfold lineAccount, visit, describes. split.
  - destruct (isEmpty (trim line)); [discriminate|].
    destruct (splitDashes (trim line)) as [|f [|g rest]] eqn:Hs;
      try (simpl; discriminate).
    cbn [length Nat.ltb Nat.leb hd tl].
    destruct (test EMAIL_RE (trim f)) eqn:Ht; [|simpl; discriminate].
    cbn [negb].
    destruct (isEmpty (joinWith "----" (g :: rest))) eqn:Hp; [simpl; discriminate|].
    cbn [byEmail set]. intros [= <-]. cbn [email password plan].
    exists f. repeat split.
    + rewrite <- (join_split (trim line)), Hs.
      now rewrite joinWith_cons by discriminate.
    + exact (first_field _ _ _ _ Hs).
    + exact Ht.
    + now apply isEmpty_false.
  - intros (x & Hline & Hfirst & He & Ht & Hp & Hplan).
    rewrite Hline.
    assert (Hne : isEmpty (x ++ "----" ++ password a) = false).
    { apply isEmpty_false. destruct x; discriminate. }
    rewrite Hne, (split_first _ _ Hfirst).
    destruct (splitDashes (password a)) as [|g rest] eqn:Hs;
      [now elim (splitDashes_nonempty (password a))|].
    cbn [length Nat.ltb Nat.leb hd tl].
    rewrite <- Hs, join_split, He, Ht.
    apply isEmpty_false in Hp. rewrite Hp. cbn [negb byEmail set].
    destruct a as [e p pl]. simpl in *. now subst pl.
Qed.

(** *** The map of accounts *)

Lemma In_set {V : Type} (k : string) (v : V) m k' v' :
  NoDup (map fst m) ->
  In (k', v') (set k v m) <->
  (k' = k /\ v' = v) \/ (k' <> k /\ In (k', v') m).
Proof.
  induction m as [|[k0 v0] m IH]; simpl; intros Hnd.
  - split.
    + intros [[= <- <-]|[]]. now left.
    + intros [[-> ->]|[_ []]]. now left.
  - inversion Hnd as [|? ? Hni Hnd']; subst.
    destruct (String.eqb k0 k) eqn:Hk.
    + apply String.eqb_eq in Hk as ->. simpl. split.
      * intros [[= <- <-]|Hin]; [now left|].
        right. split; [|now right]. intros ->. apply Hni.
        now apply (in_map fst) in Hin.
      * intros [[-> ->]|[Hne [[= -> ->]|Hin]]]; [now left|congruence|now right].
    + apply String.eqb_neq in Hk. simpl. rewrite (IH Hnd'). split.
      * intros [[= <- <-]|[[-> ->]|[Hne Hin]]]; [right|now left|right]; auto.
      * intros [[-> ->]|[Hne [[= -> ->]|Hin]]]; auto.
Qed.

Lemma keys_set {V : Type} (k : string) (v : V) m :
  map fst (set k v m)
  = if existsb (String.eqb k) (map fst m) then map fst m
    else (map fst m ++ [k])%list.
Proof.
  induction m as [|[k0 v0] m IH]; simpl; [reflexivity|].
  rewrite (String.eqb_sym k k0).
  destruct (String.eqb k0 k) eqn:Hk; simpl.
  - apply String.eqb_eq in Hk as ->. reflexivity.
  - rewrite IH. now destruct (existsb _ _).
Qed.

Lemma NoDup_set {V : Type} (k : string) (v : V) m :
  NoDup (map fst m) -> NoDup (map fst (set k v m)).
Proof.
  intros Hnd. rewrite keys_set.
  destruct (existsb (String.eqb k) (map fst m)) eqn:He; [exact Hnd|].
  apply NoDup_app; [exact Hnd|repeat constructor; intros []|].
  intros x Hx [<-|[]].
  assert (existsb (String.eqb k) (map fst m) = true); [|congruence].
  apply existsb_exists. exists k. split; [exact Hx|apply String.eqb_refl].
Qed.

Lemma length_set {V : Type} (k : string) (v : V) m :
  length m <= length (set k v m) <= S (length m).
Proof.
  induction m as [|[k0 v0] m IH]; simpl; [lia|].
  destruct (String.eqb k0 k); simpl; lia.
Qed.

Lemma NoDup_setMany l m :
  NoDup (map fst m) -> NoDup (map fst (setMany l m)).
Proof.
  revert m. induction l as [|a l IH]; intros m H; simpl; [exact H|].
  apply IH. now apply NoDup_set.
Qed.

Lemma length_setMany l m :
  length m <= length (setMany l m) <= length m + length l.
Proof.
  revert m. induction l as [|a l IH]; intros m; simpl; [lia|].
  specialize (IH (set (emailKey a) a m)).
  pose proof (length_set (emailKey a) a m). lia.
Qed.

(** The value a key holds in the end is the one set last. *)
Lemma In_setMany l : forall m k a,
  NoDup (map fst m) ->
  In (k, a) (setMany l m) <->
  (exists pre post, l = (pre ++ a :: post)%list /\ k = emailKey a /\
     Forall (fun a' => emailKey a' <> emailKey a) post) \/
  (In (k, a) m /\ Forall (fun a' => emailKey a' <> k) l).
Proof.
  induction l as [|b l IH]; intros m k a Hnd; simpl.
  - split.
    + intros H. right. split; [exact H|constructor].
    + intros [(pre & post & Hl & _)|[H _]]; [|exact H].
      destruct pre; discriminate.
  - rewrite (IH _ k a (NoDup_set (emailKey b) b m Hnd)). split.
    + intros [(pre & post & -> & Hk & Hpost)|[Hin Hall]].
      * left. exists (b :: pre), post. auto.
      * apply (In_set _ _ _ _ _ Hnd) in Hin as [[-> ->]|[Hne Hin]].
        -- left. exists [], l. auto.
        -- right. split; [exact Hin|]. constructor; auto.
    + intros [(pre & post & Hl & Hk & Hpost)|[Hin Hall]].
      * destruct pre as [|b' pre]; simpl in Hl; injection Hl as <- ->.
        -- right. split; [|now subst k].
           apply (In_set _ _ _ _ _ Hnd). left. auto.
        -- left. exists pre, post. auto.
      * inversion Hall as [|? ? Hb Hl]; subst. right. split; [|exact Hl].
        apply (In_set _ _ _ _ _ Hnd). right. auto.
Qed.

Lemma keyed_setMany l m :
  Forall (fun kv => fst kv = emailKey (snd kv)) m ->
  Forall (fun kv => fst kv = emailKey (snd kv)) (setMany l m).
Proof.
  revert m. induction l as [|a l IH]; intros m H; simpl; [exact H|].
  apply IH. clear IH. induction m as [|[k0 v0] m IHm]; simpl.
  - repeat constructor.
  - inversion H; subst. destruct (String.eqb k0 (emailKey a)).
    + constructor; auto.
    + constructor; auto.
Qed.

(** *** All lines *)

Lemma forEachLine_spec defaultPlan lines : forall idx st,
  let st' := forEachLine defaultPlan lines idx st in
  byEmail st' = setMany (lineAccounts defaultPlan lines) (byEmail st) /\
  invalid st' = invalid st + length (rejectedLines defaultPlan lines idx) /\
  map ExtractError.line (errors st')
  = (map ExtractError.line (errors st) ++ rejectedLines defaultPlan lines idx)%list.
Proof.
  induction lines as [|line lines IH]; intros idx st; simpl.
  - rewrite app_nil_r. repeat split. lia.
  - destruct (IH (S idx) (visit defaultPlan st line idx)) as (Hb & Hi & He).
    rewrite Hb, Hi, He.
    destruct (visit_cases defaultPlan st line idx)
      as [(Hbl & Hacc & ->)|[(Hbl & Hacc & code & msg & ->)|(Hbl & a & Hacc & ->)]];
      rewrite Hbl; try rewrite Hacc; simpl.
    + repeat split.
    + rewrite map_app, <- app_assoc. simpl. repeat split. lia.
    + repeat split.
Qed.

Lemma nonblank_count defaultPlan lines idx :
  length (filter (fun l => negb (isEmpty (trim l))) lines)
  = length (rejectedLines defaultPlan lines idx)
    + length (lineAccounts defaultPlan lines).
Proof.
  revert idx. induction lines as [|line lines IH]; intros idx; simpl;
    [reflexivity|].
  destruct (visit_cases defaultPlan fresh line idx)
    as [(Hbl & Hacc & _)|[(Hbl & Hacc & _)|(Hbl & a & Hacc & _)]];
    rewrite Hacc; unfold blank in *; rewrite Hbl; simpl;
    rewrite (IH (S idx)); lia.
Qed.

Lemma rejectedLines_range defaultPlan lines : forall idx n,
  In n (rejectedLines defaultPlan lines idx) ->
  idx < n <= idx + length lines /\
  exists line, nth_error lines (n - idx - 1) = Some line /\
    blank line = false /\ lineAccount defaultPlan line = None.
Proof.
  induction lines as [|line lines IH]; intros idx n; simpl; [intros []|].
  assert (Hrest : In n (rejectedLines defaultPlan lines (S idx)) ->
    idx < n <= idx + S (length lines) /\
    exists l, nth_error (line :: lines) (n - idx - 1) = Some l /\
      blank l = false /\ lineAccount defaultPlan l = None).
  { intros H. apply IH in H as (Hr & l & Hn & Hl). split; [lia|].
    exists l. split; [|exact Hl].
    replace (n - idx - 1) with (S (n - S idx - 1)) by lia. exact Hn. }
  destruct (blank line) eqn:Hbl; [exact Hrest|].
  destruct (lineAccount defaultPlan line) eqn:Hacc; [exact Hrest|].
  intros [<-|H]; [|now apply Hrest].
  split; [lia|]. exists line.
  replace (idx + 1 - idx - 1) with 0 by lia. auto.
Qed.

Lemma rejectedLines_complete defaultPlan lines : forall idx i line,
  nth_error lines i = Some line ->
  blank line = false -> lineAccount defaultPlan line = None ->
  In (idx + i + 1) (rejectedLines defaultPlan lines idx).
Proof.
  induction lines as [|l lines IH]; intros idx i line Hn Hbl Hacc;
    [destruct i; discriminate|].
  destruct i as [|i]; simpl in Hn.
  - injection Hn as ->. simpl. rewrite Hbl, Hacc. left. lia.
  - specialize (IH (S idx) i line Hn Hbl Hacc).
    replace (idx + S i + 1) with (S idx + i + 1) by lia.
    simpl. destruct (blank l); [exact IH|].
    destruct (lineAccount defaultPlan l); [exact IH|now right].
Qed.

Lemma rejectedLines_sorted defaultPlan lines : forall idx,
  StronglySorted lt (rejectedLines defaultPlan lines idx).
Proof.
  induction lines as [|line lines IH]; intros idx; simpl; [constructor|].
  destruct (blank line); [apply IH|].
  destruct (lineAccount defaultPlan line); [apply IH|].
  constructor; [apply IH|].
  apply Forall_forall. intros n Hn.
  apply rejectedLines_range in Hn as [Hn _]. lia.
Qed.

Lemma lineAccounts_split defaultPlan lines : forall pre a post,
  lineAccounts defaultPlan lines = (pre ++ a :: post)%list ->
  exists before line after,
    lines = (before ++ line :: after)%list /\
    lineAccount defaultPlan line = Some a /\
    lineAccounts defaultPlan after = post.
Proof.
  induction lines as [|l lines IH]; intros pre a post; simpl.
  - destruct pre; discriminate.
  - destruct (lineAccount defaultPlan l) as [b|] eqn:Hl.
    + destruct pre as [|b' pre]; simpl.
      * intros [= -> H]. exists [], l, lines. auto.
      * intros [= -> H]. apply IH in H as (before & line & after & -> & H1 & H2).
        exists (l :: before), line, after. auto.
    + intros H. apply IH in H as (before & line & after & -> & H1 & H2).
      exists (l :: before), line, after. auto.
Qed.

Lemma lineAccounts_app defaultPlan l1 l2 :
  lineAccounts defaultPlan (l1 ++ l2)%list
  = (lineAccounts defaultPlan l1 ++ lineAccounts defaultPlan l2)%list.
Proof.
  induction l1 as [|l l1 IH]; simpl; [reflexivity|].
  destruct (lineAccount defaultPlan l); simpl; now rewrite IH.
Qed.

Lemma In_lineAccounts defaultPlan lines a :
  In a (lineAccounts defaultPlan lines) <->
  exists line, In line lines /\ lineAccount defaultPlan line = Some a.
Proof.
  induction lines as [|l lines IH]; simpl.
  - split; [intros []|intros (? & [] & _)].
  - destruct (lineAccount defaultPlan l) as [b|] eqn:Hl; simpl; rewrite IH.
    + split.
      * intros [<-|(line & H1 & H2)]; eauto.
      * intros (line & [<-|H1] & H2); [left; congruence|eauto].
    + split.
      * intros (line & H1 & H2); eauto.
      * intros (line & [<-|H1] & H2); [congruence|eauto].
Qed.

Lemma splitLines_nonempty s : splitLines s <> [].
Proof.
  induction s as [|a s IH]; [discriminate|].
  cbn [splitLines].
  assert (H : consHead a (splitLines s) <> [])
    by (destruct (splitLines s); discriminate).
  destruct (Ascii.eqb a _); [discriminate|].
  destruct (Ascii.eqb a _); [|exact H].
  destruct s as [|b s']; [exact H|].
  destruct (Ascii.eqb b _); [discriminate|exact H].
Qed.

(** What the extraction returns, in terms of the lines taken one by one. *)
Lemma parseMarkdownAccounts_spec stamp readText inputPath defaultPlan text
    accounts report :
  readText inputPath = Ok text ->
  parseMarkdownAccounts stamp readText inputPath defaultPlan
  = Ok (accounts, report) ->
  let lines := splitLines text in
  let stored := lineAccounts defaultPlan lines in
  let rejected := rejectedLines defaultPlan lines 0 in
  accounts = map snd (setMany stored []) /\
  ExtractReport.total_lines report = length lines /\
  ExtractReport.valid_accounts report = length accounts /\
  ExtractReport.invalid_lines report = length rejected /\
  map ExtractError.line (ExtractReport.errors report) = rejected /\
  ExtractReport.duplicate_emails report
  = Z.max 0 (Z.of_nat (length rejected + length stored)
             - Z.of_nat (length rejected) - Z.of_nat (length accounts)).
Proof.
  intros Hread. unfold parseMarkdownAccounts. rewrite Hread. simpl.
  intros [= <- <-]. cbn [ExtractReport.total_lines ExtractReport.valid_accounts
    ExtractReport.invalid_lines ExtractReport.errors
    ExtractReport.duplicate_emails].
  destruct (forEachLine_spec defaultPlan (splitLines text) 0
              {| errors := []; byEmail := []; invalid := 0 |})
    as (Hb & Hi & He).
  simpl in Hb, Hi, He. rewrite Hb, Hi, He.
  rewrite (nonblank_count defaultPlan (splitLines text) 0).
  repeat split.
Qed.

Lemma stored_accounts defaultPlan lines a :
  In a (map snd (setMany (lineAccounts defaultPlan lines) [])) <->
  exists pre post,
    lineAccounts defaultPlan lines = (pre ++ a :: post)%list /\
    Forall (fun a' => emailKey a' <> emailKey a) post.
Proof.
  split.
  - intros H. apply in_map_iff in H as ([k a'] & Ha & Hin). simpl in Ha. subst a'.
    apply In_setMany in Hin as [(pre & post & Hl & _ & Hpost)|[[] _]];
      [eauto|constructor].
  - intros (pre & post & Hl & Hpost).
    apply in_map_iff. exists (emailKey a, a). split; [reflexivity|].
    apply In_setMany; [constructor|]. left. exists pre, post. auto.
Qed.

Lemma extracted_described stamp readText inputPath defaultPlan text
    accounts report a :
  readText inputPath = Ok text ->
  parseMarkdownAccounts stamp readText inputPath defaultPlan
  = Ok (accounts, report) ->
  In a accounts ->
  exists line, In line (splitLines text) /\ describes defaultPlan line a.
Proof.
  intros Hread Hparse Ha.
  destruct (parseMarkdownAccounts_spec _ _ _ _ _ _ _ Hread Hparse) as (-> & _).
  apply stored_accounts in Ha as (pre & post & Hl & _).
  assert (Hin : In a (lineAccounts defaultPlan (splitLines text)))
    by (rewrite Hl; apply in_elt).
  apply In_lineAccounts in Hin as (line & Hline & Hacc).
  exists line. split; [exact Hline|now apply lineAccount_describes].
Qed.

Lemma rowAccount_accountJSON defaultPlan a p :
  test EMAIL_RE (email a) = true ->
  password a <> EmptyString ->
  plan a = Some p -> trim p = p -> p <> EmptyString ->
  rowAccount defaultPlan (accountJSON a) = Some a.
Proof.
  intros He Hp Hplan Htrim Hne.
  destruct (accepted_email_trimmed _ He) as [Htr Hnee].
  destruct a as [e pw pl]. simpl in *. subst pl.
  unfold rowAccount, accountJSON. cbn [field assoc String.eqb
    Main.AccountCredential.email Main.AccountCredential.password
    Main.AccountCredential.plan].
  simpl. rewrite Htr, Htrim, He.
  apply isEmpty_false in Hnee, Hp, Hne. rewrite Hnee, Hp, Hne. reflexivity.
Qed.

Lemma pushRows_valid defaultPlan rows :
  length (pushRows defaultPlan rows) <= length rows /\
  Forall (fun a =>
            test EMAIL_RE (email a) = true /\
            trim (email a) = email a /\
            password a <> EmptyString /\
            exists p, plan a = Some p /\
              (p = defaultPlan \/ p <> EmptyString))
         (pushRows defaultPlan rows).
Proof.
  induction rows as [|row rows [IHl IHf]]; simpl; [split; [lia|constructor]|].
  destruct (rowAccount defaultPlan row) as [a|] eqn:Hrow; [|split; [lia|exact IHf]].
  split; [simpl; lia|]. constructor; [|exact IHf].
  unfold rowAccount in Hrow.
  assert (Hbody :
    forall e pw pl,
      (if isEmpty e || negb (test EMAIL_RE e) || isEmpty pw then None
       else Some {| email := e; password := pw; plan := Some pl |}) = Some a ->
      (pl = defaultPlan \/ pl <> EmptyString) ->
      test EMAIL_RE (email a) = true /\ trim (email a) = email a /\
      password a <> EmptyString /\
      exists p, plan a = Some p /\ (p = defaultPlan \/ p <> EmptyString)).
  { intros e pw pl H Hpl.
    destruct (isEmpty e) eqn:H1; [discriminate|].
    destruct (test EMAIL_RE e) eqn:H2; [|discriminate].
    destruct (isEmpty pw) eqn:H3; [discriminate|].
    simpl in H. injection H as <-. simpl.
    split; [exact H2|]. split; [apply (accepted_email_trimmed _ H2)|].
    split; [now apply isEmpty_false|]. eauto. }
  assert (Hplan :
    let pl := match field row "plan" with
              | Some (JStr s) =>
                  if negb (isEmpty (trim s)) then trim s else defaultPlan
              | _ => defaultPlan
              end in
    pl = defaultPlan \/ pl <> EmptyString).
  { destruct (field row "plan") as [[| | |s| |]|]; simpl; auto.
    destruct (isEmpty (trim s)) eqn:Hs; simpl; auto.
    right. now apply isEmpty_false. }
  destruct row; try discriminate; exact (Hbody _ _ _ Hrow Hplan).
Qed.

(** X9. The report of an extraction accounts for every line that is not
    blank. *)
Theorem extract_report_accounting stamp readText inputPath defaultPlan text
    accounts report :
  readText inputPath = Ok text ->
  parseMarkdownAccounts stamp readText inputPath defaultPlan
  = Ok (accounts, report) ->
  let lines := splitLines text in
  let nonblank := length (filter (fun l => negb (blank l)) lines) in
  ExtractReport.total_lines report = length lines /\
  1 <= ExtractReport.total_lines report /\
  ExtractReport.valid_accounts report = length accounts /\
  length (ExtractReport.errors report) = ExtractReport.invalid_lines report /\
  (0 <= ExtractReport.duplicate_emails report)%Z /\
  (Z.of_nat nonblank
   = Z.of_nat (ExtractReport.invalid_lines report)
     + Z.of_nat (ExtractReport.valid_accounts report)
     + ExtractReport.duplicate_emails report)%Z.
Proof.
  intros Hread Hparse.
  destruct (parseMarkdownAccounts_spec _ _ _ _ _ _ _ Hread Hparse)
    as (Hacc & Htotal & Hvalid & Hinvalid & Herrors & Hdup).
  cbv zeta. rewrite Htotal, Hvalid, Hinvalid, Hdup.
  pose proof (splitLines_nonempty text) as Hne.
  pose proof (length_setMany (lineAccounts defaultPlan (splitLines text)) [])
    as Hlen.
  assert (Hlacc : length accounts
                  <= length (lineAccounts defaultPlan (splitLines text))).
  { rewrite Hacc, length_map. simpl in Hlen. lia. }
  unfold blank.
  rewrite (nonblank_count defaultPlan (splitLines text) 0).
  split; [reflexivity|].
  split; [destruct (splitLines text); [congruence|simpl; lia]|].
  split; [reflexivity|].
  split; [now rewrite <- Herrors, length_map|].
  lia.
Qed.

(** X10. The errors of an extraction are the lines that are neither blank nor
    the description of an account, by their numbers, in increasing order. *)
Theorem extract_reports_rejected_lines stamp readText inputPath defaultPlan
    text accounts report :
  readText inputPath = Ok text ->
  parseMarkdownAccounts stamp readText inputPath defaultPlan
  = Ok (accounts, report) ->
  let numbers := map ExtractError.line (ExtractReport.errors report) in
  StronglySorted lt numbers /\
  forall n,
    In n numbers <->
    1 <= n /\
    exists line,
      nth_error (splitLines text) (n - 1) = Some line /\
      trim line <> EmptyString /\
      forall a, ~ describes defaultPlan line a.
Proof.
  intros Hread Hparse.
  destruct (parseMarkdownAccounts_spec _ _ _ _ _ _ _ Hread Hparse)
    as (_ & _ & _ & _ & Herrors & _).
  cbv zeta. rewrite Herrors. split; [apply rejectedLines_sorted|].
  intros n. split.
  - intros H. apply rejectedLines_range in H as (Hn & line & Hnth & Hbl & Hacc).
    split; [lia|]. exists line.
    replace (n - 1) with (n - 0 - 1) by lia.
    split; [exact Hnth|]. split; [now apply isEmpty_false|].
    intros a Ha. apply lineAccount_describes in Ha. congruence.
  - intros (Hn & line & Hnth & Hbl & Hnone).
    replace n with (0 + (n - 1) + 1) by lia.
    apply rejectedLines_complete with line; [exact Hnth|now apply isEmpty_false|].
    destruct (lineAccount defaultPlan line) as [a|] eqn:Hacc; [|reflexivity].
    apply lineAccount_describes in Hacc. now elim (Hnone a).
Qed.

(** X11. The extraction keeps one account for each email (letter case apart),
    the one of the last line that describes an account with this email. *)
Theorem extract_last_line_wins stamp readText inputPath defaultPlan text
    accounts report :
  readText inputPath = Ok text ->
  parseMarkdownAccounts stamp readText inputPath defaultPlan
  = Ok (accounts, report) ->
  NoDup (map emailKey accounts) /\
  forall a,
    In a accounts <->
    exists before line after,
      splitLines text = (before ++ line :: after)%list /\
      describes defaultPlan line a /\
      forall line' a',
        In line' after -> describes defaultPlan line' a' ->
        emailKey a' <> emailKey a.
Proof.
  intros Hread Hparse.
  destruct (parseMarkdownAccounts_spec _ _ _ _ _ _ _ Hread Hparse) as (-> & _).
  set (lines := splitLines text). split.
  - pose proof (NoDup_setMany (lineAccounts defaultPlan lines) []
                  (NoDup_nil _)) as Hnd.
    pose proof (keyed_setMany (lineAccounts defaultPlan lines) []
                  (Forall_nil _)) as Hk.
    replace (map emailKey (map snd (setMany (lineAccounts defaultPlan lines) [])))
      with (map fst (setMany (lineAccounts defaultPlan lines) []));
      [exact Hnd|].
    rewrite map_map. apply map_ext_in. intros kv Hkv.
    exact (proj1 (Forall_forall _ _) Hk kv Hkv).
  - intros a. rewrite stored_accounts. split.
    + intros (pre & post & Hl & Hpost).
      apply lineAccounts_split in Hl as (before & line & after & Hlines & Hacc & Hafter).
      exists before, line, after. split; [exact Hlines|].
      split; [now apply lineAccount_describes|].
      intros line' a' Hin Hd. apply lineAccount_describes in Hd.
      assert (Ha' : In a' post).
      { rewrite <- Hafter. apply In_lineAccounts. eauto. }
      exact (proj1 (Forall_forall _ _) Hpost a' Ha').
    + intros (before & line & after & Hlines & Hd & Hlast).
      apply lineAccount_describes in Hd.
      exists (lineAccounts defaultPlan before), (lineAccounts defaultPlan after).
      split.
      * rewrite Hlines, lineAccounts_app. simpl. now rewrite Hd.
      * apply Forall_forall. intros a' Ha'.
        apply In_lineAccounts in Ha' as (line' & Hin & Hacc).
        apply (Hlast line' a' Hin). now apply lineAccount_describes.
Qed.

(** X12. The accounts an extraction writes are the accounts the auth command
    loads from that file, whatever its own default plan. *)
Theorem extracted_accounts_load stamp readText inputPath plan0 text accounts
    report fs path defaultPlan :
  readText inputPath = Ok text ->
  parseMarkdownAccounts stamp readText inputPath plan0 = Ok (accounts, report) ->
  accounts <> [] ->
  trim plan0 = plan0 -> plan0 <> EmptyString ->
  readFileSync fs path = Parsed (accountsJSON accounts) ->
  loadAccountJson fs path defaultPlan = Ok accounts.
Proof.
  intros Hread Hparse Hne Htrim Hplan Hfile.
  assert (Hrows : forall l,
    (forall a, In a l -> In a accounts) ->
    pushRows defaultPlan (map accountJSON l) = l).
  { induction l as [|a l IH]; intros Hl; [reflexivity|]. cbn [map pushRows].
    destruct (extracted_described _ _ _ _ _ _ _ a Hread Hparse
                (Hl a (or_introl eq_refl)))
      as (line & _ & x & _ & _ & _ & He & Hp & Hpl).
    rewrite (rowAccount_accountJSON defaultPlan a plan0 He Hp Hpl Htrim Hplan).
    rewrite IH; [reflexivity|]. intros b Hb. apply Hl. now right. }
  unfold loadAccountJson, readJSON, accountsJSON. rewrite Hfile. simpl.
  rewrite (Hrows accounts (fun a H => H)).
  destruct accounts; [congruence|reflexivity].
Qed.

(** X13. What [loadAccountJson] returns is never empty and holds valid
    accounts only. *)
Theorem loadAccountJson_valid fs inputPath defaultPlan accounts :
  loadAccountJson fs inputPath defaultPlan = Ok accounts ->
  exists rows,
    readFileSync fs inputPath = Parsed (JArr rows) /\
    accounts <> [] /\
    length accounts <= length rows /\
    Forall (fun a =>
              test EMAIL_RE (email a) = true /\
              trim (email a) = email a /\
              password a <> EmptyString /\
              exists p, plan a = Some p /\
                (p = defaultPlan \/ p <> EmptyString))
           accounts.
Proof.
  unfold loadAccountJson, readJSON.
  destruct (readFileSync fs inputPath) as [| |parsed]; try discriminate.
  simpl. destruct parsed as [| | | |rows|]; try discriminate.
  destruct (pushRows_valid defaultPlan rows) as [Hlen Hall].
  destruct (pushRows defaultPlan rows) as [|a l] eqn:Hpush; [discriminate|].
  intros [= <-]. exists rows. repeat split; try assumption. discriminate.
Qed.

Lemma chars_not_empty s c : In c (chars s) -> c <> EmptyString.
Proof.
  revert c. induction s as [s IH] using string_length_ind. intros c.
  destruct s as [|a [|b [|x r3]]].
  - intros [].
  - intros [<-|[]]. discriminate.
  - simpl. destruct (isWhiteSpace _).
    + intros [<-|[]]. discriminate.
    + intros [<-|[<-|[]]]; discriminate.
  - rewrite chars_three.
    destruct (isWhiteSpace (String a (String b (String x EmptyString))));
      [|destruct (isWhiteSpace (String a (String b EmptyString)))];
      (intros [<-|H]; [discriminate|apply IH in H; [exact H|simpl; lia]]).
Qed.

Lemma unchars_not_empty s l :
  (forall c, In c l -> In c (chars s)) -> l <> [] -> unchars l <> EmptyString.
Proof.
  intros Hin Hl. destruct l as [|c l]; [congruence|].
  assert (Hc : c <> EmptyString) by (apply (chars_not_empty s), Hin; now left).
  rewrite unchars_cons. destruct c; [congruence|discriminate].
Qed.

(** X14. The pattern for emails accepts a text exactly when its characters
    are a local part, an at sign, a domain, a dot and a last part, the three
    parts not empty and free of white space and of at signs; an accepted
    text reads local@domain.last and is its own trimming. *)
Theorem email_pattern_accepts e :
  (test EMAIL_RE e = true <-> emailShape e) /\
  (test EMAIL_RE e = true ->
   trim e = e /\
   exists local domain last,
     e = local ++ "@" ++ domain ++ "." ++ last /\
     local <> EmptyString /\ domain <> EmptyString /\ last <> EmptyString).
Proof.
  assert (Hiff : test EMAIL_RE e = true <-> emailShape e).
  { unfold test, emailShape. rewrite matches_Matches. apply EMAIL_RE_Matches. }
  split; [exact Hiff|]. intros H.
  split; [apply (accepted_email_trimmed e H)|].
  apply Hiff in H as (l & d & t & Hc & Hl & Hd & Ht & _).
  exists (unchars l), (unchars d), (unchars t).
  assert (He : e = unchars (chars e)) by now rewrite unchars_chars.
  split.
  - rewrite He at 1. rewrite Hc, !unchars_app. reflexivity.
  - repeat split; apply (unchars_not_empty e); try assumption;
      intros c Hin; rewrite Hc, !in_app_iff; simpl; tauto.
Qed.

(** *** The planned file name *)

Lemma substring_suffix x p :
  substring (String.length x) (String.length p) (x ++ p) = p.
Proof.
  induction x as [|c x IH]; simpl; [|exact IH].
  induction p as [|c p IHp]; simpl; [|now rewrite IHp].
  reflexivity.
Qed.

Lemma endsWith_append x p : endsWith (x ++ p) p = true.
Proof.
  unfold endsWith. rewrite length_append.
  replace (String.length x + String.length p - String.length p)
    with (String.length x) by lia.
  rewrite substring_suffix, String.eqb_refl, andb_true_r.
  apply Nat.leb_le. lia.
Qed.

Lemma safeEmail_length e : String.length (safeEmail e) = String.length e.
Proof. induction e as [|c e IH]; simpl; congruence. Qed.

Lemma safeEmail_clean e c :
  In c (list_ascii_of_string (safeEmail e)) -> isReserved c = false.
Proof.
  induction e as [|x e IH]; simpl; [intros []|].
  intros [<-|H]; [|now apply IH].
  destruct (isReserved x) eqn:Hx; [reflexivity|exact Hx].
Qed.

Lemma safeEmail_unchanged e :
  forallb (fun c => negb (isReserved c)) (list_ascii_of_string e) = true ->
  safeEmail e = e.
Proof.
  induction e as [|x e IH]; simpl; [reflexivity|].
  intros H. apply andb_true_iff in H as [Hx He].
  destruct (isReserved x); [discriminate|]. now rewrite IH.
Qed.

Lemma tokenFileName_isArtifact account :
  isArtifact {| name := tokenFileName account; isFile := true |} = true.
Proof.
  unfold isArtifact, tokenFileName. cbn [name isFile andb].
  unfold startsWith. rewrite prefix_app. cbn [andb].
  rewrite <- !append_assoc. apply endsWith_append.
Qed.

(** X15. When the directory lists a regular file under the name
    makeTokenOutputPath composes for an account, the rotation scan of that
    directory returns the very path makeTokenOutputPath returns; none of
    the characters the pattern replaces is left in the email part of the
    name, which keeps the length of the email and is the email itself when
    it holds none of them. *)
Theorem planned_file_is_artifact fs outDir account entries :
  readdirSync fs outDir = Ok entries ->
  In {| name := tokenFileName account; isFile := true |} entries ->
  (exists files,
     Rotate.scannedFiles fs outDir = Ok files /\
     In (makeTokenOutputPath outDir account) files) /\
  String.length (safeEmail (email account)) = String.length (email account) /\
  (forall c, In c (list_ascii_of_string (safeEmail (email account))) ->
             ~ In c reserved) /\
  (forallb (fun c => negb (isReserved c))
     (list_ascii_of_string (email account)) = true ->
   safeEmail (email account) = email account).
Proof.
  intros Hdir Hin.
  split; [|split; [apply safeEmail_length|split; [|apply safeEmail_unchanged]]].
  - unfold Rotate.scannedFiles, makeTokenOutputPath. rewrite Hdir.
    eexists. split; [reflexivity|].
    apply in_map_iff.
    exists {| name := tokenFileName account; isFile := true |}.
    split; [reflexivity|]. apply filter_In.
    split; [exact Hin|apply tokenFileName_isArtifact].
  - intros c Hc Hr. apply safeEmail_clean in Hc.
    assert (isReserved c = true); [|congruence].
    unfold isReserved. apply existsb_exists. exists c.
    split; [exact Hr|apply Ascii.eqb_refl].
Qed.

End IoFacts.

(* ===================================================================== *)
(** ** config.ts: the command line *)
(* ===================================================================== *)

Section ConfigFacts.
Context {R : Runtime}.
Import Text Config Props.

Lemma scan_events : forall n tokens opts fl,
  length tokens <= n ->
  scan tokens opts fl = fold_left applyEvent (argEvents tokens) (opts, fl).
Proof.
  induction n as [|n IH]; intros tokens opts fl Hn.
  - destruct tokens; [reflexivity|simpl in Hn; lia].
  - destruct tokens as [|token rest]; [reflexivity|].
    simpl in Hn. cbn [scan argEvents].
    destruct (startsWith token "--") eqn:Ht; cbn [negb].
    + destruct rest as [|next rest'].
      * reflexivity.
      * destruct (isEmpty next || startsWith next "--") eqn:Hv.
        -- cbn [fold_left applyEvent fst snd]. apply IH. simpl in *. lia.
        -- cbn [fold_left applyEvent fst snd].
           rewrite IH by (simpl in *; lia).
           apply orb_false_iff in Hv as [_ Hv].
           cbn [argEvents]. now rewrite Hv.
    + apply IH. lia.
Qed.

Lemma parseArgs_events argv :
  (options (parseArgs argv), flags (parseArgs argv))
  = fold_left applyEvent (argEvents (tl argv)) ([], []).
Proof.
  unfold parseArgs. rewrite (scan_events (length (tl argv))) by lia.
  now destruct (fold_left _ _ _).
Qed.

Lemma dashes_key k :
  startsWith ("--" ++ k)%string "--" = true /\ sliceFrom 2 ("--" ++ k)%string = k.
Proof. split; [apply prefix_app|reflexivity]. Qed.

Lemma key_dashes token :
  startsWith token "--" = true -> token = "--" ++ sliceFrom 2 token.
Proof. intros H. exact (prefix_split "--" token H). Qed.

Lemma noValue_iff rest :
  noValue rest <->
  match rest with
  | [] => True
  | next :: _ => isEmpty next || startsWith next "--" = true
  end.
Proof.
  destruct rest as [|next rest]; [reflexivity|]. simpl.
  rewrite orb_true_iff, isEmpty_true. reflexivity.
Qed.

Lemma isValue_iff v :
  isValue v <-> isEmpty v || startsWith v "--" = false.
Proof.
  unfold isValue. rewrite orb_false_iff, isEmpty_false. reflexivity.
Qed.

(** The events of a list of tokens end with the events of each of its
    tails. *)
Lemma argEvents_cons token rest :
  exists E, (length E <= 1) /\ argEvents (token :: rest) = (E ++ argEvents rest)%list.
Proof.
  cbn [argEvents]. destruct (startsWith token "--").
  - destruct rest as [|next rest'].
    + eexists [_]. split; [simpl; lia|reflexivity].
    + destruct (isEmpty next || startsWith next "--");
        eexists [_]; (split; [simpl; lia|reflexivity]).
  - exists []. split; [simpl; lia|reflexivity].
Qed.

Lemma argEvents_app pre l :
  exists E, argEvents (pre ++ l)%list = (E ++ argEvents l)%list.
Proof.
  induction pre as [|p pre [E IH]]; [now exists []|].
  destruct (argEvents_cons p (pre ++ l)%list) as (E0 & _ & H).
  exists (E0 ++ E)%list. change ((p :: pre) ++ l)%list with (p :: (pre ++ l))%list.
  now rewrite H, IH, app_assoc.
Qed.

Lemma argEvents_flag k post :
  noValue post ->
  argEvents (("--" ++ k)%string :: post) = AFlag k :: argEvents post.
Proof.
  intros H. apply noValue_iff in H.
  destruct (dashes_key k) as [Hs Hk].
  cbn [argEvents]. rewrite Hs, Hk.
  destruct post as [|next rest]; [reflexivity|]. now rewrite H.
Qed.

Lemma argEvents_option k v post :
  isValue v ->
  argEvents (("--" ++ k)%string :: v :: post) = AOption k v :: argEvents post.
Proof.
  intros H. apply isValue_iff in H.
  destruct (dashes_key k) as [Hs Hk].
  cbn [argEvents]. rewrite Hs, Hk, H.
  apply orb_false_iff in H as [_ H]. now rewrite H.
Qed.

(** Where an event comes from. *)
Lemma argEvents_split tokens : forall E1 e E2,
  argEvents tokens = (E1 ++ e :: E2)%list ->
  exists pre post,
    match e with
    | AFlag k => tokens = (pre ++ ("--" ++ k)%string :: post)%list /\ noValue post /\
                 argEvents post = E2
    | AOption k v => tokens = (pre ++ ("--" ++ k)%string :: v :: post)%list /\
                     isValue v /\ argEvents post = E2
    end.
Proof.
  induction tokens as [|token rest IH]; intros E1 e E2 H.
  - destruct E1; discriminate.
  - assert (Hrest : forall E1', argEvents rest = (E1' ++ e :: E2)%list ->
      exists pre post,
        match e with
        | AFlag k => token :: rest = (pre ++ ("--" ++ k)%string :: post)%list /\
                     noValue post /\ argEvents post = E2
        | AOption k v => token :: rest = (pre ++ ("--" ++ k)%string :: v :: post)%list /\
                         isValue v /\ argEvents post = E2
        end).
    { intros E1' H'. destruct (IH _ _ _ H') as (pre & post & Hp).
      exists (token :: pre), post. destruct e; destruct Hp as (-> & Hp); auto. }
    cbn [argEvents] in H.
    destruct (startsWith token "--") eqn:Ht; [|now apply (Hrest E1)].
    pose proof (key_dashes token Ht) as Htok.
    destruct rest as [|next rest'].
    + destruct E1 as [|e1 E1]; simpl in H.
      * injection H as <- <-. exists [], []. rewrite Htok at 1. simpl. auto.
      * injection H as _ H. destruct E1; discriminate.
    + destruct (isEmpty next || startsWith next "--") eqn:Hv.
      * destruct E1 as [|e1 E1]; simpl in H.
        -- injection H as <- <-. exists [], (next :: rest').
           rewrite Htok at 1. split; [reflexivity|].
           split; [now apply noValue_iff|reflexivity].
        -- injection H as _ H. now apply (Hrest E1).
      * destruct E1 as [|e1 E1]; simpl in H.
        -- injection H as <- <-. exists [], rest'.
           rewrite Htok at 1. split; [reflexivity|].
           split; [now apply isValue_iff|].
           apply orb_false_iff in Hv as [_ Hv]. cbn [argEvents]. now rewrite Hv.
        -- injection H as _ H. now apply (Hrest E1).
Qed.

Lemma In_add x k fl : In x (add k fl) <-> x = k \/ In x fl.
Proof.
  unfold add. destruct (existsb (String.eqb k) fl) eqn:He.
  - split; [now right|]. intros [->|H]; [|exact H].
    apply existsb_exists in He as (y & Hy & Heq).
    apply String.eqb_eq in Heq. now subst.
  - rewrite in_app_iff. simpl. intuition.
Qed.

Lemma flags_fold evs : forall st k,
  In k (snd (fold_left applyEvent evs st)) <->
  In (AFlag k) evs \/ In k (snd st).
Proof.
  induction evs as [|e evs IH]; intros st k; simpl; [intuition|].
  rewrite IH. destruct e as [k'|k' v']; simpl.
  - rewrite In_add. split.
    + intros [H|[->|H]]; auto.
    + intros [[[= <-]|H]|H]; auto.
  - split.
    + intros [H|H]; auto.
    + intros [[[=]|H]|H]; auto.
Qed.

Lemma assoc_set {V : Type} k k' (v : V) m :
  assoc k (Io.set k' v m) = if String.eqb k' k then Some v else assoc k m.
Proof.
  induction m as [|[k0 v0] m IH]; simpl.
  - reflexivity.
  - destruct (String.eqb k0 k') eqn:H0; simpl.
    + apply String.eqb_eq in H0 as ->. now destruct (String.eqb k' k).
    + rewrite IH. destruct (String.eqb k0 k) eqn:H1; [|reflexivity].
      apply String.eqb_eq in H1 as ->. now rewrite String.eqb_sym, H0.
Qed.

Lemma options_fold k : String.eqb k "__proto__" = false ->
  forall evs st v,
  assoc k (fst (fold_left applyEvent evs st)) = Some v <->
  (exists E1 E2, evs = (E1 ++ AOption k v :: E2)%list /\
     forall v', ~ In (AOption k v') E2) \/
  (assoc k (fst st) = Some v /\ forall v', ~ In (AOption k v') evs).
Proof.
  intros Hk. induction evs as [|e evs IH]; intros st v.
  - simpl. split.
    + intros H. right. auto.
    + intros [(E1 & E2 & H & _)|[H _]]; [destruct E1; discriminate|exact H].
  - cbn [fold_left]. rewrite IH. split.
    + intros [(E1 & E2 & -> & H)|[Ha Hn]].
      * left. exists (e :: E1), E2. auto.
      * destruct e as [k'|k' v']; simpl in Ha.
        -- right. split; [exact Ha|]. intros v0 [[=]|H]. now apply (Hn v0).
        -- unfold assign in Ha. destruct (String.eqb k' "__proto__") eqn:Hp.
           ++ right. split; [exact Ha|]. intros v0 [[= -> ->]|H]; [congruence|].
              now apply (Hn v0).
           ++ rewrite assoc_set in Ha. destruct (String.eqb k' k) eqn:Hkk.
              ** apply String.eqb_eq in Hkk as ->. injection Ha as ->.
                 left. exists [], evs. auto.
              ** right. split; [exact Ha|]. intros v0 [[= -> ->]|H].
                 --- now rewrite String.eqb_refl in Hkk.
                 --- now apply (Hn v0).
    + intros [(E1 & E2 & H & Hn)|[Ha Hn]].
      * destruct E1 as [|e1 E1]; simpl in H; injection H as -> ->.
        -- right. split; [|exact Hn]. simpl. unfold assign.
           now rewrite Hk, assoc_set, String.eqb_refl.
        -- left. exists E1, E2. auto.
      * right. split; [|intros v0 H; apply (Hn v0); now right].
        destruct e as [k'|k' v']; [exact Ha|]. simpl. unfold assign.
        destruct (String.eqb k' "__proto__"); [exact Ha|].
        rewrite assoc_set. destruct (String.eqb k' k) eqn:Hkk; [|exact Ha].
        apply String.eqb_eq in Hkk as ->. elim (Hn v'). now left.
Qed.

(** The value of an option, in terms of the tokens. *)
Lemma getOption_parseArgs argv k v :
  String.eqb k "__proto__" = false ->
  getOption (parseArgs argv) k = Some v <->
  exists pre post,
    tl argv = (pre ++ ("--" ++ k)%string :: v :: post)%list /\
    isValue v /\
    forall pre' v' post',
      post = (pre' ++ ("--" ++ k)%string :: v' :: post')%list -> ~ isValue v'.
Proof.
  intros Hk. unfold getOption.
  change (options (parseArgs argv))
    with (fst (options (parseArgs argv), flags (parseArgs argv))).
  rewrite parseArgs_events, (options_fold k Hk). split.
  - intros [(E1 & E2 & He & Hn)|[H _]]; [|discriminate].
    destruct (argEvents_split _ _ _ _ He) as (pre & post & Ht & Hv & Hpost).
    exists pre, post. split; [exact Ht|]. split; [exact Hv|].
    intros pre' v' post' Hp Hv'. apply (Hn v').
    rewrite <- Hpost, Hp.
    destruct (argEvents_app pre' (("--" ++ k)%string :: v' :: post')) as [E ->].
    rewrite (argEvents_option k v' post' Hv').
    apply in_elt.
  - intros (pre & post & Ht & Hv & Hlast). left.
    destruct (argEvents_app pre (("--" ++ k)%string :: v :: post)) as [E He].
    rewrite (argEvents_option k v post Hv) in He.
    exists E, (argEvents post). split; [now rewrite Ht|].
    intros v' Hin. apply in_split in Hin as (E1 & E2 & Hin).
    destruct (argEvents_split _ _ _ _ Hin) as (pre' & post' & Hp & Hv' & _).
    exact (Hlast pre' v' post' Hp Hv').
Qed.

Lemma parseArgs_flags_aux argv k :
  In k (flags (parseArgs argv)) <->
  exists pre post,
    tl argv = (pre ++ ("--" ++ k)%string :: post)%list /\ noValue post.
Proof.
  change (flags (parseArgs argv))
    with (snd (options (parseArgs argv), flags (parseArgs argv))).
  rewrite parseArgs_events, flags_fold. split.
  - intros [H|[]]. apply in_split in H as (E1 & E2 & H).
    destruct (argEvents_split _ _ _ _ H) as (pre & post & Ht & Hv & _).
    eauto.
  - intros (pre & post & Ht & Hv). left. rewrite Ht.
    destruct (argEvents_app pre (("--" ++ k)%string :: post)) as [E ->].
    rewrite (argEvents_flag k post Hv). apply in_elt.
Qed.

(** X16. For an option name that is no property of [Object.prototype],
    [requireOption] returns the value that follows the last [--name] that
    is followed by a value (a token that is not empty and does not start
    with two dashes); without such a pair it throws, and the message is
    "Missing required option --name". *)
Theorem requireOption_parseArgs argv k :
  ~ In k inherited ->
  (forall v,
     requireOption (parseArgs argv) k = Ok v <->
     exists pre post,
       tl argv = (pre ++ ("--" ++ k)%string :: v :: post)%list /\
       isValue v /\
       forall pre' v' post',
         post = (pre' ++ ("--" ++ k)%string :: v' :: post')%list -> ~ isValue v') /\
  (forall message,
     requireOption (parseArgs argv) k = Throw message ->
     message = "Missing required option --" ++ k).
Proof.
  intros Hk.
  assert (Hp : String.eqb k "__proto__" = false).
  { apply String.eqb_neq. intros ->. apply Hk. now left. }
  split.
  - intros v. rewrite <- (getOption_parseArgs argv k v Hp).
    unfold requireOption.
    destruct (getOption (parseArgs argv) k) as [value|] eqn:Hg.
    + apply (getOption_parseArgs argv k value Hp) in Hg
        as (_ & _ & _ & [Hne _] & _).
      apply isEmpty_false in Hne. rewrite Hne.
      split; intros [= ->]; reflexivity.
    + split; discriminate.
  - intros message. unfold requireOption.
    destruct (getOption (parseArgs argv) k) as [value|];
      [destruct (isEmpty value)|]; now intros [= <-].
Qed.

(** X17. For a name that [Object.prototype] does not define, [getBoolOption]
    is true as soon as the name stands as a bare switch somewhere on the
    command line (as its last token, or followed by an empty token or by a
    token that starts with two dashes), whatever value is given for it
    elsewhere; without a bare switch the last value given decides; without
    either it is the default. *)
Theorem getBoolOption_parseArgs argv k defaultValue :
  ~ In k inherited ->
  let bare := exists pre post,
    tl argv = (pre ++ ("--" ++ k)%string :: post)%list /\ noValue post in
  let valued v := exists pre post,
    tl argv = (pre ++ ("--" ++ k)%string :: v :: post)%list /\
    isValue v /\
    forall pre' v' post',
      post = (pre' ++ ("--" ++ k)%string :: v' :: post')%list -> ~ isValue v' in
  (bare -> getBoolOption (parseArgs argv) k defaultValue = true) /\
  (forall v, ~ bare -> valued v ->
     getBoolOption (parseArgs argv) k defaultValue
     = (String.eqb (toLowerCase v) "true" || String.eqb (toLowerCase v) "1"
        || String.eqb (toLowerCase v) "yes")) /\
  (~ bare -> (forall v, ~ valued v) ->
   getBoolOption (parseArgs argv) k defaultValue = defaultValue).
Proof.
  intros Hk bare valued.
  assert (Hp : String.eqb k "__proto__" = false).
  { apply String.eqb_neq. intros ->. apply Hk. now left. }
  assert (Hflag : existsb (String.eqb k) (flags (parseArgs argv)) = true <-> bare).
  { rewrite existsb_exists. unfold bare. rewrite <- parseArgs_flags_aux. split.
    - intros (x & Hx & He). apply String.eqb_eq in He. now subst.
    - intros H. exists k. split; [exact H|apply String.eqb_refl]. }
  unfold getBoolOption. split; [|split].
  - intros H. apply Hflag in H. now rewrite H.
  - intros v Hb Hv.
    destruct (existsb (String.eqb k) (flags (parseArgs argv))) eqn:He;
      [now elim Hb; apply Hflag|].
    apply (getOption_parseArgs argv k v Hp) in Hv. now rewrite Hv.
  - intros Hb Hv.
    destruct (existsb (String.eqb k) (flags (parseArgs argv))) eqn:He;
      [now elim Hb; apply Hflag|].
    destruct (getOption (parseArgs argv) k) as [v|] eqn:Hg; [|reflexivity].
    apply (getOption_parseArgs argv k v Hp) in Hg. now elim (Hv v).
Qed.

End ConfigFacts.

(* ===================================================================== *)
(** ** cpamc: the console status *)
(* ===================================================================== *)

Section StatusFacts.
Context {R : Runtime}.
Import Text Cpamc CpamcStatus Props.

Variable JSON_stringify : json -> string.

Lemma statusLoop_unfold c state timeoutMs k elapsed :
  statusLoop JSON_stringify c state timeoutMs k elapsed =
  if (elapsed <? timeoutMs)%Z then
    match onePass JSON_stringify c state k with
    | Throw msg => Throw msg
    | Ok (Some status) => Ok status
    | Ok None =>
        match pause c k with
        | Throw msg => Throw msg
        | Ok late =>
            statusLoop JSON_stringify c state timeoutMs (S k)
                       (elapsed + 1000 + Z.of_N late)
        end
    end
  else Ok timedOut.
Proof.
  rewrite statusLoop_equation_1.
  destruct (Z_lt_dec elapsed timeoutMs) as [H|H]; simpl.
  - rewrite (proj2 (Z.ltb_lt _ _) H).
    destruct (onePass JSON_stringify c state k) as [[st|]|]; try reflexivity.
    simpl. destruct (pause c k); reflexivity.
  - rewrite (proj2 (Z.ltb_ge _ _)) by lia. reflexivity.
Qed.

Lemma consoleElapsedAt_lower_bound c k :
  (1000 * Z.of_nat k <= consoleElapsedAt c k)%Z.
Proof.
  induction k as [|k IH]; [simpl; lia|].
  cbn [consoleElapsedAt]. pose proof (N2Z.is_nonneg (consoleLate c k)). lia.
Qed.

(** The loop, entered for the [k]-th pass, runs inconclusive passes until a
    pass [k'] that is not begun because the timeout has elapsed, or that
    returns a status or throws. *)
Lemma statusLoop_run c state timeoutMs k :
  exists k',
    k <= k' /\
    (forall i, k <= i < k' ->
       (consoleElapsedAt c i < timeoutMs)%Z /\
       inconclusive JSON_stringify c state i) /\
    ((timeoutMs <= consoleElapsedAt c k')%Z /\
       statusLoop JSON_stringify c state timeoutMs k (consoleElapsedAt c k)
       = Ok timedOut
     \/
     (consoleElapsedAt c k' < timeoutMs)%Z /\
       match passResult JSON_stringify c state k' with
       | Ok None => False
       | Ok (Some status) =>
           statusLoop JSON_stringify c state timeoutMs k (consoleElapsedAt c k)
           = Ok status
       | Throw msg =>
           statusLoop JSON_stringify c state timeoutMs k (consoleElapsedAt c k)
           = Throw msg
       end).
Proof.
  remember (Z.to_nat (timeoutMs - consoleElapsedAt c k)) as n eqn:En.
  revert k En. induction n as [n IH] using lt_wf_ind. intros k En.
  rewrite statusLoop_unfold.
  destruct (consoleElapsedAt c k <? timeoutMs)%Z eqn:Et.
  - apply Z.ltb_lt in Et.
    destruct (onePass JSON_stringify c state k) as [[st|]|msg] eqn:Ep.
    + exists k. split; [lia|]. split; [intros i Hi; lia|].
      right. split; [exact Et|]. unfold passResult. now rewrite Ep.
    + destruct (pause c k) as [late|msg] eqn:Hpause.
      * assert (Hlate : consoleLate c k = late)
          by (unfold consoleLate; now rewrite Hpause).
        pose proof (N2Z.is_nonneg late) as Hl.
        destruct (IH (Z.to_nat (timeoutMs - consoleElapsedAt c (S k))))
          with (k := S k) as (k' & Hk & Hbefore & Hres);
          [subst n; cbn [consoleElapsedAt]; rewrite Hlate; lia|reflexivity|].
        cbn [consoleElapsedAt] in Hres. rewrite Hlate in Hres.
        exists k'. split; [lia|]. split.
        -- intros i Hi. destruct (Nat.eq_dec i k) as [->|Hne].
           ++ split; [exact Et|]. split; [exact Ep|eauto].
           ++ apply Hbefore. lia.
        -- exact Hres.
      * exists k. split; [lia|]. split; [intros i Hi; lia|].
        right. split; [exact Et|]. unfold passResult. now rewrite Ep, Hpause.
    + exists k. split; [lia|]. split; [intros i Hi; lia|].
      right. split; [exact Et|]. unfold passResult. now rewrite Ep.
  - apply Z.ltb_ge in Et. exists k. split; [lia|].
    split; [intros i Hi; lia|]. now left.
Qed.

Lemma fromResponse_conclusive r st :
  fromResponse JSON_stringify r = Some st ->
  CpamcAuthStatus.status st <> waiting /\
  exists m, CpamcAuthStatus.message st = Some m.
Proof.
  unfold fromResponse.
  destruct (normalizeStatus _); [| |destruct (normalizeStatus _)];
    intros [= <-]; simpl; (split; [discriminate|eauto]).
Qed.

Lemma fromPage_conclusive innerText st :
  fromPage innerText = Some st ->
  CpamcAuthStatus.status st <> waiting /\
  exists m, CpamcAuthStatus.message st = Some m.
Proof.
  unfold fromPage.
  destruct (existsb _ _); [|destruct (existsb _ _)];
    intros [= <-]; simpl; (split; [discriminate|eauto]).
Qed.

Lemma onePass_conclusive c state k st :
  onePass JSON_stringify c state k = Ok (Some st) ->
  CpamcAuthStatus.status st <> waiting /\
  exists m, CpamcAuthStatus.message st = Some m.
Proof.
  unfold onePass.
  destruct state as [[|a s]|].
  - destruct (bodyText c k); simpl; [|discriminate].
    intros [= H]. now apply fromPage_conclusive in H.
  - destruct (response c k _); simpl; [|discriminate].
    intros [= H]. now apply fromResponse_conclusive in H.
  - destruct (bodyText c k); simpl; [|discriminate].
    intros [= H]. now apply fromPage_conclusive in H.
Qed.

Lemma passResult_Some c state k st :
  passResult JSON_stringify c state k = Ok (Some st) ->
  onePass JSON_stringify c state k = Ok (Some st).
Proof.
  unfold passResult.
  destruct (onePass JSON_stringify c state k) as [[s|]|]; try discriminate.
  - auto.
  - destruct (pause c k); discriminate.
Qed.

Lemma poll_result c state timeoutMs st :
  pollCpamcAuthStatus JSON_stringify c state timeoutMs = Ok st ->
  exists n,
    (forall i, i < n ->
       (consoleElapsedAt c i < timeoutMs)%Z /\
       inconclusive JSON_stringify c state i) /\
    ((timeoutMs <= consoleElapsedAt c n)%Z /\ st = timedOut
     \/
     (consoleElapsedAt c n < timeoutMs)%Z /\
     onePass JSON_stringify c state n = Ok (Some st) /\
     CpamcAuthStatus.status st <> waiting) /\
    exists m, CpamcAuthStatus.message st = Some m.
Proof.
  unfold pollCpamcAuthStatus. intros H.
  destruct (statusLoop_run c state timeoutMs 0)
    as (n & _ & Hbefore & [[Ht Hr]|[Ht Hr]]); simpl consoleElapsedAt in Hr.
  - rewrite Hr in H. injection H as <-. exists n.
    split; [intros i Hi; apply Hbefore; lia|].
    split; [now left|]. simpl. eauto.
  - destruct (passResult JSON_stringify c state n) as [[s|]|msg] eqn:Hp;
      [|contradiction|congruence].
    rewrite Hr in H. injection H as <-.
    apply passResult_Some in Hp.
    destruct (onePass_conclusive _ _ _ _ Hp) as [Hw Hm].
    exists n. split; [intros i Hi; apply Hbefore; lia|].
    split; [right; auto|exact Hm].
Qed.

(** X18. A status that [pollCpamcAuthStatus] returns always carries a
    message; it is a waiting status only as the timeout status, returned
    by the pass that begins when the timeout has elapsed, the passes before
    it being inconclusive; any other status was read in a pass begun before
    the timeout, after inconclusive passes. *)
Theorem status_poll_result c state timeoutMs st :
  pollCpamcAuthStatus JSON_stringify c state timeoutMs = Ok st ->
  (exists m, CpamcAuthStatus.message st = Some m) /\
  (CpamcAuthStatus.status st = waiting <-> st = timedOut) /\
  exists n,
    (forall i, i < n ->
       (consoleElapsedAt c i < timeoutMs)%Z /\
       inconclusive JSON_stringify c state i) /\
    ((timeoutMs <= consoleElapsedAt c n)%Z /\ st = timedOut
     \/
     (1000 * Z.of_nat n < timeoutMs)%Z /\
     onePass JSON_stringify c state n = Ok (Some st)).
Proof.
  intros H. apply poll_result in H as (n & Hbefore & Hres & Hm).
  split; [exact Hm|]. split.
  - split; [|now intros ->].
    destruct Hres as [[_ ->]|(_ & _ & Hw)]; [reflexivity|congruence].
  - exists n. split; [exact Hbefore|].
    destruct Hres as [Hto|(Ht & Hp & _)]; [now left|right].
    split; [|exact Hp]. pose proof (consoleElapsedAt_lower_bound c n). lia.
Qed.

(** X19. The poll returns whenever no request and no pause throws, at the
    latest with the pass that begins after the timeout. *)
Theorem status_poll_returns c state timeoutMs :
  (forall k, exists r, onePass JSON_stringify c state k = Ok r) ->
  (forall k, exists late, pause c k = Ok late) ->
  exists st n,
    pollCpamcAuthStatus JSON_stringify c state timeoutMs = Ok st /\
    (1000 * Z.of_nat n <= Z.max 0 timeoutMs + 1000)%Z /\
    (st = timedOut \/ onePass JSON_stringify c state n = Ok (Some st)).
Proof.
  intros Hpass Hpause. unfold pollCpamcAuthStatus.
  destruct (statusLoop_run c state timeoutMs 0)
    as (n & _ & Hbefore & Hres); simpl consoleElapsedAt in Hres.
  assert (Hn : (1000 * Z.of_nat n <= Z.max 0 timeoutMs + 1000)%Z).
  { destruct n as [|n]; [lia|].
    destruct (Hbefore n) as [Ht _]; [lia|].
    pose proof (consoleElapsedAt_lower_bound c n). lia. }
  destruct Hres as [[Ht Hr]|[Ht Hr]].
  - exists timedOut, n. auto.
  - unfold passResult in Hr.
    destruct (Hpass n) as [[st|] Hp]; rewrite Hp in Hr.
    + exists st, n. auto.
    + destruct (Hpause n) as [late Hl]. rewrite Hl in Hr. contradiction.
Qed.

End StatusFacts.

Section ConsoleMessage.
Context {R : Runtime}.
Import Main.

Variable opts : RunOptions.
Variable JSON_stringify : json -> string.

(** X20. The message of a rejected login, of a challenge and of a console
    error is the one the console status carries, and the poll always
    carries one; the messages the orchestrator holds ready for a status
    without message are never recorded. *)
Theorem console_message_recorded w account flowResult challenge status console :
  newContext w = Ok tt ->
  Spec.reachesReconciliation opts w flowResult challenge status ->
  (forall state timeoutMs,
     pollCpamcAuthStatus w state timeoutMs
     = CpamcStatus.pollCpamcAuthStatus JSON_stringify console (Some state)
         timeoutMs) ->
  FlowResult.invalidCredentials flowResult = true \/ challenge = true \/
  Cpamc.CpamcAuthStatus.status status = Cpamc.error ->
  exists r m,
    iteration opts w account = Ok r /\
    AuthResult.status r = failed /\
    Cpamc.CpamcAuthStatus.message status = Some m /\
    AuthResult.message r = Some m /\
    (Cpamc.CpamcAuthStatus.status status = Cpamc.waiting ->
     m = "Timed out waiting auth status").
Proof.
  intros Hctx Hreach Hpoll Hcase.
  assert (Hstatus : exists state timeoutMs,
    CpamcStatus.pollCpamcAuthStatus JSON_stringify console (Some state) timeoutMs
    = Ok status).
  { destruct Hreach as (_ & _ & _ & authUrl & state & _ & _ & _ & _ & _ & _ & H).
    rewrite Hpoll in H. eauto. }
  destruct Hstatus as (state & timeoutMs & Hst).
  destruct (poll_result JSON_stringify _ _ _ _ Hst) as (n & _ & Hres & m & Hm).
  unfold iteration. rewrite Hctx. simpl.
  rewrite (tryBlock_reconcile opts w account flowResult challenge status Hreach).
  unfold reconcile, failure. rewrite Hm. simpl.
  assert (Hto : Cpamc.CpamcAuthStatus.status status = Cpamc.waiting ->
                m = "Timed out waiting auth status").
  { intros Hw. destruct Hres as [[_ ->]|(_ & _ & Hne)]; [|congruence].
    simpl in Hm. congruence. }
  destruct (FlowResult.invalidCredentials flowResult) eqn:Hi.
  - eexists _, m. split; [reflexivity|]. simpl. auto.
  - destruct challenge.
    + eexists _, m. split; [reflexivity|]. simpl. auto.
    + destruct Hcase as [Hc|[Hc|Hc]]; try discriminate.
      rewrite Hc. eexists _, m. split; [reflexivity|]. simpl.
      repeat split; auto. discriminate.
Qed.

End ConsoleMessage.

(* ===================================================================== *)
(** ** cpamc: the authorization URL asked from the console *)
(* ===================================================================== *)

Section OauthUrlFacts.
Import OauthUrl.

Lemma firstHttp_Some obj keys value :
  firstHttp obj keys = Some value ->
  startsWith value "http" = true /\
  exists pre key2 post,
    keys = (pre ++ key2 :: post)%list /\
    field obj key2 = Some (JStr value) /\
    forall k v, In k pre -> field obj k = Some (JStr v) ->
                startsWith v "http" = false.
Proof.
  induction keys as [|k keys IH]; [discriminate|]. simpl.
  assert (Hskip : (forall v, field obj k = Some (JStr v) ->
                             startsWith v "http" = false) ->
    firstHttp obj keys = Some value ->
    startsWith value "http" = true /\
    exists pre key2 post,
      k :: keys = (pre ++ key2 :: post)%list /\
      field obj key2 = Some (JStr value) /\
      forall k' v, In k' pre -> field obj k' = Some (JStr v) ->
                   startsWith v "http" = false).
  { intros Hk H. destruct (IH H) as (Hv & pre & key2 & post & -> & Hf & Hpre).
    split; [exact Hv|]. exists (k :: pre), key2, post.
    split; [reflexivity|]. split; [exact Hf|].
    intros k' v [<-|Hin] Hfield; [now apply Hk|now apply (Hpre k')]. }
  destruct (field obj k) as [[|b|n|v|items|fs]|] eqn:Hf;
    try (apply Hskip; intros v' [=]).
  destruct (startsWith v "http") eqn:Hv.
  - intros [= <-]. split; [exact Hv|]. exists [], k, keys.
    split; [reflexivity|]. split; [exact Hf|]. intros k' v' [].
  - apply Hskip. now intros v' [= <-].
Qed.

Lemma firstHttp_None obj keys :
  firstHttp obj keys = None ->
  forall k v, In k keys -> field obj k = Some (JStr v) ->
              startsWith v "http" = false.
Proof.
  induction keys as [|k0 keys IH]; [intros _ k v []|]. simpl.
  destruct (field obj k0) as [[|b|n|v0|items|fs]|] eqn:Hf;
    try (intros H k v [<-|Hin] Hk; [congruence|now apply (IH H k)]).
  destruct (startsWith v0 "http") eqn:Hv; [discriminate|].
  intros H k v [<-|Hin] Hk; [congruence|now apply (IH H k)].
Qed.

Lemma firstHttp_first obj keys value :
  Props.firstUrl obj keys value -> firstHttp obj keys = Some value.
Proof.
  intros (pre & key2 & post & -> & Hf & Hv & Hpre).
  induction pre as [|k pre IH]; cbn [firstHttp app].
  - now rewrite Hf, Hv.
  - assert (Hrest : firstHttp obj (pre ++ key2 :: post) = Some value).
    { apply IH. intros k' v Hin. apply Hpre. now right. }
    destruct (field obj k) as [[|b|n|v|items|fs]|] eqn:Hk; try exact Hrest.
    now rewrite (Hpre k v (or_introl eq_refl) Hk).
Qed.

Lemma firstHttp_absent obj keys :
  Props.noUrl obj keys -> firstHttp obj keys = None.
Proof.
  intros Hno. destruct (firstHttp obj keys) as [value|] eqn:E; [|reflexivity].
  apply firstHttp_Some in E as (Hv & pre & key2 & post & -> & Hf & _).
  rewrite (Hno key2 value (in_elt _ _ _) Hf) in Hv. discriminate.
Qed.

(** X21. The URL read from the response of the console is the response
    itself when that is a string starting with http, and empty for any
    other string; for an object it is the string starting with http that
    stands under the first of the four keys to hold one; when no key of the
    response holds one, it is the one under the first such key of its
    [data]; it is empty in every other case. *)
Theorem fallbackUrl_origin r :
  let data := CpamcStatus.parsed r in
  (forall s, data = JStr s ->
     fallbackUrl r = if startsWith s "http" then s else EmptyString) /\
  (forall u, Props.firstUrl data candidates u -> fallbackUrl r = u) /\
  (forall nested u,
     Props.noUrl data candidates ->
     field data "data" = Some nested ->
     Props.firstUrl nested candidates u ->
     fallbackUrl r = u) /\
  ((forall s, data <> JStr s) ->
   Props.noUrl data candidates ->
   (forall nested, field data "data" = Some nested ->
                   Props.noUrl nested candidates) ->
   fallbackUrl r = EmptyString).
Proof.
  cbv zeta. unfold fallbackUrl.
  destruct (CpamcStatus.parsed r) as [|b|n|s|items|fs] eqn:Hp.
  - split; [discriminate|]. split; [|split].
    + intros u (pre & key2 & post & _ & Hf & _). discriminate Hf.
    + intros nested u _ Hd. discriminate Hd.
    + reflexivity.
  - split; [discriminate|]. split; [|split].
    + intros u (pre & key2 & post & _ & Hf & _). discriminate Hf.
    + intros nested u _ Hd. discriminate Hd.
    + reflexivity.
  - split; [discriminate|]. split; [|split].
    + intros u (pre & key2 & post & _ & Hf & _). discriminate Hf.
    + intros nested u _ Hd. discriminate Hd.
    + reflexivity.
  - split; [now intros s' [= <-]|]. split; [|split].
    + intros u (pre & key2 & post & _ & Hf & _). discriminate Hf.
    + intros nested u _ Hd. discriminate Hd.
    + intros Hs. now elim (Hs s).
  - split; [discriminate|]. split; [|split].
    + intros u (pre & key2 & post & _ & Hf & _). discriminate Hf.
    + intros nested u _ Hd. discriminate Hd.
    + intros _ Hno _. now rewrite (firstHttp_absent _ _ Hno).
  - split; [discriminate|]. split; [|split].
    + intros u Hu. now rewrite (firstHttp_first _ _ _ Hu).
    + intros nested u Hno Hd Hu. rewrite (firstHttp_absent _ _ Hno), Hd.
      pose proof (firstHttp_first _ _ _ Hu) as Hn.
      destruct Hu as (pre & key2 & post & _ & Hf & _).
      destruct nested as [|b|n|s|items|fs']; try discriminate Hf.
      now rewrite Hn.
    + intros _ Hno Hnested. rewrite (firstHttp_absent _ _ Hno).
      destruct (field (JObj fs) "data") as [[|b|n|s|items|fs']|] eqn:Hd;
        try reflexivity;
        now rewrite (firstHttp_absent _ _ (Hnested _ eq_refl)).
Qed.

End OauthUrlFacts.

(* ===================================================================== *)
(** ** login-flow.ts: the page the flow goes on with *)
(* ===================================================================== *)

Section ActivePageFacts.
Import Text ActivePage.

Lemma find_rev_last {A : Type} (f : A -> bool) l :
  match find f (rev l) with
  | Some p =>
      f p = true /\
      exists pre post, l = (pre ++ p :: post)%list /\
                       forall q, In q post -> f q = false
  | None => forall q, In q l -> f q = false
  end.
Proof.
  induction l as [|x l IH] using rev_ind; [intros q []|].
  rewrite rev_app_distr. simpl. destruct (f x) eqn:Hx.
  - split; [exact Hx|]. exists l, []. split; [reflexivity|intros q []].
  - destruct (find f (rev l)) as [p|].
    + destruct IH as (Hp & pre & post & -> & Hpost). split; [exact Hp|].
      exists pre, (post ++ [x])%list. split; [now rewrite <- app_assoc|].
      intros q Hq. apply in_app_iff in Hq as [Hq|[<-|[]]]; auto.
    + intros q Hq. apply in_app_iff in Hq as [Hq|[<-|[]]]; auto.
Qed.

Lemma last_In {A : Type} (l : list A) d : l <> [] -> In (last l d) l.
Proof.
  induction l as [|x [|y l] IH]; intros H; [congruence|now left|].
  right. apply IH. discriminate.
Qed.

(** X22. The page picked is an open page of the context whenever there is
    one, the last one with the URL of the provider or of the callback if
    there is such a page and the last one else; the seed page is picked
    only when no page of the context is open. *)
Theorem pickActiveAuthPage_picks contextPages seedPage :
  let openPages := filter (fun p => negb (isClosed p)) contextPages in
  let fits p := search authUrlPattern (url p) in
  let picked := pickActiveAuthPage contextPages seedPage in
  (openPages = [] -> picked = seedPage) /\
  (openPages <> [] -> In picked contextPages /\ isClosed picked = false) /\
  ((exists q, In q openPages /\ fits q = true) ->
   fits picked = true /\
   exists pre post,
     openPages = (pre ++ picked :: post)%list /\
     forall q, In q post -> fits q = false) /\
  ((forall q, In q openPages -> fits q = false) ->
   picked = last openPages seedPage).
Proof.
  intros openPages fits picked. unfold picked, pickActiveAuthPage, lastAuthPage.
  fold openPages. fold fits.
  pose proof (find_rev_last fits openPages) as Hfind.
  assert (Hopen : forall p, In p openPages ->
                            In p contextPages /\ isClosed p = false).
  { intros p Hp. apply filter_In in Hp as [Hin Hc]. split; [exact Hin|].
    now destruct (isClosed p). }
  destruct (find fits (rev openPages)) as [p|].
  - destruct Hfind as (Hp & pre & post & Heq & Hpost).
    split; [intros H; rewrite H in Heq; destruct pre; discriminate|].
    split; [intros _; apply Hopen; rewrite Heq; apply in_elt|].
    split; [intros _; split; [exact Hp|eauto]|].
    intros Hnone. rewrite (Hnone p) in Hp; [discriminate|].
    rewrite Heq. apply in_elt.
  - split; [now intros ->|].
    split; [intros Hne; apply Hopen; now apply last_In|].
    split; [|reflexivity].
    intros (q & Hq & Hfit). rewrite (Hfind q Hq) in Hfit. discriminate.
Qed.

End ActivePageFacts.

(* ===================================================================== *)
(** ** The theorems at concrete inputs *)
(* ===================================================================== *)

Import Sample Examples.

(** *** Rotation indexer *)

(** C4, as first stated, fails: a file holding the JSON value null can be
    read and parsed, its content has neither a true disabled flag nor an
    expired string, so the specification's classification is active, and
    classify returns invalid. *)
Lemma classify_null_is_invalid :
  readFileSync fs_null "auth/codex-a.json" = Parsed JNull /\
  Spec.classification 0 (readFileSync fs_null "auth/codex-a.json") = "active" /\
  Rotate.classify 0 fs_null "auth/codex-a.json"
  = Rotate.mkEntry "codex-a.json" "auth/codex-a.json" None "invalid".
Proof. repeat split. Qed.

Lemma writeRotationIndex_merge_witness :
  forallb Rotate.wellFormed (Rotate.accounts scan_2024) = true /\
  exists final,
    Rotate.writeRotationIndex "2024-06-01T00:00:01.000Z"
      (fs_auth (Some prior_index)) "auth/accounts-index.json" scan_2024
    = Ok final /\
    In stale_entry (Rotate.accounts final) /\
    Spec.keyIn "a@x.com|codex-a.json" (Rotate.accounts final) /\
    forall e, In e (Rotate.accounts final) ->
      Spec.key e = Some "a@x.com|codex-a.json" ->
      e = Rotate.mkEntry "A@x.com" "auth/codex-a.json" None "active".
Proof.
  split; [reflexivity|].
  destruct (writeRotationIndex_merge "2024-06-01T00:00:01.000Z"
              (fs_auth (Some prior_index)) "auth/accounts-index.json"
              scan_2024 eq_refl)
    as (final & Hw & _ & _ & Hkeys & Hlast & Hkeep).
  assert (Hb : Spec.keyIn "a@x.com|codex-a.json" (Rotate.accounts scan_2024)).
  { exists (Rotate.mkEntry "A@x.com" "auth/codex-a.json" None "active").
    split; [now left|reflexivity]. }
  exists final. split; [exact Hw|]. split; [|split].
  - apply (Hkeep "gone@x.com|codex-gone.json").
    + exists [],
        [Rotate.mkEntry "a@x.com" "auth/codex-a.json" None "invalid"].
      split; [reflexivity|]. split; [reflexivity|].
      intros (e & [<-|[]] & He). discriminate He.
    + intros (e & [<-|[<-|[]]] & He); discriminate He.
  - apply Hkeys. right. exact Hb.
  - intros e He Hk.
    destruct (proj1 (Hlast _ e He Hk) Hb) as (pre & post & Hl & _ & Hn).
    destruct pre as [|x pre]; [now injection Hl as <-|].
    injection Hl as <- Hl. destruct pre as [|y pre].
    + injection Hl as <- <-. discriminate Hk.
    + injection Hl as _ Hl. now destruct pre.
Defined.

(** C3, as first stated, fails: the previous index names one artifact
    twice, both entries are well-formed and have the same key, the scan
    finds nothing, and only the second entry is written. *)
Lemma earlier_twin_not_written :
  Rotate.existingAccounts fs_twice "auth/accounts-index.json"
  = [twice_first; twice_second] /\
  Rotate.wellFormed twice_first = true /\
  Spec.key twice_first = Spec.key twice_second /\
  exists final,
    Rotate.writeRotationIndex "2024-06-01T00:00:01.000Z" fs_twice
      "auth/accounts-index.json" (Rotate.mkIndex "2024-06-01T00:00:00.000Z" [])
    = Ok final /\
    Rotate.accounts final = [twice_second] /\
    ~ In twice_first (Rotate.accounts final).
Proof.
  repeat (split; [reflexivity|]). eexists. split; [reflexivity|].
  split; [reflexivity|]. intros [H|[]]. discriminate H.
Qed.

Lemma index_counts_witness :
  Rotate.buildRotationIndex clock_2024 "2024-06-01T00:00:00.000Z"
    (fs_auth (Some prior_index)) "auth" = Ok scan_2024 /\
  Spec.countsAgree scan_2024 /\
  Spec.countsSum scan_2024 = Rotate.total scan_2024 /\
  exists final,
    Rotate.writeRotationIndex "2024-06-01T00:00:01.000Z"
      (fs_auth (Some prior_index)) "auth/accounts-index.json" scan_2024
    = Ok final /\
    Spec.countsAgree final /\
    Spec.countsSum final = Rotate.total final.
Proof.
  assert (Hb : Rotate.buildRotationIndex clock_2024 "2024-06-01T00:00:00.000Z"
                 (fs_auth (Some prior_index)) "auth" = Ok scan_2024)
    by reflexivity.
  destruct (index_counts clock_2024 "2024-06-01T00:00:00.000Z"
              (fs_auth (Some prior_index)) "auth" scan_2024 Hb)
    as (Hagree & Hsum & Hwrite).
  destruct (Hwrite "2024-06-01T00:00:01.000Z" (fs_auth (Some prior_index))
              "auth/accounts-index.json") as (final & Hw & Ha & Hs).
  split; [exact Hb|]. split; [exact Hagree|]. split; [exact Hsum|].
  exists final. split; [exact Hw|]. split; [exact Ha|].
  apply Hs. reflexivity.
Defined.

(** C5, as first stated, fails: an entry of the previous index that has a
    string email and a string file is kept whatever its status; with the
    status "revoked" it is counted in total and in none of the four
    counters. *)
Lemma unknown_status_breaks_sum :
  Main.runRotateIndexCommand clock_2024 "2024-06-01T00:00:00.000Z"
    "2024-06-01T00:00:01.000Z" fs_odd "auth" "auth/accounts-index.json"
  = Ok odd_index /\
  Rotate.total odd_index = 1 /\
  Spec.countsSum odd_index = 0.
Proof. repeat split. Qed.

Lemma rerun_same_accounts_witness :
  Main.runRotateIndexCommand clock_2024 "2024-06-01T00:00:00.000Z"
    "2024-06-01T00:00:01.000Z" fs_no_index "auth"
    "auth/accounts-index.json" = Ok index_of_first_run /\
  readdirSync (fs_with_index (Rotate.toJSON index_of_first_run)) "auth"
  <> readdirSync fs_no_index "auth" /\
  exists final2,
    Main.runRotateIndexCommand clock_2024_next_day "2024-06-02T00:00:00.000Z"
      "2024-06-02T00:00:01.000Z"
      (fs_with_index (Rotate.toJSON index_of_first_run)) "auth"
      "auth/accounts-index.json" = Ok final2 /\
    Rotate.accounts final2 = Rotate.accounts index_of_first_run.
Proof.
  split; [reflexivity|]. split; [discriminate|].
  apply (rerun_same_accounts clock_2024 clock_2024_next_day
           "2024-06-01T00:00:00.000Z" "2024-06-01T00:00:01.000Z"
           "2024-06-02T00:00:00.000Z" "2024-06-02T00:00:01.000Z"
           fs_no_index
           (fs_with_index (Rotate.toJSON index_of_first_run))
           "auth" "auth/accounts-index.json" index_of_first_run
           ["auth/codex-a.json"; "auth/codex-b.json"]);
    try reflexivity.
  - intros f [<-|[<-|[]]]; reflexivity.
  - intros f j s t [<-|[<-|[]]] Hj Hs Ht;
      vm_compute in Hj; injection Hj as <-;
      vm_compute in Hs; try discriminate Hs; injection Hs as <-;
      vm_compute in Ht; injection Ht as <-; reflexivity.
Defined.

(** C6, as first stated, fails: the directory is unchanged, but the
    artifact's expiry lies between the two runs; the first run records it
    as active, the second as expired. *)
Lemma rerun_after_expiry_differs :
  Main.runRotateIndexCommand (fun _ => 946684800000%Z) "t0" "t1"
    (fs_expiring None) "auth" "auth/accounts-index.json" = Ok first_index /\
  Main.runRotateIndexCommand (fun _ => 946684800001%Z) "t0" "t2"
    (fs_expiring (Some (Rotate.toJSON first_index))) "auth"
    "auth/accounts-index.json" = Ok second_index /\
  ~ (forall e, In e (Rotate.accounts second_index) ->
               In e (Rotate.accounts first_index)).
Proof.
  split; [reflexivity|]. split; [reflexivity|].
  intros H. specialize (H _ (or_introl eq_refl)).
  destruct H as [H|[]]. discriminate H.
Qed.

Lemma malformed_prior_entries_dropped_witness :
  Rotate.existingAccounts (fs_auth (Some prior_index)) "auth/accounts-index.json"
  = [stale_entry; Rotate.mkEntry "a@x.com" "auth/codex-a.json" None "invalid"] /\
  exists final,
    Rotate.writeRotationIndex "2024-06-01T00:00:01.000Z"
      (fs_auth (Some prior_index)) "auth/accounts-index.json" scan_2024
    = Ok final /\
    ~ In (JStr "codex-lost.json") (Rotate.accounts final) /\
    ~ In (JObj [("email", JStr "d@x.com")]) (Rotate.accounts final).
Proof.
  destruct (malformed_prior_entries_dropped "2024-06-01T00:00:01.000Z"
              (fs_auth (Some prior_index)) "auth/accounts-index.json"
              prior_index
              [stale_entry;
               Rotate.mkEntry "a@x.com" "auth/codex-a.json" None "invalid";
               JStr "codex-lost.json";
               JObj [("email", JStr "d@x.com")]]
              scan_2024 eq_refl eq_refl eq_refl eq_refl)
    as (Hexisting & final & Hw & Hdrop).
  split; [exact Hexisting|]. exists final. split; [exact Hw|].
  split; apply Hdrop; simpl; auto.
Defined.

(** *** Batch orchestrator *)

Lemma one_result_per_account_witness :
  exists summary,
    Main.runAuthCommand options worlds_ok_then_bad_key (Ok tt)
      [account_a; account_b] = Ok summary /\
    Forall2 (Spec.resultFor options) [account_a; account_b]
      (Main.results summary) /\
    length (Main.results summary) = 2.
Proof.
  apply (one_result_per_account options worlds_ok_then_bad_key
           [account_a; account_b]).
  intros [|[|i]] Hi; [reflexivity|reflexivity|simpl in Hi; lia].
Defined.

(** C1, as first stated, fails: browser.newContext is awaited outside the
    try block; when it throws for the only account the loop is left with an
    empty results list and the command throws. *)
Lemma context_failure_leaves_results_short :
  Main.runAuthCommand options (fun _ => world_browser_gone) (Ok tt) [account_a]
  = Throw "browser.newContext: Target page, context or browser has been closed"
  /\
  ~ Forall2 (Spec.resultFor options) [account_a]
      (fst (Main.loopFrom options (fun _ => world_browser_gone) 0 [account_a] [])).
Proof.
  split; [reflexivity|]. simpl. intros H. inversion H.
Qed.



(** The flow itself reports the challenge: the account is recorded with
    the code CHALLENGE_REQUIRED without challenge detection being asked. *)
Example flow_challenge_recorded :
  Main.FlowResult.challenge
    {| Main.FlowResult.finalUrl := "https://auth.openai.com/log-in/password";
       Main.FlowResult.challenge := true;
       Main.FlowResult.invalidCredentials := false;
       Main.FlowResult.callbackUrl := None |} = true /\
  exists r,
    Main.iteration options world_challenge account_a = Ok r /\
    Main.AuthResult.code r = Some Main.CHALLENGE_REQUIRED.
Proof. split; [reflexivity|]. eexists. split; reflexivity. Qed.

Lemma caught_exception_recorded_witness :
  exists r,
    Main.iteration options (worlds_ok_then_bad_key 1) account_b = Ok r /\
    Main.AuthResult.status r = Main.failed /\
    Main.AuthResult.code r = Some Main.CPAMC_LOGIN_FAILED /\
    Main.loopFrom options worlds_ok_then_bad_key 1 [account_b; account_a] []
    = Main.loopFrom options worlds_ok_then_bad_key 2 [account_a] [r].
Proof.
  destruct (caught_exception_recorded options worlds_ok_then_bad_key 1
              account_b [account_a] []
              "CPAMC login failed: invalid management key" eq_refl eq_refl)
    as (r & Hi & _ & Hs & _ & Hc & Hl).
  exists r. repeat split; assumption.
Defined.

(** C7, as first stated, fails: the exception browser.newContext throws
    while the second account is processed is not caught; no result is
    recorded for that account, the third account is never processed and
    the command throws. *)
Lemma context_failure_aborts_batch :
  snd (Main.loopFrom options worlds_ok_then_gone 0
         [account_a; account_b; account_a] [])
  = Some "browser.newContext: Target page, context or browser has been closed"
  /\
  length (fst (Main.loopFrom options worlds_ok_then_gone 0
                 [account_a; account_b; account_a] [])) = 1 /\
  Main.runAuthCommand options worlds_ok_then_gone (Ok tt)
    [account_a; account_b; account_a]
  = Throw "browser.newContext: Target page, context or browser has been closed".
Proof. repeat split. Qed.

(** C8, where the code departs from it: the auth directory cannot be listed
    (it does not exist), so no matching file appears before the timeout;
    the flow and the console report success; the exception of
    fs.readdirSync leaves waitForAuthFileByEmail, reaches the orchestrator's
    catch block and the account is recorded with code UNKNOWN, not
    WRITE_FAILED. *)
Theorem missing_auth_dir_recorded_unknown :
  (forall k, readdirSync (Cpamc.snapshot dir_missing k) "auth"
             = Throw "ENOENT: no such file or directory, scandir 'auth'") /\
  Cpamc.waitForAuthFileByEmail dir_missing "auth" "a@x.com" 5000
  = Throw "ENOENT: no such file or directory, scandir 'auth'" /\
  exists r,
    Main.iteration options (world false dir_missing) account_a = Ok r /\
    Main.AuthResult.status r = Main.failed /\
    Main.AuthResult.code r = Some Main.UNKNOWN.
Proof.
  split; [reflexivity|]. split; [reflexivity|].
  eexists. split; [reflexivity|]. split; reflexivity.
Qed.

(** Challenge detection on the sample pages. *)
Example detectChallenge_samples :
  LoginFlow.detectChallenge page_consent (Main.flow options) = Ok false /\
  LoginFlow.detectChallenge
    (page_with_text "Email verification sent") (Main.flow options) = Ok false /\
  LoginFlow.detectChallenge
    (page_with_text "Please pass the Security Check") (Main.flow options)
  = Ok true.
Proof. repeat split. Qed.

(** C9, as first stated, fails: the body text of the frame matches the
    consent pattern, but only after its first 12000 code units, where the
    code does not look; with a challenge selector visible detectChallenge
    returns true. *)
Lemma consent_below_the_cut_missed :
  Spec.consentShowing page_consent_below /\
  ~ Spec.shortBodies page_consent_below /\
  LoginFlow.detectChallenge page_consent_below (Main.flow options) = Ok true.
Proof.
  split; [|split].
  - exists {| LoginFlow.body_innerText :=
                Ok (repeated 12000 "." ++ "Continue to Codex") |},
           (repeated 12000 "." ++ "Continue to Codex").
    split; [now left|]. split; [reflexivity|]. right.
    exists (repeated 12000 "." ++ "Continue "), "to Codex", EmptyString.
    split; vm_compute; reflexivity.
  - intros H. specialize (H _ _ (or_introl eq_refl) eq_refl).
    apply Nat.leb_le in H. vm_compute in H. discriminate H.
  - vm_compute. reflexivity.
Qed.

(** The cut counts code units, not bytes: after 5000 Chinese characters,
    15000 bytes, the consent text still stands in the first 12000 code
    units, and detectChallenge returns false. *)
Example consent_after_chinese_text_seen :
  String.length (repeated 5000 "条") = 15000 /\
  units (repeated 5000 "条" ++ "登录到 Codex") = 5009 /\
  Spec.shortBodies page_consent_chinese /\
  Spec.consentShowing page_consent_chinese /\
  LoginFlow.detectChallenge page_consent_chinese (Main.flow options) = Ok false.
Proof.
  split; [vm_compute; reflexivity|]. split; [vm_compute; reflexivity|].
  assert (Hs : Spec.shortBodies page_consent_chinese).
  { intros frame text [<-|[]] [= <-]. apply Nat.leb_le. vm_compute. reflexivity. }
  split; [exact Hs|]. split; [|vm_compute; reflexivity].
  exists {| LoginFlow.body_innerText :=
              Ok (repeated 5000 "条" ++ "登录到 Codex") |},
         (repeated 5000 "条" ++ "登录到 Codex").
  split; [now left|]. split; [reflexivity|]. left.
  exists (repeated 5000 "条"), "登录到 Codex", EmptyString.
  split; vm_compute; reflexivity.
Qed.

(** The spec's first scenario: the artifact of a@x.com appears during the
    third pass and the account is recorded as a success with that file. *)
Example scenario_success :
  Main.iteration options world_ok account_a
  = Ok (Main.result options world_ok account_a Main.success None None
          (Some "auth/codex-a_x.com-free.json")).
Proof. reflexivity. Qed.

(** The spec's second scenario: a challenge is recorded as a failure with
    CHALLENGE_REQUIRED and the batch goes on with the next account. *)
Example scenario_challenge :
  fst (Main.loopFrom options worlds_challenge_then_ok 0 [account_b; account_a] [])
  = [Main.failure options world_challenge account_b Main.CHALLENGE_REQUIRED
       "Timed out waiting auth status";
     Main.result options world_ok account_a Main.success None None
       (Some "auth/codex-a_x.com-free.json")].
Proof. reflexivity. Qed.

(** The spec's third scenario: two artifacts of one email under different
    file names are two entries, both counted in total. *)
Example scenario_two_files_one_email :
  Main.runRotateIndexCommand clock_2024 "2024-06-01T00:00:00.000Z"
    "2024-06-01T00:00:01.000Z" fs_twins "auth" "auth/accounts-index.json"
  = Ok (Rotate.mkIndex "2024-06-01T00:00:01.000Z"
          [Rotate.mkEntry "b@x.com" "auth/codex-b-free.json"
             (Some "2000-01-01T00:00:00.000Z") "expired";
           Rotate.mkEntry "b@x.com" "auth/codex-b-plus.json" None "disabled"]).
Proof. reflexivity. Qed.

(* ===================================================================== *)
(** ** The further properties at concrete inputs *)
(* ===================================================================== *)

Import MoreExamples.

Lemma summary_counts_witness :
  exists summary,
    Main.runAuthCommand options worlds_ok_then_bad_key (Ok tt)
      [account_a; account_b] = Ok summary /\
    Main.total summary = 2 /\
    Main.n_skipped summary = 0 /\
    Main.n_success summary + Main.n_failed summary = Main.total summary /\
    Forall Props.recordedShape (Main.results summary).
Proof.
  eexists. split; [reflexivity|].
  apply (summary_counts options worlds_ok_then_bad_key (Ok tt)
           [account_a; account_b]).
  reflexivity.
Defined.

Lemma success_file_provenance_witness :
  exists k entries d j e,
    (1000 * Z.of_nat k < 5000)%Z /\
    readdirSync (Cpamc.snapshot dir_with_artifact k) "auth" = Ok entries /\
    In d entries /\
    isFile d = true /\
    startsWith (name d) "codex-" = true /\
    endsWith (name d) ".json" = true /\
    Some "auth/codex-a_x.com-free.json" = Some (join "auth" (name d)) /\
    readFileSync (Cpamc.snapshot dir_with_artifact k) (join "auth" (name d))
    = Parsed j /\
    field j "email" = Some (JStr e) /\
    toLowerCase e = toLowerCase "a@x.com".
Proof.
  exact (success_file_provenance options world_ok account_a
           (Main.result options world_ok account_a Main.success None None
              (Some "auth/codex-a_x.com-free.json"))
           eq_refl eq_refl).
Defined.

Lemma no_success_without_time_witness :
  Main.AuthResult.status
    (Main.failure options_no_time world_ok account_a Main.WRITE_FAILED
       "OAuth completed but auth file not found.") = Main.failed /\
  exists c m,
    Main.AuthResult.code
      (Main.failure options_no_time world_ok account_a Main.WRITE_FAILED
         "OAuth completed but auth file not found.") = Some c /\
    Main.AuthResult.message
      (Main.failure options_no_time world_ok account_a Main.WRITE_FAILED
         "OAuth completed but auth file not found.") = Some m.
Proof.
  apply (no_success_without_time options_no_time world_ok account_a).
  - simpl. lia.
  - reflexivity.
Defined.

Lemma success_is_indexed_witness :
  exists k f index entry e,
    (1000 * Z.of_nat k < 5000)%Z /\
    Some "auth/codex-a_x.com-free.json" = Some f /\
    Rotate.buildRotationIndex clock_2024 "2024-06-01T00:00:00.000Z"
      (Cpamc.snapshot dir_with_artifact k) "auth" = Ok index /\
    In entry (Rotate.accounts index) /\
    field entry "file" = Some (JStr f) /\
    field entry "email" = Some (JStr e) /\
    toLowerCase e = toLowerCase "a@x.com" /\
    Rotate.hasStatus "invalid" entry = false.
Proof.
  exact (success_is_indexed options world_ok account_a
           (Main.result options world_ok account_a Main.success None None
              (Some "auth/codex-a_x.com-free.json"))
           clock_2024 "2024-06-01T00:00:00.000Z" eq_refl eq_refl).
Defined.

Lemma write_without_usable_prior_witness :
  RotateDisk.writeRotationIndex writeFileSync_auth "2024-06-01T00:00:01.000Z"
    (fs_auth None) "out/accounts-index.json" scan_2024
  = writeFileSync_auth "out/accounts-index.json"
      (Rotate.toJSON
         (Rotate.mkIndex "2024-06-01T00:00:01.000Z" (Rotate.accounts scan_2024)))
  /\
  RotateDisk.writeRotationIndex writeFileSync_auth "2024-06-01T00:00:01.000Z"
    (fs_auth None) "out/accounts-index.json" scan_2024
  = Throw "ENOENT: no such file or directory, open".
Proof.
  split; [|reflexivity].
  apply (write_without_usable_prior writeFileSync_auth
           "2024-06-01T00:00:01.000Z" (fs_auth None)
           "out/accounts-index.json" scan_2024).
  - left. reflexivity.
  - reflexivity.
  - repeat constructor; simpl; intuition discriminate.
Defined.

(** The same call with the output path in the directory that exists. *)
Example write_into_auth_directory :
  RotateDisk.writeRotationIndex writeFileSync_auth "2024-06-01T00:00:01.000Z"
    (fs_auth None) "auth/accounts-index.json" scan_2024 = Ok tt.
Proof. reflexivity. Qed.

Lemma planned_file_is_artifact_witness :
  Io.makeTokenOutputPath "auth" account_b = "auth/codex-b@x.com-plus.json" /\
  exists files,
    Rotate.scannedFiles fs_planned "auth" = Ok files /\
    In (Io.makeTokenOutputPath "auth" account_b) files.
Proof.
  split; [reflexivity|].
  apply (planned_file_is_artifact fs_planned "auth" account_b
           [file "accounts-index.json"; file "codex-b@x.com-plus.json"]).
  - reflexivity.
  - right. left. reflexivity.
Defined.

(** With a slash in the plan the path names a file one directory further
    down, under a name the artifact filter rejects: no listing of the auth
    directory holds the name composed, and the file is not found. *)
Example planned_file_with_slash_in_plan :
  Io.tokenFileName account_team = "codex-c_d@x.com-pro/team.json" /\
  Io.makeTokenOutputPath "auth" account_team
  = "auth/codex-c_d@x.com-pro/team.json" /\
  basename (Io.makeTokenOutputPath "auth" account_team) = "team.json" /\
  isArtifact (file (basename (Io.makeTokenOutputPath "auth" account_team)))
  = false.
Proof. repeat split. Qed.

(** The link is taken from the data of the response: its own url is no
    link, and of the keys of the data the first of the four in their order
    wins, not the first in the response. *)
Example fallbackUrl_nested :
  OauthUrl.fallbackUrl response_nested = "https://auth.example/first" /\
  OauthUrl.fallbackUrl (plain_response "https://auth.example/raw")
  = "https://auth.example/raw" /\
  OauthUrl.fallbackUrl (plain_response "pending") = EmptyString.
Proof. repeat split. Qed.

Lemma extract_report_accounting_witness :
  Io.ExtractReport.total_lines extract_report = 6 /\
  1 <= Io.ExtractReport.total_lines extract_report /\
  Io.ExtractReport.valid_accounts extract_report = length extracted /\
  length (Io.ExtractReport.errors extract_report)
  = Io.ExtractReport.invalid_lines extract_report /\
  (0 <= Io.ExtractReport.duplicate_emails extract_report)%Z /\
  (5 = Z.of_nat (Io.ExtractReport.invalid_lines extract_report)
       + Z.of_nat (Io.ExtractReport.valid_accounts extract_report)
       + Io.ExtractReport.duplicate_emails extract_report)%Z.
Proof.
  exact (extract_report_accounting "2024-06-01T00:00:00.000Z" read_markdown
           "accounts.md" "free" markdown_text extracted extract_report
           eq_refl eq_refl).
Defined.

Lemma extract_reports_rejected_lines_witness :
  StronglySorted lt [3; 5; 6] /\
  forall n,
    In n [3; 5; 6] <->
    1 <= n /\
    exists line,
      nth_error (Text.splitLines markdown_text) (n - 1) = Some line /\
      Text.trim line <> EmptyString /\
      forall a, ~ Props.describes "free" line a.
Proof.
  exact (extract_reports_rejected_lines "2024-06-01T00:00:00.000Z"
           read_markdown "accounts.md" "free" markdown_text extracted
           extract_report eq_refl eq_refl).
Defined.

Lemma extract_last_line_wins_witness :
  NoDup (map Props.emailKey extracted) /\
  forall a,
    In a extracted <->
    exists before line after,
      Text.splitLines markdown_text = (before ++ line :: after)%list /\
      Props.describes "free" line a /\
      forall line' a',
        In line' after -> Props.describes "free" line' a' ->
        Props.emailKey a' <> Props.emailKey a.
Proof.
  exact (extract_last_line_wins "2024-06-01T00:00:00.000Z" read_markdown
           "accounts.md" "free" markdown_text extracted extract_report
           eq_refl eq_refl).
Defined.

Lemma extracted_accounts_load_witness :
  Io.loadAccountJson fs_accounts "accounts.json" "plus" = Ok extracted.
Proof.
  apply (extracted_accounts_load "2024-06-01T00:00:00.000Z" read_markdown
           "accounts.md" "free" markdown_text extracted extract_report
           fs_accounts "accounts.json" "plus");
    try reflexivity; discriminate.
Defined.

Lemma loadAccountJson_valid_witness :
  exists rows,
    readFileSync fs_accounts "rows.json" = Parsed (JArr rows) /\
    [ {| Main.AccountCredential.email := "c@x.com";
         Main.AccountCredential.password := "pw";
         Main.AccountCredential.plan := Some "plus" |} ] <> [] /\
    1 <= length rows /\
    Forall (fun a =>
              Text.test Io.EMAIL_RE (Main.AccountCredential.email a) = true /\
              Text.trim (Main.AccountCredential.email a)
              = Main.AccountCredential.email a /\
              Main.AccountCredential.password a <> EmptyString /\
              exists p, Main.AccountCredential.plan a = Some p /\
                (p = "plus" \/ p <> EmptyString))
      [ {| Main.AccountCredential.email := "c@x.com";
           Main.AccountCredential.password := "pw";
           Main.AccountCredential.plan := Some "plus" |} ].
Proof.
  exact (loadAccountJson_valid fs_accounts "rows.json" "plus" _ eq_refl).
Defined.

Lemma requireOption_parseArgs_witness :
  (forall v,
     Config.requireOption (Config.parseArgs argv_auth) "input" = Ok v <->
     exists pre post,
       tl argv_auth = (pre ++ ("--" ++ "input")%string :: v :: post)%list /\
       Props.isValue v /\
       forall pre' v' post',
         post = (pre' ++ ("--" ++ "input")%string :: v' :: post')%list ->
         ~ Props.isValue v') /\
  (forall message,
     Config.requireOption (Config.parseArgs argv_auth) "input" = Throw message ->
     message = "Missing required option --" ++ "input").
Proof.
  apply (requireOption_parseArgs argv_auth "input").
  simpl. intuition discriminate.
Defined.

Lemma getBoolOption_parseArgs_witness :
  let bare := exists pre post,
    tl argv_auth = (pre ++ ("--" ++ "dry-run")%string :: post)%list /\
    Props.noValue post in
  let valued v := exists pre post,
    tl argv_auth = (pre ++ ("--" ++ "dry-run")%string :: v :: post)%list /\
    Props.isValue v /\
    forall pre' v' post',
      post = (pre' ++ ("--" ++ "dry-run")%string :: v' :: post')%list ->
      ~ Props.isValue v' in
  (bare -> Config.getBoolOption (Config.parseArgs argv_auth) "dry-run" false = true) /\
  (forall v, ~ bare -> valued v ->
     Config.getBoolOption (Config.parseArgs argv_auth) "dry-run" false
     = (String.eqb (toLowerCase v) "true" || String.eqb (toLowerCase v) "1"
        || String.eqb (toLowerCase v) "yes")) /\
  (~ bare -> (forall v, ~ valued v) ->
   Config.getBoolOption (Config.parseArgs argv_auth) "dry-run" false = false).
Proof.
  apply (getBoolOption_parseArgs argv_auth "dry-run" false).
  simpl. intuition discriminate.
Defined.

Lemma status_poll_result_witness :
  (exists m, Cpamc.CpamcAuthStatus.message status_completed = Some m) /\
  (Cpamc.CpamcAuthStatus.status status_completed = Cpamc.waiting <->
   status_completed = CpamcStatus.timedOut) /\
  exists n,
    (forall i, i < n ->
       (Props.consoleElapsedAt console_slow i < 5000)%Z /\
       Props.inconclusive stringify_sample console_slow (Some "abc123") i) /\
    ((5000 <= Props.consoleElapsedAt console_slow n)%Z /\
       status_completed = CpamcStatus.timedOut
     \/
     (1000 * Z.of_nat n < 5000)%Z /\
     CpamcStatus.onePass stringify_sample console_slow (Some "abc123") n
     = Ok (Some status_completed)).
Proof.
  exact (status_poll_result stringify_sample console_slow (Some "abc123") 5000
           status_completed eq_refl).
Defined.

Lemma status_poll_returns_witness :
  exists st n,
    CpamcStatus.pollCpamcAuthStatus stringify_sample console_silent
      (Some "abc123") 3000 = Ok st /\
    (1000 * Z.of_nat n <= Z.max 0 3000 + 1000)%Z /\
    (st = CpamcStatus.timedOut \/
     CpamcStatus.onePass stringify_sample console_silent (Some "abc123") n
     = Ok (Some st)).
Proof.
  apply (status_poll_returns stringify_sample console_silent (Some "abc123") 3000).
  - intros k. eexists. reflexivity.
  - intros k. eexists. reflexivity.
Defined.

Lemma console_message_recorded_witness :
  exists r m,
    Main.iteration options world_rejected_silent account_a = Ok r /\
    Main.AuthResult.status r = Main.failed /\
    Cpamc.CpamcAuthStatus.message CpamcStatus.timedOut = Some m /\
    Main.AuthResult.message r = Some m /\
    (Cpamc.CpamcAuthStatus.status CpamcStatus.timedOut = Cpamc.waiting ->
     m = "Timed out waiting auth status").
Proof.
  apply (console_message_recorded options stringify_sample
           world_rejected_silent account_a (flow_done true) false
           CpamcStatus.timedOut console_silent).
  - reflexivity.
  - repeat split.
    exists "https://auth.openai.com/oauth/authorize?client_id=app&state=abc123",
           "abc123".
    repeat split. discriminate.
  - reflexivity.
  - left. reflexivity.
Defined.
